(** * The reactive job binding of inspectify (checkr)

    A shallow embedding of [initializeIo] from
    [inspectify-app/src/lib/io.ts] and of its earlier variant (the second
    [io.ts] of the repository, whose results carry [latestJobId] instead of
    [job] and [input]).

    The TypeScript builds two svelte [derived] stores whose callbacks start
    an [async] function [run] and return a cleanup closure
    [() => { stop = true; cancel(); }].  The embedding is an event-loop
    machine: every [run] invocation is a record holding the variables its
    closure captured ([stop], [cancel], the captured [$input]), every
    [setTimeout(resolve, 200)] is an entry of a timer queue, and every
    [await] splits [run] into the pieces executed by the event that resumes
    it.  The store library contributes four facts that the embedding
    relies upon: a derived store calls the previous cleanup and then the
    callback each time a dependency notifies; a store holding an object
    notifies on every [set], one holding a number only when the number
    changes; [subscribe] calls the subscriber at once with the current
    value; and all stores run their subscribers from one shared queue,
    which an exception thrown by a subscriber leaves blocked for good
    (see [stuck]).

    Beside the binding, the file embeds [useIo], which keeps one binding
    for each analysis, and [Env] of [ui/src/components/AnalysisEnv.tsx],
    the component of the React front end that holds the input and shows
    the verdict. *)

From Stdlib Require Import Arith Lia Bool.
From stdpp Require Import base option list gmap strings.

Set Default Proof Using "Type".

(** ** Values *)

(** A JavaScript slot that may be [undefined] (also: a field that is not
    there), [null], or hold a value. *)
Inductive jsval (A : Type) : Type :=
| Undefined
| Null
| Val (a : A).
Arguments Undefined {A}.
Arguments Null {A}.
Arguments Val {A} a.

(** [a?.b]: [undefined] when [a] is [null] or [undefined], and the field
    otherwise, which may itself be missing or [null]. *)
Definition chain {A B : Type} (f : A → jsval B) (o : option A) : jsval B :=
  match o with
  | Some a => f a
  | None => Undefined
  end.

(** A value passed on under another type; [undefined] and [null] pass
    through as they are. *)
Definition jsval_map {A B : Type} (f : A → B) (x : jsval A) : jsval B :=
  match x with
  | Undefined => Undefined
  | Null => Null
  | Val a => Val (f a)
  end.

Module OutputState.
(** [type OutputState = 'None' | 'Stale' | 'Current'] *)
Inductive t : Set := None | Stale | Current.
End OutputState.

Module JobState.
(** Modelled from the spec: the job states of the registry's records (the
    declaration lives in the events module, which is not part of the
    sources at hand): Queued, Running, Succeeded, Failed, Canceled. *)
Inductive t : Set := Queued | Running | Succeeded | Failed | Canceled.
End JobState.

Module CompilerState.
(** Modelled from the spec: the state of [compilationStatusStore]; the
    dispatcher compares it with ['Succeeded'] and treats everything else
    alike. *)
Inductive t : Set := Compiling | Succeeded | Failed.

Definition is_succeeded (c : t) : bool :=
  match c with
  | Succeeded => true
  | _ => false
  end.
End CompilerState.

(** [ce_core.ValidationResult], as the generated type file spells it. *)
Inductive ValidationResult : Set :=
| CorrectTerminated
| CorrectNonTerminated (iterations : nat)
| Mismatch (reason : string)
| TimeOut.

(** The two variants of the binding. *)
Inductive Variant : Set :=
| InspectifyApp   (* inspectify-app/src/lib/io.ts *)
| Earlier.        (* the earlier io.ts *)

Record Config : Set := {
  variant : Variant;
  browser : bool;   (* [browser] of $app/environment *)
}.

(** What escapes uncaught from a callback or an [async] function. *)
Inductive Uncaught : Set :=
| ReferenceError          (* a [const] read before its initialisation *)
| TypeError               (* [job.subscribe] on [undefined] *)
| Rejected (message : string).  (* the awaited request rejected *)

#[global] Instance Uncaught_eq_dec : EqDecision Uncaught.
Proof. solve_decision. Defined.

(** * The React front end

    [Env], the component of [ui/src/components/AnalysisEnv.tsx] that holds
    the input, asks the server to analyse it and shows the verdict, with the
    types of [ui/src/lib/types.ts].  The component's state variables are
    the fields of a record; each effect is a function on that record, and
    each handler a function of the response it is called with.  React runs
    an effect after a render in which one of its dependencies changed: when
    that is, is for its scheduler to say, and here for the trace.  Every
    schedule React can produce is among the traces. *)
Module Ui.

(** [enum Analysis], in the order of its declaration. *)
Inductive Analysis : Set :=
| Graph
| Interpreter
| ProgramVerification
| Sign
| Security.

#[global] Instance Analysis_eq_dec : EqDecision Analysis.
Proof. solve_decision. Defined.

(** [Object.values(Analysis)] *)
Definition Analysis_values : list Analysis :=
  [Graph; Interpreter; ProgramVerification; Sign; Security].

(** The string each member is. *)
Definition Analysis_value (a : Analysis) : string :=
  match a with
  | Graph => "Graph"
  | Interpreter => "Interpreter"
  | ProgramVerification => "ProgramVerification"
  | Sign => "Sign"
  | Security => "Security"
  end.

(** A string read as a member: [s as Analysis]. *)
Definition as_Analysis (s : string) : option Analysis :=
  find (λ a, bool_decide (Analysis_value a = s)) Analysis_values.

Module CompilerState.
(** [enum CompilerState] *)
Inductive t : Set := Compiling | Compiled | CompileError.

#[global] Instance t_eq_dec : EqDecision t.
Proof. solve_decision. Defined.
End CompilerState.

(** [interface CompilationStatus] *)
Record CompilationStatus : Set := {
  compiled_at : nat;
  state : CompilerState.t;
}.

#[global] Instance CompilationStatus_eq_dec : EqDecision CompilationStatus.
Proof. solve_decision. Defined.

(** [interface AnalysisResponse] *)
Record AnalysisResponse : Set := {
  stdout : string;
  stderr : string;
  parsed_markdown : option string;
  took : string;
  validation_result : option ValidationResult;
}.

(** [interface AnalysisRequest] *)
Record AnalyzeRequest : Set := {
  rq_analysis : Analysis;
  rq_src : string;
  rq_input : string;
}.

Module IndicatorState.
(** The members of [IndicatorState] (of the Indicator component) that
    [Env] names. *)
Inductive t : Set := Working | Correct | Mismatch | TimeOut | Error.
End IndicatorState.

(** The fields of [wasm.Input] and [wasm.Output] that [Env] reads. *)
Record Input : Set := {
  analysis : Analysis;
  json : string;
  markdown : string;
}.

Record Output : Set := {
  o_markdown : string;
}.

(** A JavaScript string as a condition: the empty one is falsy, and so is
    a missing one. *)
Definition truthy (o : option string) : option string :=
  match o with
  | Some s => if decide (s = "") then None else Some s
  | None => None
  end.

(** [const ENVS = Object.values(Analysis).filter((a) => a != Analysis.Graph)] *)
Definition ENVS : list Analysis :=
  filter (λ a, a ≠ Graph) Analysis_values.

(** The initial value of the state variable [env], from the query
    parameter [analysis]:
    [inputted.analysis && ENVS.includes(inputted.analysis)
       ? inputted.analysis : Analysis.Interpreter]. *)
Definition initial_env (inputted_analysis : option string) : Analysis :=
  match truthy inputted_analysis with
  | Some a =>
      if decide (a ∈ Analysis_value <$> ENVS) then default Interpreter (as_Analysis a)
      else Interpreter
  | None => Interpreter
  end.

(** [compilationStatus?.state != CompilerState.Compiled], negated. *)
Definition compiled (c : option CompilationStatus) : bool :=
  match c with
  | Some c => bool_decide (state c = CompilerState.Compiled)
  | None => false
  end.

(** [const indicatorState = ...]: the nested conditional of the render.
    Its last alternative, for a validation result of none of the four
    types, has no value of the type to apply to. *)
Definition indicatorState (inFlight : bool) (compilationStatus : option CompilationStatus)
    (response : option AnalysisResponse) : IndicatorState.t :=
  if inFlight || negb (compiled compilationStatus) then IndicatorState.Working
  else
    match response with
    | Some res =>
        match validation_result res with
        | Some CorrectTerminated => IndicatorState.Correct
        | Some (CorrectNonTerminated _) => IndicatorState.Correct
        | Some (Mismatch _) => IndicatorState.Mismatch
        | Some TimeOut => IndicatorState.TimeOut
        | None => IndicatorState.Error
        end
    | None => IndicatorState.Error
    end.

(** Modelled from the spec: a request of the api module, which is not part
    of the sources at hand.  A request is "cancellable (abortable) before
    it resolves": it is still to be answered, or aborted (its promise then
    rejects with an AbortError, which the handlers here pass over), or
    answered. *)
Inductive Request : Set := Pending | Aborted | Settled.

#[global] Instance Request_eq_dec : EqDecision Request.
Proof. solve_decision. Defined.

(** Modelled from the spec: [abort()] of a request; only a request still
    to be answered is affected. *)
Definition aborted (r : Request) : Request :=
  match r with
  | Pending => Aborted
  | r => r
  end.

(** The state of one [Env]: its props, its state variables, the variables
    its effects close over, and what it asked of the surroundings. *)
Record Env : Type := {
  env : Analysis;  (* the [env] prop *)
  src : string;  (* the [src] prop *)
  input : option Input;
  output : option Output;
  referenceOutput : string;
  inFlight : bool;
  response : option AnalysisResponse;
  compilationStatus : option CompilationStatus;
  interval : bool;  (* the interval of the polling effect is set *)
  aborts : list nat;  (* its array [aborts], by request *)
  analysis_cleanup : option nat;  (* the cleanup the analysis effect returned last *)
  status_requests : list Request;  (* [api.compilationStatus()] calls, oldest first *)
  status_abort_calls : list nat;  (* calls of their [abort], by request *)
  analyze_requests : list (AnalyzeRequest * Request);  (* [api.analyze] calls, oldest first *)
  console_errors : nat;  (* [console.error] calls *)
}.

Definition set_input (x : option Input) (s : Env) : Env :=
  {| env := env s; src := src s; input := x; output := output s;
     referenceOutput := referenceOutput s; inFlight := inFlight s;
     response := response s; compilationStatus := compilationStatus s;
     interval := interval s; aborts := aborts s;
     analysis_cleanup := analysis_cleanup s;
     status_requests := status_requests s;
     status_abort_calls := status_abort_calls s;
     analyze_requests := analyze_requests s;
     console_errors := console_errors s |}.

Definition set_output (x : option Output) (s : Env) : Env :=
  {| env := env s; src := src s; input := input s; output := x;
     referenceOutput := referenceOutput s; inFlight := inFlight s;
     response := response s; compilationStatus := compilationStatus s;
     interval := interval s; aborts := aborts s;
     analysis_cleanup := analysis_cleanup s;
     status_requests := status_requests s;
     status_abort_calls := status_abort_calls s;
     analyze_requests := analyze_requests s;
     console_errors := console_errors s |}.

Definition set_referenceOutput (x : string) (s : Env) : Env :=
  {| env := env s; src := src s; input := input s; output := output s;
     referenceOutput := x; inFlight := inFlight s; response := response s;
     compilationStatus := compilationStatus s; interval := interval s;
     aborts := aborts s; analysis_cleanup := analysis_cleanup s;
     status_requests := status_requests s;
     status_abort_calls := status_abort_calls s;
     analyze_requests := analyze_requests s;
     console_errors := console_errors s |}.

Definition set_inFlight (x : bool) (s : Env) : Env :=
  {| env := env s; src := src s; input := input s; output := output s;
     referenceOutput := referenceOutput s; inFlight := x;
     response := response s; compilationStatus := compilationStatus s;
     interval := interval s; aborts := aborts s;
     analysis_cleanup := analysis_cleanup s;
     status_requests := status_requests s;
     status_abort_calls := status_abort_calls s;
     analyze_requests := analyze_requests s;
     console_errors := console_errors s |}.

Definition set_response (x : option AnalysisResponse) (s : Env) : Env :=
  {| env := env s; src := src s; input := input s; output := output s;
     referenceOutput := referenceOutput s; inFlight := inFlight s;
     response := x; compilationStatus := compilationStatus s;
     interval := interval s; aborts := aborts s;
     analysis_cleanup := analysis_cleanup s;
     status_requests := status_requests s;
     status_abort_calls := status_abort_calls s;
     analyze_requests := analyze_requests s;
     console_errors := console_errors s |}.

Definition set_compilationStatus (x : option CompilationStatus) (s : Env) : Env :=
  {| env := env s; src := src s; input := input s; output := output s;
     referenceOutput := referenceOutput s; inFlight := inFlight s;
     response := response s; compilationStatus := x;
     interval := interval s; aborts := aborts s;
     analysis_cleanup := analysis_cleanup s;
     status_requests := status_requests s;
     status_abort_calls := status_abort_calls s;
     analyze_requests := analyze_requests s;
     console_errors := console_errors s |}.

Definition set_interval (x : bool) (s : Env) : Env :=
  {| env := env s; src := src s; input := input s; output := output s;
     referenceOutput := referenceOutput s; inFlight := inFlight s;
     response := response s; compilationStatus := compilationStatus s;
     interval := x; aborts := aborts s;
     analysis_cleanup := analysis_cleanup s;
     status_requests := status_requests s;
     status_abort_calls := status_abort_calls s;
     analyze_requests := analyze_requests s;
     console_errors := console_errors s |}.

Definition set_aborts (x : list nat) (s : Env) : Env :=
  {| env := env s; src := src s; input := input s; output := output s;
     referenceOutput := referenceOutput s; inFlight := inFlight s;
     response := response s; compilationStatus := compilationStatus s;
     interval := interval s; aborts := x;
     analysis_cleanup := analysis_cleanup s;
     status_requests := status_requests s;
     status_abort_calls := status_abort_calls s;
     analyze_requests := analyze_requests s;
     console_errors := console_errors s |}.

Definition set_analysis_cleanup (x : option nat) (s : Env) : Env :=
  {| env := env s; src := src s; input := input s; output := output s;
     referenceOutput := referenceOutput s; inFlight := inFlight s;
     response := response s; compilationStatus := compilationStatus s;
     interval := interval s; aborts := aborts s; analysis_cleanup := x;
     status_requests := status_requests s;
     status_abort_calls := status_abort_calls s;
     analyze_requests := analyze_requests s;
     console_errors := console_errors s |}.

Definition set_status_requests (x : list Request) (s : Env) : Env :=
  {| env := env s; src := src s; input := input s; output := output s;
     referenceOutput := referenceOutput s; inFlight := inFlight s;
     response := response s; compilationStatus := compilationStatus s;
     interval := interval s; aborts := aborts s;
     analysis_cleanup := analysis_cleanup s; status_requests := x;
     status_abort_calls := status_abort_calls s;
     analyze_requests := analyze_requests s;
     console_errors := console_errors s |}.

Definition set_analyze_requests (x : list (AnalyzeRequest * Request)) (s : Env) : Env :=
  {| env := env s; src := src s; input := input s; output := output s;
     referenceOutput := referenceOutput s; inFlight := inFlight s;
     response := response s; compilationStatus := compilationStatus s;
     interval := interval s; aborts := aborts s;
     analysis_cleanup := analysis_cleanup s;
     status_requests := status_requests s;
     status_abort_calls := status_abort_calls s; analyze_requests := x;
     console_errors := console_errors s |}.

Definition set_props (e : Analysis) (c : string) (s : Env) : Env :=
  {| env := e; src := c; input := input s; output := output s;
     referenceOutput := referenceOutput s; inFlight := inFlight s;
     response := response s; compilationStatus := compilationStatus s;
     interval := interval s; aborts := aborts s;
     analysis_cleanup := analysis_cleanup s;
     status_requests := status_requests s;
     status_abort_calls := status_abort_calls s;
     analyze_requests := analyze_requests s;
     console_errors := console_errors s |}.

Definition log_status_abort (req : nat) (s : Env) : Env :=
  {| env := env s; src := src s; input := input s; output := output s;
     referenceOutput := referenceOutput s; inFlight := inFlight s;
     response := response s; compilationStatus := compilationStatus s;
     interval := interval s; aborts := aborts s;
     analysis_cleanup := analysis_cleanup s;
     status_requests := status_requests s;
     status_abort_calls := status_abort_calls s ++ [req];
     analyze_requests := analyze_requests s;
     console_errors := console_errors s |}.

(** [console.error(...)] *)
Definition log_error (s : Env) : Env :=
  {| env := env s; src := src s; input := input s; output := output s;
     referenceOutput := referenceOutput s; inFlight := inFlight s;
     response := response s; compilationStatus := compilationStatus s;
     interval := interval s; aborts := aborts s;
     analysis_cleanup := analysis_cleanup s;
     status_requests := status_requests s;
     status_abort_calls := status_abort_calls s;
     analyze_requests := analyze_requests s;
     console_errors := S (console_errors s) |}.

(** [useState(...)] of each variable, and the polling effect, whose
    dependencies are [[]], run once: the interval is set. *)
Definition mounted (e : Analysis) (c : string) : Env :=
  {| env := e; src := c; input := None; output := None; referenceOutput := "";
     inFlight := false; response := None; compilationStatus := None;
     interval := true; aborts := []; analysis_cleanup := None;
     status_requests := []; status_abort_calls := []; analyze_requests := [];
     console_errors := 0 |}.

(** [const realReferenceOutput = output?.markdown ?? ""] *)
Definition realReferenceOutput (s : Env) : string :=
  match output s with
  | Some o => o_markdown o
  | None => ""
  end.

(** What the render shows as the indicator. *)
Definition indicator (s : Env) : IndicatorState.t :=
  indicatorState (inFlight s) (compilationStatus s) (response s).

(** One of the [abort] closures in [aborts] is called. *)
Definition abort_status (s : Env) (req : nat) : Env :=
  set_status_requests (alter aborted req (status_requests s)) (log_status_abort req s).

(** The callback of [setInterval(..., 200)] (l.171-187).
    [aborts.slice(0, aborts.length)] makes a copy and drops it: the array
    keeps its elements. *)
Definition tick (s : Env) : Env :=
  if interval s then
    let s1 := foldl abort_status s (aborts s) in
    let req := length (status_requests s1) in
    set_aborts (aborts s1 ++ [req])
      (set_status_requests (status_requests s1 ++ [Pending]) s1)
  else s.

(** The cleanup of the polling effect (l.189-193); [splice] empties the
    array. *)
Definition poll_cleanup (s : Env) : Env :=
  set_interval false (set_aborts [] (foldl abort_status s (aborts s))).

(** The handler of a status response:
    [setCompilationStatus((old) => deepEqual(old, res) ? old : res)]. *)
Definition status_resolved (req : nat) (res : CompilationStatus) (s : Env) : Env :=
  match status_requests s !! req with
  | Some Pending =>
      let old := compilationStatus s in
      set_compilationStatus (if decide (old = Some res) then old else Some res)
        (set_status_requests (<[req := Settled]> (status_requests s)) s)
  | _ => s
  end.

(** A status request failed, not by being aborted: [console.error]. *)
Definition status_rejected (req : nat) (s : Env) : Env :=
  match status_requests s !! req with
  | Some Pending =>
      log_error (set_status_requests (<[req := Settled]> (status_requests s)) s)
  | _ => s
  end.

(** [abort()] of an analysis request. *)
Definition abort_analyze (req : nat) (s : Env) : Env :=
  set_analyze_requests (alter (prod_map id aborted) req (analyze_requests s)) s.

(** The cleanup the analysis effect returned last, if it returned one:
    [() => abort()]. *)
Definition analysis_cleanup_run (s : Env) : Env :=
  match analysis_cleanup s with
  | Some req => abort_analyze req s
  | None => s
  end.

(** The handler of an analysis response (l.220-224). *)
Definition analyze_resolved (req : nat) (res : AnalysisResponse) (s : Env) : Env :=
  match analyze_requests s !! req with
  | Some (q, Pending) =>
      set_referenceOutput (realReferenceOutput s)
        (set_response (Some res)
           (set_inFlight false
              (set_analyze_requests (<[req := (q, Settled)]> (analyze_requests s)) s)))
  | _ => s
  end.

(** An analysis request failed, not by being aborted (l.225-227). *)
Definition analyze_rejected (req : nat) (s : Env) : Env :=
  match analyze_requests s !! req with
  | Some (q, Pending) =>
      log_error (set_analyze_requests (<[req := (q, Settled)]> (analyze_requests s)) s)
  | _ => s
  end.

(** What aborting status requests leaves alone. *)
Definition outside_status (s : Env) :=
  (env s, src s, input s, output s, referenceOutput s, inFlight s, response s,
   compilationStatus s, interval s, aborts s, analysis_cleanup s,
   analyze_requests s, console_errors s).

(** The analysis effect's bookkeeping: a request still to be answered is
    the one the registered cleanup aborts. *)
Definition AInv (s : Env) : Prop :=
  ∀ req q, analyze_requests s !! req = Some (q, Pending) →
           analysis_cleanup s = Some req.

(** The polling effect's bookkeeping. *)
Definition PInv (s : Env) : Prop :=
  let n := length (status_requests s) in
  (interval s = true →
   aborts s = seq 0 n ∧ 2 * length (status_abort_calls s) = n * (n - 1)) ∧
  (interval s = false → aborts s = []) ∧
  (∀ req, status_requests s !! req = Some Pending → S req = n ∧ interval s = true).

(** Nothing was ever there to analyse. *)
Definition inert (s : Env) : Prop :=
  input s = None ∧ output s = None ∧ analyze_requests s = [] ∧
  response s = None ∧ inFlight s = false.

Section Effects.

(** The functions of the wasm package; [None] is a thrown exception. *)
Variable complete_input_from_json : Analysis → string → option Input.
Variable generate_input_for : string → Analysis → option Input.
Variable run_analysis : string → Input → option Output.

(** The query parameter [input]. *)
Variable inputted_input : option string.

(** The effect on [[env, input]] (l.157-166): the input of the query
    parameter is completed, once. *)
Definition effect_complete_input (s : Env) : Env :=
  match input s, truthy inputted_input with
  | None, Some j =>
      match complete_input_from_json (env s) j with
      | Some fullInput => set_input (Some fullInput) s
      | None => log_error s
      end
  | _, _ => s
  end.

(** The effect on [[compilationStatus, src, input]] (l.196-230), after the
    cleanup of its previous run. *)
Definition effect_analyze (s : Env) : Env :=
  let s1 := analysis_cleanup_run s in
  match input s1 with
  | Some i =>
      if compiled (compilationStatus s1) then
        if decide (analysis i = env s1) then
          let req := length (analyze_requests s1) in
          let q := {| rq_analysis := env s1; rq_src := src s1; rq_input := json i |} in
          set_analysis_cleanup (Some req)
            (set_analyze_requests (analyze_requests s1 ++ [(q, Pending)])
               (set_inFlight true s1))
        else set_analysis_cleanup None s1
      else set_analysis_cleanup None s1
  | None => set_analysis_cleanup None s1
  end.

(** The effect on [[env, input, src]] (l.232-244): an input made for
    another analysis is replaced by a generated one. *)
Definition effect_generate_input (s : Env) : Env :=
  match truthy inputted_input, input s with
  | Some _, Some i =>
      if decide (analysis i ≠ env s) then
        match generate_input_for (src s) (env s) with
        | Some i' => set_input (Some i') s
        | None => log_error s
        end
      else s
  | _, _ => s
  end.

(** The effect on [[src, env, input]] (l.246-255). *)
Definition effect_run_analysis (s : Env) : Env :=
  match input s with
  | Some i =>
      match run_analysis (src s) i with
      | Some o => set_output (Some o) s
      | None => log_error s
      end
  | None => s
  end.

Inductive Event : Set :=
| Props (e : Analysis) (c : string)     (* the parent renders with new props *)
| CompleteInput                         (* an effect runs *)
| Analyze
| GenerateInput
| RunAnalysis
| Tick                                  (* the interval fires *)
| StatusResolved (req : nat) (res : CompilationStatus)
| StatusRejected (req : nat)
| AnalyzeResolved (req : nat) (res : AnalysisResponse)
| AnalyzeRejected (req : nat)
| Unmount.                              (* the cleanups run *)

Definition step (s : Env) (e : Event) : Env :=
  match e with
  | Props e c => set_props e c s
  | CompleteInput => effect_complete_input s
  | Analyze => effect_analyze s
  | GenerateInput => effect_generate_input s
  | RunAnalysis => effect_run_analysis s
  | Tick => tick s
  | StatusResolved req res => status_resolved req res s
  | StatusRejected req => status_rejected req s
  | AnalyzeResolved req res => analyze_resolved req res s
  | AnalyzeRejected req => analyze_rejected req s
  | Unmount => set_analysis_cleanup None (analysis_cleanup_run (poll_cleanup s))
  end.

Definition run (s : Env) (es : list Event) : Env := foldl step s es.

End Effects.

End Ui.

(** * The binding *)

Section Io.

Variables Input Output Meta : Type.

(** [ValidationResult | { type: 'Failure'; message: string }] *)
Inductive Validation : Type :=
| Remote (v : ValidationResult)
| Failure (message : string).

(** What the binding reads of [analysis_data], each as the expression it
    is read through evaluates: a value, [null], or [undefined] where the
    field (or the object in front of [?.]) is missing. *)
Record AnalysisData : Type := {
  ad_output : jsval Output;             (* [output?.json] *)
  ad_reference_output : jsval Output;   (* [reference_output?.json] *)
  ad_validation : jsval ValidationResult;  (* [validation] *)
}.

(** The fields of a job record that the binding reads. *)
Record Job : Type := {
  state : JobState.t;
  analysis_data : option AnalysisData;
  stdout : string;
}.

(** [Results<A>].  The app variant has [input] and [job] (the record's
    store, named here by the key it is stored under); the earlier variant
    has [latestJobId].  A field a literal leaves out reads [Undefined]. *)
Record Results : Type := {
  input : jsval Input;
  outputState : OutputState.t;
  output : jsval Output;
  referenceOutput : jsval Output;
  validation : jsval Validation;
  job : jsval nat;
  latestJobId : jsval nat;
}.

(** The value [jobIdAndMetaDerived] holds once a run has called [set].
    [p_gen] is a ghost: the index of the dispatcher run that published.
    The earlier variant's store holds [p_jobId] alone. *)
Record Published : Type := {
  p_gen : nat;
  p_jobId : nat;
  p_input : Input;
  p_meta : Meta;
}.

(** ** Closures *)

(** The values the dispatcher's [cancel] variable takes. *)
Inductive Cancel : Set :=
| cancel_noop                      (* [() => {}] *)
| cancel_abort                     (* app: [analysisRequest.abort()] *)
| cancel_jobsCancel (jobId : nat)  (* app: [api.jobsCancel(jobId)] *)
| cancel_abort_jobsCancel.         (* earlier: abort, then [api.jobsCancel(jobId)] *)

(** Where an [async run] of the dispatcher is suspended. *)
Inductive Await : Set :=
| await_timer
| await_request
| settled.

#[global] Instance Cancel_eq_dec : EqDecision Cancel.
Proof. solve_decision. Defined.

#[global] Instance Await_eq_dec : EqDecision Await.
Proof. solve_decision. Defined.

(** One invocation of the dispatcher callback. *)
Record DispatchRun : Type := {
  d_input : Input;          (* the captured [$input] *)
  d_stop : bool;
  d_cancel : Cancel;
  d_at : Await;
  d_jobId : option nat;     (* the [const jobId]; [None] until initialised *)
}.

Inductive Subscription : Set :=
| no_subscription     (* [cancel] is still [() => {}] *)
| subscribed          (* [cancel] is the unsubscriber *)
| unsubscribed.       (* the unsubscriber has been called *)

#[global] Instance Subscription_eq_dec : EqDecision Subscription.
Proof. solve_decision. Defined.

(** One invocation of the results callback. *)
Record ResultsRun : Type := {
  r_gen : nat;              (* ghost: [p_gen] of the value it was called with *)
  r_jobId : nat;            (* [$jobId] *)
  r_cachedInput : Input;    (* [$cachedInput] *)
  r_stop : bool;
  r_sub : Subscription;
  r_polling : bool;         (* suspended in the [while] loop *)
}.

Inductive Task : Set :=
| TDispatch (k : nat)   (* resumes dispatcher run [k] after its 200 wait *)
| TPoll (k : nat).      (* resumes results run [k] inside its loop *)

#[global] Instance Task_eq_dec : EqDecision Task.
Proof. solve_decision. Defined.

(** ** The state of one binding and of its surroundings *)

Record State : Type := {
  st_now : nat;
  st_input : Input;                              (* the [input] writable *)
  st_compilationStatus : option CompilerState.t; (* [$compilationStatus?.state] *)
  st_jobs : gmap nat Job;                        (* the shared registry object *)
  st_timers : list (nat * Task);                 (* due time, oldest first *)
  st_dispatchRuns : list DispatchRun;
  st_dispatchCleanup : option nat;               (* the dispatcher's [cleanup] *)
  st_jobIdAndMeta : option Published;
  st_selectedJobId : option nat;
  st_resultsRuns : list ResultsRun;
  st_resultsCleanup : option nat;                (* the results store's [cleanup] *)
  st_results : Results;                          (* value of the results store *)
  (* what the binding did, oldest first *)
  st_submitted : list (nat * Input);             (* [api.analysis] calls: run, json *)
  st_aborted : list nat;                         (* [abort()] calls, by run *)
  st_jobsCancel : list nat;                      (* [api.jobsCancel] calls *)
  st_emitted : list (nat * Results);             (* [set] calls on results *)
  st_uncaught : list Uncaught;
}.

Definition with_now (t : nat) (s : State) : State :=
  {| st_now := t; st_input := st_input s;
     st_compilationStatus := st_compilationStatus s; st_jobs := st_jobs s;
     st_timers := st_timers s; st_dispatchRuns := st_dispatchRuns s;
     st_dispatchCleanup := st_dispatchCleanup s;
     st_jobIdAndMeta := st_jobIdAndMeta s;
     st_selectedJobId := st_selectedJobId s;
     st_resultsRuns := st_resultsRuns s;
     st_resultsCleanup := st_resultsCleanup s; st_results := st_results s;
     st_submitted := st_submitted s; st_aborted := st_aborted s;
     st_jobsCancel := st_jobsCancel s; st_emitted := st_emitted s;
     st_uncaught := st_uncaught s |}.

Definition with_input (v : Input) (s : State) : State :=
  {| st_now := st_now s; st_input := v;
     st_compilationStatus := st_compilationStatus s; st_jobs := st_jobs s;
     st_timers := st_timers s; st_dispatchRuns := st_dispatchRuns s;
     st_dispatchCleanup := st_dispatchCleanup s;
     st_jobIdAndMeta := st_jobIdAndMeta s;
     st_selectedJobId := st_selectedJobId s;
     st_resultsRuns := st_resultsRuns s;
     st_resultsCleanup := st_resultsCleanup s; st_results := st_results s;
     st_submitted := st_submitted s; st_aborted := st_aborted s;
     st_jobsCancel := st_jobsCancel s; st_emitted := st_emitted s;
     st_uncaught := st_uncaught s |}.

Definition with_compilationStatus (c : option CompilerState.t) (s : State) : State :=
  {| st_now := st_now s; st_input := st_input s;
     st_compilationStatus := c; st_jobs := st_jobs s;
     st_timers := st_timers s; st_dispatchRuns := st_dispatchRuns s;
     st_dispatchCleanup := st_dispatchCleanup s;
     st_jobIdAndMeta := st_jobIdAndMeta s;
     st_selectedJobId := st_selectedJobId s;
     st_resultsRuns := st_resultsRuns s;
     st_resultsCleanup := st_resultsCleanup s; st_results := st_results s;
     st_submitted := st_submitted s; st_aborted := st_aborted s;
     st_jobsCancel := st_jobsCancel s; st_emitted := st_emitted s;
     st_uncaught := st_uncaught s |}.

Definition with_jobs (m : gmap nat Job) (s : State) : State :=
  {| st_now := st_now s; st_input := st_input s;
     st_compilationStatus := st_compilationStatus s; st_jobs := m;
     st_timers := st_timers s; st_dispatchRuns := st_dispatchRuns s;
     st_dispatchCleanup := st_dispatchCleanup s;
     st_jobIdAndMeta := st_jobIdAndMeta s;
     st_selectedJobId := st_selectedJobId s;
     st_resultsRuns := st_resultsRuns s;
     st_resultsCleanup := st_resultsCleanup s; st_results := st_results s;
     st_submitted := st_submitted s; st_aborted := st_aborted s;
     st_jobsCancel := st_jobsCancel s; st_emitted := st_emitted s;
     st_uncaught := st_uncaught s |}.

Definition with_timers (l : list (nat * Task)) (s : State) : State :=
  {| st_now := st_now s; st_input := st_input s;
     st_compilationStatus := st_compilationStatus s; st_jobs := st_jobs s;
     st_timers := l; st_dispatchRuns := st_dispatchRuns s;
     st_dispatchCleanup := st_dispatchCleanup s;
     st_jobIdAndMeta := st_jobIdAndMeta s;
     st_selectedJobId := st_selectedJobId s;
     st_resultsRuns := st_resultsRuns s;
     st_resultsCleanup := st_resultsCleanup s; st_results := st_results s;
     st_submitted := st_submitted s; st_aborted := st_aborted s;
     st_jobsCancel := st_jobsCancel s; st_emitted := st_emitted s;
     st_uncaught := st_uncaught s |}.

Definition with_dispatchRuns (l : list DispatchRun) (s : State) : State :=
  {| st_now := st_now s; st_input := st_input s;
     st_compilationStatus := st_compilationStatus s; st_jobs := st_jobs s;
     st_timers := st_timers s; st_dispatchRuns := l;
     st_dispatchCleanup := st_dispatchCleanup s;
     st_jobIdAndMeta := st_jobIdAndMeta s;
     st_selectedJobId := st_selectedJobId s;
     st_resultsRuns := st_resultsRuns s;
     st_resultsCleanup := st_resultsCleanup s; st_results := st_results s;
     st_submitted := st_submitted s; st_aborted := st_aborted s;
     st_jobsCancel := st_jobsCancel s; st_emitted := st_emitted s;
     st_uncaught := st_uncaught s |}.

Definition with_dispatchCleanup (c : option nat) (s : State) : State :=
  {| st_now := st_now s; st_input := st_input s;
     st_compilationStatus := st_compilationStatus s; st_jobs := st_jobs s;
     st_timers := st_timers s; st_dispatchRuns := st_dispatchRuns s;
     st_dispatchCleanup := c;
     st_jobIdAndMeta := st_jobIdAndMeta s;
     st_selectedJobId := st_selectedJobId s;
     st_resultsRuns := st_resultsRuns s;
     st_resultsCleanup := st_resultsCleanup s; st_results := st_results s;
     st_submitted := st_submitted s; st_aborted := st_aborted s;
     st_jobsCancel := st_jobsCancel s; st_emitted := st_emitted s;
     st_uncaught := st_uncaught s |}.

Definition with_published (p : Published) (s : State) : State :=
  {| st_now := st_now s; st_input := st_input s;
     st_compilationStatus := st_compilationStatus s; st_jobs := st_jobs s;
     st_timers := st_timers s; st_dispatchRuns := st_dispatchRuns s;
     st_dispatchCleanup := st_dispatchCleanup s;
     st_jobIdAndMeta := Some p;
     st_selectedJobId := Some (p_jobId p);
     st_resultsRuns := st_resultsRuns s;
     st_resultsCleanup := st_resultsCleanup s; st_results := st_results s;
     st_submitted := st_submitted s; st_aborted := st_aborted s;
     st_jobsCancel := st_jobsCancel s; st_emitted := st_emitted s;
     st_uncaught := st_uncaught s |}.

Definition with_resultsRuns (l : list ResultsRun) (s : State) : State :=
  {| st_now := st_now s; st_input := st_input s;
     st_compilationStatus := st_compilationStatus s; st_jobs := st_jobs s;
     st_timers := st_timers s; st_dispatchRuns := st_dispatchRuns s;
     st_dispatchCleanup := st_dispatchCleanup s;
     st_jobIdAndMeta := st_jobIdAndMeta s;
     st_selectedJobId := st_selectedJobId s;
     st_resultsRuns := l;
     st_resultsCleanup := st_resultsCleanup s; st_results := st_results s;
     st_submitted := st_submitted s; st_aborted := st_aborted s;
     st_jobsCancel := st_jobsCancel s; st_emitted := st_emitted s;
     st_uncaught := st_uncaught s |}.

Definition with_resultsCleanup (c : option nat) (s : State) : State :=
  {| st_now := st_now s; st_input := st_input s;
     st_compilationStatus := st_compilationStatus s; st_jobs := st_jobs s;
     st_timers := st_timers s; st_dispatchRuns := st_dispatchRuns s;
     st_dispatchCleanup := st_dispatchCleanup s;
     st_jobIdAndMeta := st_jobIdAndMeta s;
     st_selectedJobId := st_selectedJobId s;
     st_resultsRuns := st_resultsRuns s;
     st_resultsCleanup := c; st_results := st_results s;
     st_submitted := st_submitted s; st_aborted := st_aborted s;
     st_jobsCancel := st_jobsCancel s; st_emitted := st_emitted s;
     st_uncaught := st_uncaught s |}.

(** [set(r)] on the results store, called by the run of generation [g]. *)
Definition emit (g : nat) (r : Results) (s : State) : State :=
  {| st_now := st_now s; st_input := st_input s;
     st_compilationStatus := st_compilationStatus s; st_jobs := st_jobs s;
     st_timers := st_timers s; st_dispatchRuns := st_dispatchRuns s;
     st_dispatchCleanup := st_dispatchCleanup s;
     st_jobIdAndMeta := st_jobIdAndMeta s;
     st_selectedJobId := st_selectedJobId s;
     st_resultsRuns := st_resultsRuns s;
     st_resultsCleanup := st_resultsCleanup s; st_results := r;
     st_submitted := st_submitted s; st_aborted := st_aborted s;
     st_jobsCancel := st_jobsCancel s; st_emitted := st_emitted s ++ [(g, r)];
     st_uncaught := st_uncaught s |}.

Definition log_submitted (k : nat) (v : Input) (s : State) : State :=
  {| st_now := st_now s; st_input := st_input s;
     st_compilationStatus := st_compilationStatus s; st_jobs := st_jobs s;
     st_timers := st_timers s; st_dispatchRuns := st_dispatchRuns s;
     st_dispatchCleanup := st_dispatchCleanup s;
     st_jobIdAndMeta := st_jobIdAndMeta s;
     st_selectedJobId := st_selectedJobId s;
     st_resultsRuns := st_resultsRuns s;
     st_resultsCleanup := st_resultsCleanup s; st_results := st_results s;
     st_submitted := st_submitted s ++ [(k, v)]; st_aborted := st_aborted s;
     st_jobsCancel := st_jobsCancel s; st_emitted := st_emitted s;
     st_uncaught := st_uncaught s |}.

Definition log_aborted (k : nat) (s : State) : State :=
  {| st_now := st_now s; st_input := st_input s;
     st_compilationStatus := st_compilationStatus s; st_jobs := st_jobs s;
     st_timers := st_timers s; st_dispatchRuns := st_dispatchRuns s;
     st_dispatchCleanup := st_dispatchCleanup s;
     st_jobIdAndMeta := st_jobIdAndMeta s;
     st_selectedJobId := st_selectedJobId s;
     st_resultsRuns := st_resultsRuns s;
     st_resultsCleanup := st_resultsCleanup s; st_results := st_results s;
     st_submitted := st_submitted s; st_aborted := st_aborted s ++ [k];
     st_jobsCancel := st_jobsCancel s; st_emitted := st_emitted s;
     st_uncaught := st_uncaught s |}.

Definition log_jobsCancel (id : nat) (s : State) : State :=
  {| st_now := st_now s; st_input := st_input s;
     st_compilationStatus := st_compilationStatus s; st_jobs := st_jobs s;
     st_timers := st_timers s; st_dispatchRuns := st_dispatchRuns s;
     st_dispatchCleanup := st_dispatchCleanup s;
     st_jobIdAndMeta := st_jobIdAndMeta s;
     st_selectedJobId := st_selectedJobId s;
     st_resultsRuns := st_resultsRuns s;
     st_resultsCleanup := st_resultsCleanup s; st_results := st_results s;
     st_submitted := st_submitted s; st_aborted := st_aborted s;
     st_jobsCancel := st_jobsCancel s ++ [id]; st_emitted := st_emitted s;
     st_uncaught := st_uncaught s |}.

Definition log_uncaught (e : Uncaught) (s : State) : State :=
  {| st_now := st_now s; st_input := st_input s;
     st_compilationStatus := st_compilationStatus s; st_jobs := st_jobs s;
     st_timers := st_timers s; st_dispatchRuns := st_dispatchRuns s;
     st_dispatchCleanup := st_dispatchCleanup s;
     st_jobIdAndMeta := st_jobIdAndMeta s;
     st_selectedJobId := st_selectedJobId s;
     st_resultsRuns := st_resultsRuns s;
     st_resultsCleanup := st_resultsCleanup s; st_results := st_results s;
     st_submitted := st_submitted s; st_aborted := st_aborted s;
     st_jobsCancel := st_jobsCancel s; st_emitted := st_emitted s;
     st_uncaught := st_uncaught s ++ [e] |}.

(** ** Timers *)

(** [setTimeout(resolve, 200)] *)
Definition quiet : nat := 200.

Definition setTimeout (task : Task) (s : State) : State :=
  with_timers (st_timers s ++ [(st_now s + quiet, task)]) s.

(** ** The dispatcher: [jobIdAndMetaDerived] (app), [jobIdDerived] (earlier) *)

Definition update_dispatchRun (k : nat) (f : DispatchRun → DispatchRun) (s : State) : State :=
  with_dispatchRuns (alter f k (st_dispatchRuns s)) s.

Definition d_set_stop (r : DispatchRun) : DispatchRun :=
  {| d_input := d_input r; d_stop := true; d_cancel := d_cancel r;
     d_at := d_at r; d_jobId := d_jobId r |}.

Definition d_set_at (a : Await) (r : DispatchRun) : DispatchRun :=
  {| d_input := d_input r; d_stop := d_stop r; d_cancel := d_cancel r;
     d_at := a; d_jobId := d_jobId r |}.

Definition d_requested (c : Cancel) (r : DispatchRun) : DispatchRun :=
  {| d_input := d_input r; d_stop := d_stop r; d_cancel := c;
     d_at := await_request; d_jobId := d_jobId r |}.

Definition d_resolved (c : Cancel) (jobId : nat) (r : DispatchRun) : DispatchRun :=
  {| d_input := d_input r; d_stop := d_stop r; d_cancel := c;
     d_at := settled; d_jobId := Some jobId |}.

(** Modelled from the spec: [analysisRequest.abort()] of the api module,
    which is not part of the sources at hand.  The submission is
    "cancellable (abortable) before it resolves": aborting a request that
    is still awaited ends the run that awaits it; aborting a settled one
    does nothing. *)
Definition abort (k : nat) (s : State) : State :=
  let s1 := log_aborted k s in
  match st_dispatchRuns s !! k with
  | Some r =>
      match d_at r with
      | await_request => update_dispatchRun k (d_set_at settled) s1
      | _ => s1
      end
  | None => s1
  end.

(** Calling the [cancel] variable of dispatcher run [k].  The boolean tells
    whether the call threw.  The earlier variant's closure reads [jobId],
    which the [const] on the line after it declares: until the awaited
    request has resolved that binding is uninitialised and the read raises
    a ReferenceError, after [abort()] has been called. *)
Definition dispatch_cancel (k : nat) (s : State) : State * bool :=
  match st_dispatchRuns s !! k with
  | None => (s, false)
  | Some r =>
      match d_cancel r with
      | cancel_noop => (s, false)
      | cancel_abort => (abort k s, false)
      | cancel_jobsCancel jobId => (log_jobsCancel jobId s, false)
      | cancel_abort_jobsCancel =>
          match d_jobId r with
          | Some jobId => (log_jobsCancel jobId (abort k s), false)
          | None => (log_uncaught ReferenceError (abort k s), true)
          end
      end
  end.

(** The dispatcher's registered cleanup (io.ts l.65-68, earlier l.58-61):
    [() => { stop = true; cancel(); }] of the latest callback invocation,
    or nothing when that invocation returned early. *)
Definition dispatch_cleanup (s : State) : State * bool :=
  match st_dispatchCleanup s with
  | None => (s, false)
  | Some k => dispatch_cancel k (update_dispatchRun k d_set_stop s)
  end.

Definition compilation_succeeded (s : State) : bool :=
  match st_compilationStatus s with
  | Some c => CompilerState.is_succeeded c
  | None => false
  end.

(** The guards in front of [run()]: [if (!browser) return;] and, in the app
    variant, [if ($compilationStatus?.state != 'Succeeded') return;]. *)
Definition dispatch_guard (cfg : Config) (s : State) : bool :=
  browser cfg &&
  match variant cfg with
  | InspectifyApp => compilation_succeeded s
  | Earlier => true
  end.

(** The callback of the dispatcher store (io.ts l.38-69, earlier variant
    l.35-62), up to the first [await] of [run()]: the guards, the closure
    variables [cancel] and [stop], the 200 timer, and the cleanup it
    returns. *)
Definition jobIdAndMetaDerived (cfg : Config) (s : State) : State :=
  if dispatch_guard cfg s then
    let k := length (st_dispatchRuns s) in
    let r := {| d_input := st_input s; d_stop := false;
                d_cancel := cancel_noop; d_at := await_timer;
                d_jobId := None |} in
    with_dispatchCleanup (Some k)
      (setTimeout (TDispatch k) (with_dispatchRuns (st_dispatchRuns s ++ [r]) s))
  else with_dispatchCleanup None s.

(** A dependency of the dispatcher store notified: the store calls
    [cleanup()] and then the callback.  An exception thrown by the cleanup
    leaves the callback uncalled and the old cleanup registered; it leaves
    the [set] that notified, too, with the subscriber queue not emptied, so
    that this is the last notification any store delivers (see [stuck] and
    [step]). *)
Definition dispatch_sync (cfg : Config) (s : State) : State :=
  let (s1, threw) := dispatch_cleanup s in
  if threw then s1 else jobIdAndMetaDerived cfg s1.

(** [run()] resumed by its timer (io.ts l.48-54, earlier l.43-50):
    [if (stop) return;], then [api.analysis({ analysis, json: $input })] is
    called and [cancel] is replaced. *)
Definition dispatch_timer (cfg : Config) (k : nat) (s : State) : State :=
  match st_dispatchRuns s !! k with
  | None => s
  | Some r =>
      if d_stop r then update_dispatchRun k (d_set_at settled) s
      else
        let c := match variant cfg with
                 | InspectifyApp => cancel_abort
                 | Earlier => cancel_abort_jobsCancel
                 end in
        update_dispatchRun k (d_requested c) (log_submitted k (d_input r) s)
  end.

(** ** The projector: [results] *)

Definition update_resultsRun (k : nat) (f : ResultsRun → ResultsRun) (s : State) : State :=
  with_resultsRuns (alter f k (st_resultsRuns s)) s.

Definition r_set_stop (r : ResultsRun) : ResultsRun :=
  {| r_gen := r_gen r; r_jobId := r_jobId r; r_cachedInput := r_cachedInput r;
     r_stop := true; r_sub := r_sub r; r_polling := r_polling r |}.

Definition r_set_sub (b : Subscription) (r : ResultsRun) : ResultsRun :=
  {| r_gen := r_gen r; r_jobId := r_jobId r; r_cachedInput := r_cachedInput r;
     r_stop := r_stop r; r_sub := b; r_polling := false |}.

Definition r_set_polling (b : bool) (r : ResultsRun) : ResultsRun :=
  {| r_gen := r_gen r; r_jobId := r_jobId r; r_cachedInput := r_cachedInput r;
     r_stop := r_stop r; r_sub := r_sub r; r_polling := b |}.

(** Calling the [cancel] variable of a results run. *)
Definition r_cancel (r : ResultsRun) : ResultsRun :=
  match r_sub r with
  | subscribed => r_set_sub unsubscribed r
  | _ => r
  end.

(** The results store's registered cleanup (io.ts l.135-138, earlier
    l.108-111): [() => { stop = true; cancel(); }]. *)
Definition results_cleanup (s : State) : State :=
  match st_resultsCleanup s with
  | None => s
  | Some k => update_resultsRun k (λ r, r_cancel (r_set_stop r)) s
  end.

(** The literal that [run()] sets first (io.ts l.93-99, earlier l.79-85). *)
Definition placeholder (cfg : Config) (jobId : nat) : Results :=
  {| input := Undefined;
     outputState := OutputState.None;
     output := Null;
     referenceOutput := Null;
     validation := Null;
     job := match variant cfg with InspectifyApp => Null | Earlier => Undefined end;
     latestJobId := match variant cfg with InspectifyApp => Undefined | Earlier => Val jobId end |}.

(** The initial value of the results store (io.ts l.140-146, earlier
    l.113-119). *)
Definition initial_results (cfg : Config) : Results :=
  {| input := Undefined;
     outputState := OutputState.None;
     output := Null;
     referenceOutput := Null;
     validation := Null;
     job := match variant cfg with InspectifyApp => Null | Earlier => Undefined end;
     latestJobId := match variant cfg with InspectifyApp => Undefined | Earlier => Null end |}.

(** The literal set when the record's state is ['Succeeded'] (io.ts
    l.110-118, earlier l.95-101).  The three fields read from the record
    are passed on as they are found there, [null] and [undefined]
    included. *)
Definition succeeded_results (cfg : Config) (r : ResultsRun) (j : Job) : Results :=
  {| input := match variant cfg with InspectifyApp => Val (r_cachedInput r) | Earlier => Undefined end;
     outputState := OutputState.Current;
     output := chain ad_output (analysis_data j);
     referenceOutput := chain ad_reference_output (analysis_data j);
     validation := jsval_map Remote (chain ad_validation (analysis_data j));
     job := match variant cfg with InspectifyApp => Val (r_jobId r) | Earlier => Undefined end;
     latestJobId := match variant cfg with InspectifyApp => Undefined | Earlier => Val (r_jobId r) end |}.

(** The literal set when the record's state is ['Failed'] (io.ts
    l.121-128; the earlier variant has none). *)
Definition failed_results (r : ResultsRun) (j : Job) : Results :=
  {| input := Val (r_cachedInput r);
     outputState := OutputState.Current;
     output := Null;
     referenceOutput := Null;
     validation := Val (Failure (stdout j));
     job := Val (r_jobId r);
     latestJobId := Undefined |}.

(** The subscriber passed to [job.subscribe]: what it sets, if anything.
    The app variant switches on ['Succeeded'] and ['Failed']; the earlier
    one tests ['Succeeded'] only. *)
Definition job_subscriber (cfg : Config) (r : ResultsRun) (j : Job) : option Results :=
  match state j with
  | JobState.Succeeded => Some (succeeded_results cfg r j)
  | JobState.Failed =>
      match variant cfg with
      | InspectifyApp => Some (failed_results r j)
      | Earlier => None
      end
  | _ => None
  end.

Definition emit_opt (g : nat) (o : option Results) (s : State) : State :=
  match o with
  | Some r => emit g r s
  | None => s
  end.

(** [run()] of the results callback from [let job = $jobs[$jobId]] on
    (io.ts l.101-130, earlier l.87-103); also what its timer resumes.
    [$jobs] is the shared registry object, so each read sees the registry
    as it is then.  When the loop is left because [stop] is set, [job] is
    still [undefined] and [job.subscribe] throws.  [job.subscribe] calls
    the subscriber at once with the record's value. *)
Definition results_poll (cfg : Config) (k : nat) (s : State) : State :=
  match st_resultsRuns s !! k with
  | None => s
  | Some r =>
      if r_stop r then
        log_uncaught TypeError (update_resultsRun k (r_set_polling false) s)
      else
        match st_jobs s !! r_jobId r with
        | Some j =>
            update_resultsRun k (r_set_sub subscribed)
              (emit_opt (r_gen r) (job_subscriber cfg r j) s)
        | None =>
            setTimeout (TPoll k) (update_resultsRun k (r_set_polling true) s)
        end
  end.

(** The closure variables of a results run as the callback creates them:
    [let cancel = () => {}; let stop = false;]. *)
Definition new_resultsRun (p : Published) : ResultsRun :=
  {| r_gen := p_gen p; r_jobId := p_jobId p; r_cachedInput := p_input p;
     r_stop := false; r_sub := no_subscription; r_polling := false |}.

(** The callback of the results store (io.ts l.86-139, earlier l.72-112):
    [if (typeof $jobId != 'number' || !$cachedInput) return;] (the earlier
    variant tests [$jobId] only; an input is an object, never falsy), then
    [run()] up to its first [await]. *)
Definition results (cfg : Config) (s : State) : State :=
  match st_jobIdAndMeta s with
  | None => with_resultsCleanup None s
  | Some p =>
      let k := length (st_resultsRuns s) in
      with_resultsCleanup (Some k)
        (results_poll cfg k
           (emit (p_gen p) (placeholder cfg (p_jobId p))
              (with_resultsRuns (st_resultsRuns s ++ [new_resultsRun p]) s)))
  end.

(** A dependency of the results store notified. *)
Definition results_sync (cfg : Config) (s : State) : State :=
  results cfg (results_cleanup s).

(** The awaited request of dispatcher run [k] resolved (io.ts l.55-60,
    earlier l.51-53): [cancel] is replaced (app) or [jobId] initialised
    (earlier), and [set] is called.  The response and the continuation of
    the [await] are one step.  The app variant sets an object, so its
    dependants always notify, and [jobIdDerived] and [cachedInput] reach
    the results store together; the earlier variant sets a number, which
    notifies only when it changed.  A response is awaited only by a run
    whose cleanup has not been called, and the cleanup that throws has
    aborted its request before: no [set] is made here once the subscriber
    queue is blocked ([stuck_awaits_nothing]). *)
Definition dispatch_resolved (cfg : Config) (k jobId : nat) (meta : Meta) (s : State) : State :=
  match st_dispatchRuns s !! k with
  | None => s
  | Some r =>
      match d_at r with
      | await_request =>
          let p := {| p_gen := k; p_jobId := jobId; p_input := d_input r;
                      p_meta := meta |} in
          match variant cfg with
          | InspectifyApp =>
              results_sync cfg
                (with_published p
                   (update_dispatchRun k (d_resolved (cancel_jobsCancel jobId) jobId) s))
          | Earlier =>
              let s1 := update_dispatchRun k (d_resolved (d_cancel r) jobId) s in
              if decide (p_jobId <$> st_jobIdAndMeta s = Some jobId) then s1
              else results_sync cfg (with_published p s1)
          end
      | _ => s
      end
  end.

(** The awaited request rejected: the [await] throws inside [run()], which
    has no [try], and [run()] is called without a [catch] (io.ts l.63,
    earlier l.56). *)
Definition dispatch_rejected (k : nat) (message : string) (s : State) : State :=
  match st_dispatchRuns s !! k with
  | None => s
  | Some r =>
      match d_at r with
      | await_request =>
          log_uncaught (Rejected message) (update_dispatchRun k (d_set_at settled) s)
      | _ => s
      end
  end.

(** The subscriber queue of the store library.  [set] stores the value,
    appends the subscribers of its store to the one [subscriber_queue] all
    stores share and, when it found the queue empty, calls what is queued
    and empties the queue.  An exception thrown by a subscriber leaves
    [set] before the queue is emptied: every later [set], of whichever
    store, finds the queue non-empty, stores its value and calls nobody.
    The one exception thrown from inside a subscriber is the
    ReferenceError of the earlier variant's cleanup ([dispatch_cancel]);
    what is thrown inside an [async run] rejects its promise instead, and
    a timer's callback and the first call [subscribe] makes do not go
    through the queue. *)
Definition stuck (s : State) : bool :=
  bool_decide (ReferenceError ∈ st_uncaught s).

(** A store has been set, and its subscribers do [f] when called. *)
Definition run_queue (f : State → State) (s : State) : State :=
  if stuck s then s else f s.
#[local] Arguments run_queue : simpl never.

(** A subscriber of record [id] is called with the new value [j]. *)
Definition notify_run (cfg : Config) (id : nat) (j : Job) (s : State) (r : ResultsRun) : State :=
  match r_sub r with
  | subscribed =>
      if decide (r_jobId r = id) then
        emit_opt (r_gen r) (job_subscriber cfg r j) s
      else s
  | _ => s
  end.

(** The store of record [id] is set: its subscribers are called. *)
Definition notify_record (cfg : Config) (id : nat) (j : Job) (s : State) : State :=
  foldl (notify_run cfg id j) s (st_resultsRuns s).

(** Modelled from the spec: the consumer of the push event stream (the
    events module, which is not part of the sources at hand).  "The Job
    Registry Adapter's underlying map of JobId to JobRecord is shared
    across all binding instances and mutated only by the external
    event-stream consumer": a record is written into the shared map in
    place, and the subscribers of that record are told, through the
    queue.  Whether [jobsStore] itself is set then is left to the
    surroundings: that is the separate event [JobsEmit]. *)
Definition record_written (cfg : Config) (id : nat) (j : Job) (s : State) : State :=
  run_queue (notify_record cfg id j) (with_jobs (<[id := j]> (st_jobs s)) s).
#[local] Arguments record_written _ _ _ _ /.

(** ** The event loop *)

Definition fire (cfg : Config) (task : Task) (s : State) : State :=
  match task with
  | TDispatch k => dispatch_timer cfg k s
  | TPoll k => results_poll cfg k s
  end.

(** Time passes up to [t]; due timers fire oldest first, each at its due
    time. *)
Fixpoint advance (cfg : Config) (fuel t : nat) (s : State) : State :=
  match st_timers s with
  | (due, task) :: rest =>
      if decide (due ≤ t) then
        match fuel with
        | O => s
        | S fuel' => advance cfg fuel' t (fire cfg task (with_now due (with_timers rest s)))
        end
      else with_now t s
  | [] => with_now t s
  end.

(** An upper bound on the number of timers that fire up to [t]: a timer
    due at [d ≤ t] fires, and may be set again 200 later. *)
Fixpoint due_count (t : nat) (l : list (nat * Task)) : nat :=
  match l with
  | [] => 0
  | e :: l => (if decide (e.1 ≤ t) then S ((t - e.1) / quiet) else 0) + due_count t l
  end.

Inductive Event : Type :=
| Wait (d : nat)                           (* [d] time units pass *)
| InputSet (v : Input)                     (* [input.set(v)]: an edit, or [generate] *)
| StatusSet (c : option CompilerState.t)   (* [compilationStatusStore] sets *)
| AnalysisResolve (k jobId : nat) (meta : Meta)  (* request of run [k] answered *)
| AnalysisReject (k : nat) (message : string)    (* request of run [k] failed *)
| RecordSet (id : nat) (j : Job)           (* the registry's record [id] is written *)
| JobsEmit.                                (* [jobsStore] is set *)

(** One event.  A [set] from outside ([InputSet], [StatusSet],
    [RecordSet], [JobsEmit]) reaches the subscribers through the queue;
    the timers do not. *)
Definition step (cfg : Config) (s : State) (e : Event) : State :=
  match e with
  | Wait d => advance cfg (due_count (st_now s + d) (st_timers s)) (st_now s + d) s
  | InputSet v => run_queue (dispatch_sync cfg) (with_input v s)
  | StatusSet c =>
      match variant cfg with
      | InspectifyApp => run_queue (dispatch_sync cfg) (with_compilationStatus c s)
      | Earlier => with_compilationStatus c s
      end
  | AnalysisResolve k jobId meta => dispatch_resolved cfg k jobId meta s
  | AnalysisReject k message => dispatch_rejected k message s
  | RecordSet id j => record_written cfg id j s
  | JobsEmit => run_queue (results_sync cfg) s
  end.

Definition run (cfg : Config) (s : State) (es : list Event) : State :=
  foldl (step cfg) s es.

(** [initializeIo(analysis, defaultInput)]: the stores are created and
    subscribed, so each callback runs once. *)
Definition initializeIo (cfg : Config) (defaultInput : Input)
    (status : option CompilerState.t) (registry : gmap nat Job) : State :=
  results_sync cfg
    (jobIdAndMetaDerived cfg
       {| st_now := 0; st_input := defaultInput;
          st_compilationStatus := status; st_jobs := registry;
          st_timers := []; st_dispatchRuns := [];
          st_dispatchCleanup := None; st_jobIdAndMeta := None;
          st_selectedJobId := None; st_resultsRuns := [];
          st_resultsCleanup := None; st_results := initial_results cfg;
          st_submitted := []; st_aborted := []; st_jobsCancel := [];
          st_emitted := []; st_uncaught := [] |}).

(** [generate] (io.ts l.149-153, earlier l.122-126), from the answer of
    [api.generate] on: [input.set(result.json); return result.json].  The
    second component is what the promise of [generate()] resolves to.
    [initializeIo] calls it once, in the browser. *)
Definition generate (cfg : Config) (result : Input) (s : State) : State * Input :=
  (step cfg s (InputSet result), result).

(** A burst of writes: a first write, then further writes each a delay
    after the one before, then one quiet period without a write. *)
Fixpoint writes (rest : list (nat * Input)) : list Event :=
  match rest with
  | [] => []
  | (d, w) :: rest => Wait d :: InputSet w :: writes rest
  end.

Definition burst (v : Input) (rest : list (nat * Input)) : list Event :=
  InputSet v :: writes rest ++ [Wait quiet].

Fixpoint last_written (v : Input) (rest : list (nat * Input)) : Input :=
  match rest with
  | [] => v
  | (_, w) :: rest => last_written w rest
  end.

(** ** [useIo]: one binding for each analysis *)

Context {Analysis : Type} {Analysis_eq_dec : EqDecision Analysis}
  {Analysis_countable : Countable Analysis}.

(** The module-level object [ios], and the calls of [initializeIo] made so
    far, oldest first.  An [Io] is a bundle of stores; it is named here by
    the position of the call that made it. *)
Record Bindings : Type := {
  ios : gmap Analysis nat;
  initialized : list (Analysis * Input);
}.

(** [const ios = {}] *)
Definition no_bindings : Bindings := {| ios := ∅; initialized := [] |}.

(** [useIo(analysis, defaultInput)]:
    [if (!ios[analysis]) ios[analysis] = initializeIo(analysis, defaultInput);
     return ios[analysis]].  An [Io] is an object, so [!ios[analysis]] holds
    exactly when the key is absent. *)
Definition useIo (analysis : Analysis) (defaultInput : Input) (b : Bindings) : Bindings * nat :=
  match ios b !! analysis with
  | Some io => (b, io)
  | None =>
      let io := length (initialized b) in
      ({| ios := <[analysis := io]> (ios b);
          initialized := initialized b ++ [(analysis, defaultInput)] |}, io)
  end.

(** A sequence of [useIo] calls, as the components of the page make them. *)
Definition useIos (calls : list (Analysis * Input)) (b : Bindings) : Bindings :=
  foldl (λ b c, (useIo c.1 c.2 b).1) b calls.

(** The table and the calls agree. *)
Definition BInv (b : Bindings) : Prop :=
  NoDup (initialized b).*1 ∧
  ∀ a io, ios b !! a = Some io ↔ ∃ v, initialized b !! io = Some (a, v).

(** ** Reachable states *)

Inductive reachable (cfg : Config) : State → Prop :=
| reachable_init defaultInput status registry :
    reachable cfg (initializeIo cfg defaultInput status registry)
| reachable_step s e :
    reachable cfg s → reachable cfg (step cfg s e).

(** A results value that is not stale-in-flight. *)
Definition none_or_current (x : Results) : Prop :=
  outputState x = OutputState.None ∨ outputState x = OutputState.Current.

Definition never_stale (s : State) : Prop :=
  Forall (λ e, none_or_current e.2) (st_emitted s) ∧ none_or_current (st_results s).

(** ** Invariants of the reachable states *)

(** The timer queue: ordered by due time, nothing overdue, nothing further
    than one quiet period away, one timer per suspended run. *)
Record TInv (s : State) : Prop := {
  tinv_sorted : ∀ i j a b,
    i ≤ j → st_timers s !! i = Some a → st_timers s !! j = Some b → a.1 ≤ b.1;
  tinv_bounds : ∀ e, e ∈ st_timers s → st_now s ≤ e.1 ≤ st_now s + quiet;
  tinv_nodup : NoDup (st_timers s).*2;
  tinv_dispatch : ∀ due k,
    (due, TDispatch k) ∈ st_timers s →
    ∃ r, st_dispatchRuns s !! k = Some r ∧ d_at r = await_timer;
  tinv_poll : ∀ due k,
    (due, TPoll k) ∈ st_timers s → k < length (st_resultsRuns s);
}.

(** The dispatcher: a run that has neither been stopped nor settled is the
    one whose cleanup is registered, and that one is the latest run. *)
Record DInv (cfg : Config) (s : State) : Prop := {
  dinv_last : ∀ k,
    st_dispatchCleanup s = Some k → S k = length (st_dispatchRuns s);
  dinv_live : ∀ k r,
    st_dispatchRuns s !! k = Some r → d_stop r = false → d_at r ≠ settled →
    st_dispatchCleanup s = Some k;
  dinv_request : ∀ k r,
    st_dispatchRuns s !! k = Some r → d_at r = await_request → d_stop r = false;
  dinv_cancel : ∀ k r,
    st_dispatchRuns s !! k = Some r →
    match d_at r with
    | await_timer => d_cancel r = cancel_noop
    | await_request => d_cancel r = cancel_abort ∨ d_cancel r = cancel_abort_jobsCancel
    | settled => True
    end;
  dinv_app : variant cfg = InspectifyApp → ∀ k r,
    st_dispatchRuns s !! k = Some r → d_cancel r ≠ cancel_abort_jobsCancel;
  dinv_submitted : ∀ k r,
    st_dispatchRuns s !! k = Some r → d_cancel r ≠ cancel_noop →
    (k, d_input r) ∈ st_submitted s;
  dinv_published : ∀ p,
    st_jobIdAndMeta s = Some p →
    p_gen p < length (st_dispatchRuns s) ∧ (p_gen p, p_input p) ∈ st_submitted s;
}.

(** A run still on its way captured the input the cell holds now, and was
    started with the guards passed. *)
Definition DLive (cfg : Config) (s : State) : Prop :=
  ∀ k r,
    st_dispatchRuns s !! k = Some r → d_stop r = false → d_at r ≠ settled →
    d_input r = st_input s ∧ (d_at r = await_timer → dispatch_guard cfg s = true).

(** No run of the dispatcher is on its way. *)
Definition quiesced (s : State) : Prop :=
  ∀ k r, st_dispatchRuns s !! k = Some r → d_stop r = true ∨ d_at r = settled.

(** The projector: a run that has not been stopped is the one whose cleanup
    is registered, and it was called with the value the dispatcher store
    holds. *)
Record RInv (s : State) : Prop := {
  rinv_last : ∀ k,
    st_resultsCleanup s = Some k → k < length (st_resultsRuns s);
  rinv_live : ∀ k r,
    st_resultsRuns s !! k = Some r → r_stop r = false →
    st_resultsCleanup s = Some k ∧
    ∃ p, st_jobIdAndMeta s = Some p ∧ r_gen r = p_gen p ∧
         r_jobId r = p_jobId p ∧ r_cachedInput r = p_input p;
  rinv_sub : ∀ k r,
    st_resultsRuns s !! k = Some r → r_sub r = subscribed → r_stop r = false;
  rinv_gen : ∀ k r,
    st_resultsRuns s !! k = Some r → (r_gen r, r_cachedInput r) ∈ st_submitted s;
}.

(** All runs of the projector have been stopped. *)
Definition all_stopped (s : State) : Prop :=
  ∀ k r, st_resultsRuns s !! k = Some r → r_stop r = true.

(** The emissions: ordered by the generation of the dispatch they belong
    to, none beyond the published one; in the app variant a Current one
    carries the input its generation submitted. *)
Record EInv (cfg : Config) (s : State) : Prop := {
  einv_le : ∀ e,
    e ∈ st_emitted s → ∃ p, st_jobIdAndMeta s = Some p ∧ e.1 ≤ p_gen p;
  einv_sorted : ∀ i j a b,
    i ≤ j → st_emitted s !! i = Some a → st_emitted s !! j = Some b → a.1 ≤ b.1;
  einv_pin : variant cfg = InspectifyApp → ∀ e,
    e ∈ st_emitted s → outputState e.2 = OutputState.Current →
    ∃ v, input e.2 = Val v ∧ (e.1, v) ∈ st_submitted s;
}.

Record Inv (cfg : Config) (s : State) : Prop := {
  inv_t : TInv s;
  inv_d : DInv cfg s;
  inv_l : DLive cfg s;
  inv_r : RInv s;
  inv_e : EInv cfg s;
}.

(** The registered cleanup of the dispatcher throws when called: the
    [cancel] of its run reads a [jobId] that is not initialised. *)
Definition throwing (s : State) : Prop :=
  ∃ k r, st_dispatchCleanup s = Some k ∧ st_dispatchRuns s !! k = Some r ∧
         d_cancel r = cancel_abort_jobsCancel ∧ d_jobId r = None.

(** Once the subscriber queue is blocked no run of the dispatcher is on
    its way, and the cleanup that threw is still the registered one. *)
Definition SInv (s : State) : Prop :=
  stuck s = true → quiesced s ∧ throwing s.

(** The job id of a run: not known before the run has settled; and in the
    earlier variant the [cancel] of a run whose request is under way is the
    closure that reads it. *)
Definition JInv (cfg : Config) (s : State) : Prop :=
  ∀ k r, st_dispatchRuns s !! k = Some r →
    (d_at r ≠ settled → d_jobId r = None) ∧
    (variant cfg = Earlier → d_at r = await_request →
     d_cancel r = cancel_abort_jobsCancel).

(** ** Auxiliary definitions for the proofs *)

(** What the registered cleanup does to the runs: the run it belongs to is
    stopped, and settled if its request was under way. *)
Definition cleaned (r : DispatchRun) : DispatchRun :=
  match d_cancel r, d_at r with
  | (cancel_abort | cancel_abort_jobsCancel), await_request =>
      d_set_at settled (d_set_stop r)
  | _, _ => d_set_stop r
  end.

(** The fields the dispatcher's cleanup leaves alone. *)
Definition outside_dispatch_runs (s : State) :=
  (st_now s, st_input s, st_compilationStatus s, st_jobs s, st_timers s,
   st_dispatchCleanup s, st_jobIdAndMeta s, st_resultsRuns s,
   st_resultsCleanup s, st_results s, st_submitted s, st_emitted s).

(** The fields the projector leaves alone. *)
Definition dispatch_side (s : State) :=
  (st_now s, st_input s, st_compilationStatus s, st_dispatchRuns s,
   st_dispatchCleanup s, st_jobIdAndMeta s, st_submitted s, st_jobs s).

(** What a fresh results run sets after the placeholder, if the record is
    already in the registry: the subscriber is called at once. *)
Definition first_look (cfg : Config) (p : Published) (jobs : gmap nat Job) : list (nat * Results) :=
  match jobs !! p_jobId p with
  | Some j =>
      match job_subscriber cfg (new_resultsRun p) j with
      | Some x => [(p_gen p, x)]
      | None => []
      end
  | None => []
  end.

(** Time passed from [s] to [s'] without a submission: a run that was
    waiting for its timer, unstopped, still is, and so is its timer. *)
Definition waited_quietly (s s' : State) : Prop :=
  st_submitted s' = st_submitted s ∧
  ∀ k r due,
    st_dispatchRuns s !! k = Some r → d_stop r = false → d_at r = await_timer →
    (due, TDispatch k) ∈ st_timers s →
    st_dispatchRuns s' !! k = Some r ∧ (due, TDispatch k) ∈ st_timers s'.

(** Time passed from [s] up to [t], and the one run that was waiting
    unstopped saw its timer fire and submitted the input it captured. *)
Definition waited_and_submitted (s : State) (t : nat) (s' : State) : Prop :=
  ∃ k r due,
    st_dispatchRuns s !! k = Some r ∧ d_stop r = false ∧ d_at r = await_timer ∧
    (due, TDispatch k) ∈ st_timers s ∧ due ≤ t ∧
    st_submitted s' = st_submitted s ++ [(k, d_input r)] ∧
    ∀ k' r', st_dispatchRuns s' !! k' = Some r' → d_at r' = await_timer →
             d_stop r' = true.

(** After a write, with the guards passed: a fresh run waits for its
    timer, due one quiet period from now. *)
Definition pending (cfg : Config) (s : State) (k : nat) (v : Input) : Prop :=
  Inv cfg s ∧ stuck s = false ∧ dispatch_guard cfg s = true ∧
  st_dispatchRuns s !! k =
    Some {| d_input := v; d_stop := false; d_cancel := cancel_noop;
            d_at := await_timer; d_jobId := None |} ∧
  st_dispatchCleanup s = Some k ∧
  (st_now s + quiet, TDispatch k) ∈ st_timers s.

(** A results run is in its loop: not stopped, not subscribed, its timer
    set, and the record it waits for is not in the registry. *)
Definition polling (s : State) (k : nat) (r : ResultsRun) : Prop :=
  st_resultsCleanup s = Some k ∧ st_resultsRuns s !! k = Some r ∧
  r_stop r = false ∧ r_polling r = true ∧
  st_jobs s !! r_jobId r = None ∧ ∃ due, (due, TPoll k) ∈ st_timers s.

(** The logs and stores neither callback of the projector touches. *)
Definition other_logs (s : State) :=
  (st_aborted s, st_jobsCancel s, st_selectedJobId s, st_uncaught s).

(** Nothing has been started, set or logged: the state of a binding that
    has done nothing. *)
Definition idle (cfg : Config) (s : State) : Prop :=
  st_timers s = [] ∧ st_dispatchRuns s = [] ∧ st_dispatchCleanup s = None ∧
  st_jobIdAndMeta s = None ∧ st_resultsRuns s = [] ∧ st_resultsCleanup s = None ∧
  st_submitted s = [] ∧ st_emitted s = [] ∧ st_results s = initial_results cfg ∧
  st_uncaught s = [].

(** A results value names job [id]: in the earlier variant by its
    [latestJobId], in the app variant by its [job], which the placeholder
    leaves [null]. *)
Definition names_job (cfg : Config) (id : nat) (x : Results) : Prop :=
  match variant cfg with
  | Earlier => latestJobId x = Val id
  | InspectifyApp => job x = Null ∨ job x = Val id
  end.

(** The results store names the published job; before anything is
    published it has never been set. *)
Definition NInv (cfg : Config) (s : State) : Prop :=
  match st_jobIdAndMeta s with
  | Some p => names_job cfg (p_jobId p) (st_results s)
  | None => st_results s = initial_results cfg ∧ st_emitted s = []
  end.

(** * Proofs *)

Lemma reachable_run cfg s es : reachable cfg s → reachable cfg (run cfg s es).
Proof.
  revert s. induction es as [|e es IH]; intros s Hs; simpl; [done|].
  apply IH. by constructor.
Qed.

(** *** The subscriber queue *)

Lemma run_queue_runs f s : stuck s = false → run_queue f s = f s.
Proof. unfold run_queue. by intros ->. Qed.

Lemma run_queue_stuck f s : stuck s = true → run_queue f s = s.
Proof. unfold run_queue. by intros ->. Qed.

Lemma run_queue_ind (P : State → Prop) f s :
  P s → P (f s) → P (run_queue f s).
Proof. unfold run_queue. by destruct (stuck s). Qed.

Lemma stuck_frame s s' : st_uncaught s' = st_uncaught s → stuck s' = stuck s.
Proof. unfold stuck. by intros ->. Qed.

Lemma stuck_false s : stuck s = false ↔ ReferenceError ∉ st_uncaught s.
Proof. unfold stuck. by rewrite bool_decide_eq_false. Qed.

Lemma stuck_true s : stuck s = true ↔ ReferenceError ∈ st_uncaught s.
Proof. unfold stuck. by rewrite bool_decide_eq_true. Qed.

Lemma not_stuck_SInv s : stuck s = false → SInv s.
Proof. intros Hn Hs. congruence. Qed.

(** Induction over [advance]: a property kept by firing the oldest timer
    is kept by letting time pass. *)
Lemma advance_preserves cfg (P : State → Prop) t :
  (∀ s due task rest,
      P s → st_timers s = (due, task) :: rest → due ≤ t →
      P (fire cfg task (with_now due (with_timers rest s)))) →
  (∀ s, P s → P (with_now t s)) →
  ∀ fuel s, P s → P (advance cfg fuel t s).
Proof.
  intros Hfire Hnow. induction fuel as [|fuel IH]; intros s Hs; simpl.
  - destruct (st_timers s) as [|[due task] rest]; [by apply Hnow|].
    destruct (decide (due ≤ t)); [done|by apply Hnow].
  - destruct (st_timers s) as [|[due task] rest] eqn:Ht; [by apply Hnow|].
    destruct (decide (due ≤ t)); [|by apply Hnow].
    apply IH. by eapply Hfire.
Qed.

(** *** No results value is stale *)

Lemma job_subscriber_never_stale cfg r j x :
  job_subscriber cfg r j = Some x → none_or_current x.
Proof.
  unfold job_subscriber. intros H.
  destruct (state j), (variant cfg); simplify_eq; by right.
Qed.

Lemma never_stale_emit g x s :
  none_or_current x → never_stale s → never_stale (emit g x s).
Proof.
  intros Hx [He _]. split; simpl; [|done].
  apply Forall_app. split; [done|]. by constructor.
Qed.

Lemma never_stale_emit_opt cfg g r j s :
  never_stale s → never_stale (emit_opt g (job_subscriber cfg r j) s).
Proof.
  intros Hs. destruct (job_subscriber cfg r j) as [x|] eqn:Hx; simpl; [|done].
  apply never_stale_emit; [|done]. by eapply job_subscriber_never_stale.
Qed.

Lemma never_stale_same s s' :
  st_emitted s' = st_emitted s → st_results s' = st_results s →
  never_stale s → never_stale s'.
Proof. unfold never_stale. by intros -> ->. Qed.

Lemma never_stale_results_poll cfg k s :
  never_stale s → never_stale (results_poll cfg k s).
Proof.
  intros Hs. unfold results_poll.
  destruct (st_resultsRuns s !! k) as [r|]; [|done].
  destruct (r_stop r); [by eapply never_stale_same|].
  destruct (st_jobs s !! r_jobId r) as [j|].
  - eapply never_stale_same; [| |by apply (never_stale_emit_opt cfg (r_gen r) r j)]; done.
  - by eapply never_stale_same.
Qed.

Lemma never_stale_results_sync cfg s :
  never_stale s → never_stale (results_sync cfg s).
Proof.
  intros Hs. unfold results_sync, results.
  assert (never_stale (results_cleanup s)) as Hc.
  { eapply never_stale_same; [| |done]; unfold results_cleanup;
      by destruct (st_resultsCleanup s). }
  destruct (st_jobIdAndMeta (results_cleanup s)) as [p|]; [|by eapply never_stale_same].
  eapply never_stale_same; [reflexivity|reflexivity|].
  apply never_stale_results_poll, never_stale_emit; [by left|].
  by eapply never_stale_same.
Qed.

Lemma dispatch_cancel_results_same k s :
  st_emitted (dispatch_cancel k s).1 = st_emitted s ∧
  st_results (dispatch_cancel k s).1 = st_results s.
Proof.
  unfold dispatch_cancel, abort.
  destruct (st_dispatchRuns s !! k) as [r|]; [|done].
  destruct (d_cancel r), (d_at r), (d_jobId r); done.
Qed.

Lemma dispatch_sync_results_same cfg s :
  st_emitted (dispatch_sync cfg s) = st_emitted s ∧
  st_results (dispatch_sync cfg s) = st_results s.
Proof.
  unfold dispatch_sync, dispatch_cleanup.
  destruct (st_dispatchCleanup s) as [k|]; simpl.
  - pose proof (dispatch_cancel_results_same k (update_dispatchRun k d_set_stop s)) as [H1 H2].
    destruct (dispatch_cancel k (update_dispatchRun k d_set_stop s)) as [s1 threw].
    simpl in *. destruct threw; [done|].
    unfold jobIdAndMetaDerived. by destruct (dispatch_guard cfg s1).
  - unfold jobIdAndMetaDerived. by destruct (dispatch_guard cfg s).
Qed.

Lemma never_stale_notify cfg id j s :
  never_stale s → never_stale (notify_record cfg id j s).
Proof.
  unfold notify_record. generalize (st_resultsRuns s). intros l. revert s.
  induction l as [|r l IH]; intros s Hs; simpl; [done|].
  apply IH. unfold notify_run. destruct (r_sub r); try done.
  destruct (decide (r_jobId r = id)); [|done].
  by apply never_stale_emit_opt.
Qed.

Lemma never_stale_fire cfg task s :
  never_stale s → never_stale (fire cfg task s).
Proof.
  intros Hs. destruct task as [k|k]; simpl.
  - unfold dispatch_timer. destruct (st_dispatchRuns s !! k) as [r|]; [|done].
    destruct (d_stop r); by eapply never_stale_same.
  - by apply never_stale_results_poll.
Qed.

Lemma never_stale_step cfg s e :
  never_stale s → never_stale (step cfg s e).
Proof.
  intros Hs. destruct e as [d|v|c|k jobId meta|k message|id j|]; simpl.
  - apply advance_preserves; [| |done].
    + intros s0 due task rest H0 _ _. apply never_stale_fire.
      by eapply never_stale_same.
    + intros s0 H0. by eapply never_stale_same.
  - apply run_queue_ind; [by eapply never_stale_same|].
    destruct (dispatch_sync_results_same cfg (with_input v s)) as [H1 H2].
    by eapply never_stale_same.
  - destruct (variant cfg); [|by eapply never_stale_same].
    apply run_queue_ind; [by eapply never_stale_same|].
    destruct (dispatch_sync_results_same cfg (with_compilationStatus c s)) as [H1 H2].
    by eapply never_stale_same.
  - unfold dispatch_resolved.
    destruct (st_dispatchRuns s !! k) as [r|]; [|done].
    destruct (d_at r); try done.
    destruct (variant cfg).
    + apply never_stale_results_sync. by eapply never_stale_same.
    + case_decide; [by eapply never_stale_same|].
      apply never_stale_results_sync. by eapply never_stale_same.
  - unfold dispatch_rejected.
    destruct (st_dispatchRuns s !! k) as [r|]; [|done].
    destruct (d_at r); done.
  - apply run_queue_ind; [by eapply never_stale_same|].
    apply never_stale_notify. by eapply never_stale_same.
  - apply run_queue_ind; [done|]. by apply never_stale_results_sync.
Qed.

Lemma never_stale_init cfg defaultInput status registry :
  never_stale (initializeIo cfg defaultInput status registry).
Proof.
  unfold initializeIo. apply never_stale_results_sync.
  unfold jobIdAndMetaDerived.
  match goal with |- context [dispatch_guard cfg ?s] => destruct (dispatch_guard cfg s) end.
  - split; simpl; [constructor|]. by left.
  - split; simpl; [constructor|]. by left.
Qed.

Lemma reachable_never_stale cfg s : reachable cfg s → never_stale s.
Proof.
  induction 1; [apply never_stale_init|by apply never_stale_step].
Qed.

(** *** Lists of runs *)

Lemma lookup_alter_Some {A} (f : A → A) (l : list A) k0 k r :
  alter f k0 l !! k = Some r →
  (k = k0 ∧ ∃ r0, l !! k = Some r0 ∧ r = f r0) ∨ (k ≠ k0 ∧ l !! k = Some r).
Proof.
  destruct (decide (k0 = k)) as [->|Hne].
  - rewrite list_lookup_alter_eq. intros (r0 & ? & ?)%fmap_Some. left. eauto.
  - rewrite list_lookup_alter_ne by done. intros. right. eauto.
Qed.

(** *** The dispatcher's cleanup *)

Lemma dispatch_cleanup_runs s :
  st_dispatchRuns (dispatch_cleanup s).1 =
  match st_dispatchCleanup s with
  | Some k => alter cleaned k (st_dispatchRuns s)
  | None => st_dispatchRuns s
  end.
Proof.
  unfold dispatch_cleanup. destruct (st_dispatchCleanup s) as [k|]; [|done].
  unfold dispatch_cancel, abort, update_dispatchRun; simpl.
  rewrite list_lookup_alter_eq.
  destruct (st_dispatchRuns s !! k) as [r|] eqn:Hr; simpl.
  - destruct (d_cancel r) eqn:Hc, (d_at r) eqn:Ha, (d_jobId r); simpl;
      apply list_eq; intros i; rewrite !list_lookup_alter;
      repeat case_decide; simplify_eq; rewrite ?Hr; simpl;
      unfold cleaned; rewrite ?Hc, ?Ha; done.
  - apply list_eq. intros i. rewrite !list_lookup_alter.
    case_decide; [subst; by rewrite Hr|done].
Qed.

Lemma dispatch_cleanup_outside s :
  outside_dispatch_runs (dispatch_cleanup s).1 = outside_dispatch_runs s.
Proof.
  unfold dispatch_cleanup. destruct (st_dispatchCleanup s) as [k|] eqn:Hk; [|done].
  unfold dispatch_cancel, abort, update_dispatchRun; simpl.
  rewrite list_lookup_alter_eq.
  destruct (st_dispatchRuns s !! k) as [r|]; simpl;
    [|by unfold outside_dispatch_runs; simpl; rewrite Hk].
  destruct (d_cancel r), (d_at r), (d_jobId r);
    by unfold outside_dispatch_runs; simpl; rewrite Hk.
Qed.

Lemma cleaned_spec r :
  d_stop (cleaned r) = true ∧ d_input (cleaned r) = d_input r ∧
  d_cancel (cleaned r) = d_cancel r ∧
  (d_at (cleaned r) = d_at r ∨ d_at (cleaned r) = settled) ∧
  (d_at r = await_timer → d_at (cleaned r) = await_timer) ∧
  (d_at (cleaned r) = await_request →
   d_cancel r ≠ cancel_abort ∧ d_cancel r ≠ cancel_abort_jobsCancel).
Proof.
  unfold cleaned.
  destruct (d_cancel r) eqn:?, (d_at r) eqn:?; simpl; intuition congruence.
Qed.

Lemma DInv_dispatch_cleanup cfg s :
  DInv cfg s → DInv cfg (dispatch_cleanup s).1 ∧ quiesced (dispatch_cleanup s).1.
Proof.
  intros [Hlast Hlive Hreq Hcan Happ Hsub Hpub].
  pose proof (dispatch_cleanup_outside s) as Hout.
  pose proof (dispatch_cleanup_runs s) as Hruns.
  set (s1 := (dispatch_cleanup s).1) in *.
  injection Hout as Enow Einp Est Ejobs Etim Ecl Epub Err Erc Eres Esub Eem.
  assert (∀ k r1, st_dispatchRuns s1 !! k = Some r1 →
            ∃ r, st_dispatchRuns s !! k = Some r ∧
                 ((st_dispatchCleanup s = Some k ∧ r1 = cleaned r) ∨
                  (st_dispatchCleanup s ≠ Some k ∧ r1 = r))) as Hk.
  { intros k r1. rewrite Hruns.
    destruct (st_dispatchCleanup s) as [k0|]; [|by eauto 10].
    intros [[-> (r0 & ? & ->)]|[? ?]]%lookup_alter_Some;
      eexists; split; [done|left; done|done|right; split; [congruence|done]]. }
  assert (length (st_dispatchRuns s1) = length (st_dispatchRuns s)) as Hlen.
  { rewrite Hruns. destruct (st_dispatchCleanup s); [apply length_alter|done]. }
  split; [split|].
  - intros k. rewrite Ecl, Hlen. apply Hlast.
  - intros k r1 (r & Hr & [[Hc ->]|[Hc ->]])%Hk Hs Ha.
    + destruct (cleaned_spec r) as (? & _). congruence.
    + rewrite Ecl. eauto.
  - intros k r1 (r & Hr & [[Hc ->]|[Hc ->]])%Hk Ha; [|eauto].
    destruct (cleaned_spec r) as (_ & _ & _ & [Hat|Hat] & _ & Hno); [|congruence].
    specialize (Hcan _ _ Hr). rewrite <-Hat, Ha in Hcan.
    destruct (Hno Ha). by destruct Hcan.
  - intros k r1 (r & Hr & [[Hc ->]|[Hc ->]])%Hk; [|exact (Hcan _ _ Hr)].
    destruct (cleaned_spec r) as (_ & _ & -> & [->| ->] & _);
      [exact (Hcan _ _ Hr)|done].
  - intros HA k r1 (r & Hr & [[Hc ->]|[Hc ->]])%Hk; [|eauto].
    destruct (cleaned_spec r) as (_ & _ & -> & _). eauto.
  - intros k r1 (r & Hr & [[Hc ->]|[Hc ->]])%Hk; rewrite Esub; [|eauto].
    destruct (cleaned_spec r) as (_ & -> & -> & _). eauto.
  - intros p. rewrite Epub, Esub, Hlen. apply Hpub.
  - intros k r1 (r & Hr & [[Hc ->]|[Hc ->]])%Hk.
    + left. apply cleaned_spec.
    + destruct (d_stop r) eqn:Hs; [by left|]. right.
      destruct (decide (d_at r = settled)); [done|].
      by specialize (Hlive _ _ Hr Hs n).
Qed.

(** *** Frames: what each invariant depends on *)

Lemma TInv_frame s s' :
  TInv s → st_now s' = st_now s → st_timers s' = st_timers s →
  (∀ due k, (due, TDispatch k) ∈ st_timers s →
     ∀ r, st_dispatchRuns s !! k = Some r → d_at r = await_timer →
          ∃ r', st_dispatchRuns s' !! k = Some r' ∧ d_at r' = await_timer) →
  length (st_resultsRuns s) ≤ length (st_resultsRuns s') →
  TInv s'.
Proof.
  intros [Hso Hbo Hnd Hdi Hpo] En Et Hd Hr. split; rewrite ?Et, ?En; try done.
  - intros due k Hin. destruct (Hdi _ _ Hin) as (r & Hk & Ha). eauto.
  - intros due k ?%Hpo. lia.
Qed.

Lemma TInv_frame_runs s s' :
  TInv s → st_now s' = st_now s → st_timers s' = st_timers s →
  st_dispatchRuns s' = st_dispatchRuns s →
  length (st_resultsRuns s) ≤ length (st_resultsRuns s') →
  TInv s'.
Proof.
  intros Ht En Et Ed Hr. eapply TInv_frame; [done..| |done].
  intros due k _ r Hk Ha. rewrite Ed. eauto.
Qed.

Lemma DInv_frame cfg s s' :
  DInv cfg s → st_dispatchRuns s' = st_dispatchRuns s →
  st_dispatchCleanup s' = st_dispatchCleanup s →
  st_jobIdAndMeta s' = st_jobIdAndMeta s →
  (∀ x, x ∈ st_submitted s → x ∈ st_submitted s') →
  DInv cfg s'.
Proof.
  intros [Hlast Hlive Hreq Hcan Happ Hsub Hpub] Er Ec Ep Es.
  split; rewrite ?Er, ?Ec, ?Ep; try done.
  - intros k r Hk Hc. apply Es. eauto.
  - intros p [? ?]%Hpub. split; [done|]. by apply Es.
Qed.

Lemma DLive_frame cfg s s' :
  DLive cfg s → st_dispatchRuns s' = st_dispatchRuns s →
  st_input s' = st_input s →
  st_compilationStatus s' = st_compilationStatus s →
  DLive cfg s'.
Proof.
  intros H Er Ei Ec k r. rewrite Er, Ei.
  unfold dispatch_guard, compilation_succeeded. rewrite Ec. apply H.
Qed.

Lemma quiesced_DLive cfg s : quiesced s → DLive cfg s.
Proof. intros H k r Hk Hs Ha. destruct (H _ _ Hk); congruence. Qed.

Lemma RInv_frame s s' :
  RInv s → st_resultsRuns s' = st_resultsRuns s →
  st_resultsCleanup s' = st_resultsCleanup s →
  st_jobIdAndMeta s' = st_jobIdAndMeta s →
  (∀ x, x ∈ st_submitted s → x ∈ st_submitted s') →
  RInv s'.
Proof.
  intros [Hla Hli Hsu Hge] Er Ec Ep Es. split; rewrite ?Er, ?Ec, ?Ep; try done.
  intros k r Hk. apply Es. eauto.
Qed.

Lemma EInv_frame cfg s s' :
  EInv cfg s → st_emitted s' = st_emitted s →
  st_jobIdAndMeta s' = st_jobIdAndMeta s →
  (∀ x, x ∈ st_submitted s → x ∈ st_submitted s') →
  EInv cfg s'.
Proof.
  intros [Hle Hso Hpi] Ee Ep Es. split; rewrite ?Ee, ?Ep; try done.
  intros HA e He Hc. destruct (Hpi HA e He Hc) as (v & ? & ?). eauto.
Qed.

(** *** The dispatcher callback *)

Lemma sorted_snoc (l : list (nat * Task)) x :
  (∀ i j a b, i ≤ j → l !! i = Some a → l !! j = Some b → a.1 ≤ b.1) →
  (∀ e, e ∈ l → e.1 ≤ x.1) →
  ∀ i j a b, i ≤ j → (l ++ [x]) !! i = Some a → (l ++ [x]) !! j = Some b → a.1 ≤ b.1.
Proof.
  intros Hso Hle i j a b Hij [[? Ha]|[-> <-]]%lookup_snoc_Some
    [[? Hb]|[-> <-]]%lookup_snoc_Some.
  - eauto.
  - apply Hle. by eapply list_elem_of_lookup_2.
  - lia.
  - done.
Qed.

Lemma TInv_setTimeout_dispatch s r :
  TInv s → d_at r = await_timer →
  TInv (setTimeout (TDispatch (length (st_dispatchRuns s)))
          (with_dispatchRuns (st_dispatchRuns s ++ [r]) s)).
Proof.
  intros [Hso Hbo Hnd Hdi Hpo] Ha. split; simpl.
  - apply sorted_snoc; [done|]. intros e He. apply Hbo in He. simpl. lia.
  - intros e [He| ->%list_elem_of_singleton]%elem_of_app; [by apply Hbo|].
    simpl. unfold quiet. lia.
  - rewrite fmap_app. apply NoDup_app. split; [done|]. split; [|apply NoDup_singleton].
    intros t ([due t'] & Heq & Hin)%list_elem_of_fmap Hin2. simpl in *.
    apply list_elem_of_singleton in Hin2. subst.
    apply Hdi in Hin as (r' & Hk & _).
    apply lookup_lt_Some in Hk. lia.
  - intros due k [Hin|Heq%list_elem_of_singleton]%elem_of_app.
    + apply Hdi in Hin as (r' & Hk & Ha'). exists r'. split; [|done].
      by apply lookup_app_l_Some.
    + simplify_eq. exists r. split; [|done]. by apply list_lookup_middle.
  - intros due k [Hin|Heq%list_elem_of_singleton]%elem_of_app; [eauto|done].
Qed.

Lemma DInv_jobIdAndMetaDerived cfg s :
  DInv cfg s → quiesced s →
  DInv cfg (jobIdAndMetaDerived cfg s) ∧ DLive cfg (jobIdAndMetaDerived cfg s).
Proof.
  intros [Hlast Hlive Hreq Hcan Happ Hsub Hpub] Hq. unfold jobIdAndMetaDerived.
  destruct (dispatch_guard cfg s) eqn:Hg.
  - split; [split|]; simpl.
    + intros k [= <-]. rewrite length_app. simpl. lia.
    + intros k r [[? Hk]|[-> <-]]%lookup_snoc_Some Hs Ha; [|done].
      destruct (Hq _ _ Hk); congruence.
    + intros k r [[? Hk]|[-> <-]]%lookup_snoc_Some; [eauto|done].
    + intros k r [[? Hk]|[-> <-]]%lookup_snoc_Some; [exact (Hcan _ _ Hk)|done].
    + intros HA k r [[? Hk]|[-> <-]]%lookup_snoc_Some; [eauto|done].
    + intros k r [[? Hk]|[-> <-]]%lookup_snoc_Some; [eauto|done].
    + intros p [Hp ?]%Hpub. split; [|done]. rewrite length_app. lia.
    + intros k r [[? Hk]|[-> <-]]%lookup_snoc_Some Hs Ha; simpl.
      * destruct (Hq _ _ Hk); congruence.
      * split; [done|]. intros _. exact Hg.
  - split.
    + split; simpl; try done. intros k r Hk Hs Ha. destruct (Hq _ _ Hk); congruence.
    + apply quiesced_DLive. exact Hq.
Qed.

Lemma Inv_jobIdAndMetaDerived cfg s :
  TInv s → DInv cfg s → quiesced s → RInv s → EInv cfg s →
  Inv cfg (jobIdAndMetaDerived cfg s).
Proof.
  intros Ht Hd Hq Hr He.
  destruct (DInv_jobIdAndMetaDerived cfg s Hd Hq) as [Hd' Hl'].
  split; try done; unfold jobIdAndMetaDerived in *;
    destruct (dispatch_guard cfg s).
  - destruct (TInv_setTimeout_dispatch s
        {| d_input := st_input s; d_stop := false; d_cancel := cancel_noop;
           d_at := await_timer; d_jobId := None |} Ht eq_refl).
    by split.
  - destruct Ht. by split.
  - by eapply RInv_frame.
  - by eapply RInv_frame.
  - by eapply EInv_frame.
  - by eapply EInv_frame.
Qed.

Lemma Inv_dispatch_sync cfg s :
  TInv s → DInv cfg s → RInv s → EInv cfg s → Inv cfg (dispatch_sync cfg s).
Proof.
  intros Ht Hd Hr He.
  pose proof (dispatch_cleanup_outside s) as Hout.
  pose proof (dispatch_cleanup_runs s) as Hruns.
  destruct (DInv_dispatch_cleanup cfg s Hd) as [Hd1 Hq1].
  unfold dispatch_sync. destruct (dispatch_cleanup s) as [s1 threw]. simpl in *.
  injection Hout as Enow Einp Est Ejobs Etim Ecl Epub Err Erc Eres Esub Eem.
  assert (TInv s1) as Ht1.
  { eapply TInv_frame; [done..| |by rewrite Err].
    intros due k _ r Hk Ha. rewrite Hruns.
    destruct (st_dispatchCleanup s) as [k0|]; [|by eauto].
    destruct (decide (k = k0)) as [->|].
    - exists (cleaned r). rewrite list_lookup_alter_eq, Hk. split; [done|].
      by apply cleaned_spec.
    - exists r. by rewrite list_lookup_alter_ne. }
  assert (RInv s1) as Hr1 by (eapply RInv_frame; [done..|by rewrite Esub]).
  assert (EInv cfg s1) as He1 by (eapply EInv_frame; [done..|by rewrite Esub]).
  destruct threw; [|by apply Inv_jobIdAndMetaDerived].
  split; try done. by apply quiesced_DLive.
Qed.

(** *** Firing the oldest timer *)

Lemma TInv_pop s due task rest :
  TInv s → st_timers s = (due, task) :: rest →
  TInv (with_now due (with_timers rest s)) ∧ task ∉ rest.*2.
Proof.
  intros [Hso Hbo Hnd Hdi Hpo] Ht. rewrite Ht in *.
  apply NoDup_cons in Hnd as [Hnotin Hnd]. split; [split; simpl|done].
  - intros i j a b Hij Ha Hb. by apply (Hso (S i) (S j)); [lia|..].
  - intros e He.
    destruct (Hbo (due, task)) as [H1 H2]; [by left|].
    destruct (Hbo e) as [H3 H4]; [by right|].
    apply list_elem_of_lookup in He as [i Hi].
    specialize (Hso 0 (S i) (due, task) e). simpl in *.
    split; [apply Hso; [lia|done..]|lia].
  - done.
  - intros due' k Hin. apply (Hdi due'). by right.
  - intros due' k Hin. apply (Hpo due'). by right.
Qed.

Lemma Inv_pop cfg s due task rest :
  Inv cfg s → st_timers s = (due, task) :: rest →
  Inv cfg (with_now due (with_timers rest s)).
Proof.
  intros [Ht Hd Hl Hr He] Hs. split.
  - by eapply TInv_pop.
  - by eapply DInv_frame.
  - by eapply DLive_frame.
  - by eapply RInv_frame.
  - by eapply EInv_frame.
Qed.

(** An update of one dispatcher run that keeps what it captured. *)
Lemma DInv_alter cfg s k r f :
  DInv cfg s → st_dispatchRuns s !! k = Some r →
  d_input (f r) = d_input r →
  (d_stop (f r) = false → d_at (f r) ≠ settled → st_dispatchCleanup s = Some k) →
  (d_at (f r) = await_request → d_stop (f r) = false) →
  match d_at (f r) with
  | await_timer => d_cancel (f r) = cancel_noop
  | await_request => d_cancel (f r) = cancel_abort ∨ d_cancel (f r) = cancel_abort_jobsCancel
  | settled => True
  end →
  (variant cfg = InspectifyApp → d_cancel (f r) ≠ cancel_abort_jobsCancel) →
  (d_cancel (f r) ≠ cancel_noop → (k, d_input r) ∈ st_submitted s) →
  DInv cfg (update_dispatchRun k f s).
Proof.
  intros [Hlast Hlive Hreq Hcan Happ Hsub Hpub] Hk Hin Hli Hre Hca Hap Hsu.
  split; simpl.
  - intros k'. rewrite length_alter. apply Hlast.
  - intros k' r' [[-> (r0 & ? & ->)]|[? ?]]%lookup_alter_Some; simplify_eq; eauto.
  - intros k' r' [[-> (r0 & ? & ->)]|[? ?]]%lookup_alter_Some; simplify_eq; eauto.
  - intros k' r' [[-> (r0 & ? & ->)]|[? Hk']]%lookup_alter_Some; simplify_eq;
      [done|exact (Hcan _ _ Hk')].
  - intros HA k' r' [[-> (r0 & ? & ->)]|[? ?]]%lookup_alter_Some; simplify_eq; eauto.
  - intros k' r' [[-> (r0 & ? & ->)]|[? ?]]%lookup_alter_Some; simplify_eq;
      [rewrite Hin|]; eauto.
  - intros p. rewrite length_alter. apply Hpub.
Qed.

Lemma DLive_alter cfg s k r f :
  DLive cfg s → st_dispatchRuns s !! k = Some r →
  d_input (f r) = d_input r →
  (d_stop (f r) = false → d_stop r = false) →
  (d_at (f r) ≠ settled → d_at r ≠ settled) →
  (d_at (f r) = await_timer → d_at r = await_timer) →
  DLive cfg (update_dispatchRun k f s).
Proof.
  intros Hl Hk Hin Hs Ha Ht k' r'. simpl.
  intros [[-> (r0 & ? & ->)]|[? ?]]%lookup_alter_Some Hs' Ha'; simplify_eq;
    [|by apply (Hl k')].
  destruct (Hl _ _ Hk (Hs Hs') (Ha Ha')) as [H1 H2].
  split; [congruence|]. intros ?. apply H2. auto.
Qed.

Lemma TInv_alter_dispatch s k f :
  TInv s → (∀ due, (due, TDispatch k) ∉ st_timers s) →
  TInv (update_dispatchRun k f s).
Proof.
  intros Ht Hk. eapply TInv_frame; [done..| |done].
  intros due k' Hin r Hk' Ha. simpl.
  destruct (decide (k' = k)) as [->|Hne]; [by destruct (Hk due)|].
  exists r. by rewrite list_lookup_alter_ne.
Qed.

Lemma Inv_dispatch_timer cfg k s :
  Inv cfg s →
  (∃ r, st_dispatchRuns s !! k = Some r ∧ d_at r = await_timer) →
  (∀ due, (due, TDispatch k) ∉ st_timers s) →
  Inv cfg (dispatch_timer cfg k s).
Proof.
  intros [Ht Hd Hl Hr He] (r & Hk & Ha) Hno. unfold dispatch_timer. rewrite Hk.
  destruct (d_stop r) eqn:Hs.
  - split.
    + by apply TInv_alter_dispatch.
    + eapply DInv_alter; simpl; try done; try congruence.
      * intros HA. by eapply dinv_app.
      * by eapply dinv_submitted.
    + eapply DLive_alter; simpl; try done; congruence.
    + by eapply RInv_frame.
    + by eapply EInv_frame.
  - set (c := match variant cfg with
              | InspectifyApp => cancel_abort
              | Earlier => cancel_abort_jobsCancel
              end).
    assert (∀ x, x ∈ st_submitted s → x ∈ st_submitted (log_submitted k (d_input r) s))
      as Hsub by (intros x Hx; simpl; apply elem_of_app; by left).
    split.
    + apply TInv_alter_dispatch; [|done]. by eapply TInv_frame; eauto.
    + eapply (DInv_alter cfg (log_submitted k (d_input r) s)); simpl; try done.
      * by eapply DInv_frame.
      * intros _ _. eapply (dinv_live _ _ Hd); [done..|congruence].
      * subst c. destruct (variant cfg); auto.
      * subst c. intros ->. done.
      * intros _. apply elem_of_app. right. by left.
    + eapply (DLive_alter cfg (log_submitted k (d_input r) s));
        simpl; try done; congruence.
    + by eapply RInv_frame.
    + by eapply EInv_frame.
Qed.

Lemma Inv_dispatch_rejected cfg k message s :
  Inv cfg s → Inv cfg (dispatch_rejected k message s).
Proof.
  intros [Ht Hd Hl Hr He]. unfold dispatch_rejected.
  destruct (st_dispatchRuns s !! k) as [r|] eqn:Hk; [|done].
  destruct (d_at r) eqn:Ha; try done.
  assert (∀ due, (due, TDispatch k) ∉ st_timers s) as Hno.
  { intros due Hin. destruct (tinv_dispatch _ Ht _ _ Hin) as (r' & ? & ?). congruence. }
  split.
  - destruct (TInv_alter_dispatch s k (d_set_at settled) Ht Hno). by split.
  - destruct (DInv_alter cfg s k r (d_set_at settled) Hd Hk); simpl; try done.
    + intros HA. by eapply dinv_app.
    + by eapply dinv_submitted.
  - apply (DLive_frame cfg (update_dispatchRun k (d_set_at settled) s)); try done.
    eapply DLive_alter; simpl; try done; congruence.
  - by eapply RInv_frame.
  - by eapply EInv_frame.
Qed.

(** *** The projector *)

Lemma dispatch_side_inv cfg s s' :
  dispatch_side s' = dispatch_side s →
  DInv cfg s → DLive cfg s → DInv cfg s' ∧ DLive cfg s'.
Proof.
  intros Hside Hd Hl. injection Hside as En Ei Ec Er Ecl Ep Es Ej. split.
  - eapply DInv_frame; [done..|by rewrite Es].
  - by eapply DLive_frame.
Qed.

Lemma EInv_emit cfg s p x :
  EInv cfg s → st_jobIdAndMeta s = Some p →
  (variant cfg = InspectifyApp → outputState x = OutputState.Current →
   ∃ v, input x = Val v ∧ (p_gen p, v) ∈ st_submitted s) →
  EInv cfg (emit (p_gen p) x s).
Proof.
  intros [Hle Hso Hpi] Hp Hx. split; simpl.
  - intros e [He| ->%list_elem_of_singleton]%elem_of_app; [eauto|].
    exists p. by split.
  - intros i j a b Hij [[? Ha]|[-> <-]]%lookup_snoc_Some
      [[? Hb]|[-> <-]]%lookup_snoc_Some.
    + eauto.
    + destruct (Hle a) as (p' & Hp' & ?); [by eapply list_elem_of_lookup_2|].
      simpl. congruence.
    + lia.
    + done.
  - intros HA e [He| ->%list_elem_of_singleton]%elem_of_app Hc; eauto.
Qed.

Lemma RInv_alter s k r f :
  RInv s → st_resultsRuns s !! k = Some r →
  r_gen (f r) = r_gen r → r_jobId (f r) = r_jobId r →
  r_cachedInput (f r) = r_cachedInput r →
  (r_stop (f r) = false → r_stop r = false) →
  (r_sub (f r) = subscribed → r_stop (f r) = false) →
  RInv (update_resultsRun k f s).
Proof.
  intros [Hla Hli Hsu Hge] Hk Hg Hj Hc Hs Hb. split; simpl.
  - intros k'. rewrite length_alter. apply Hla.
  - intros k' r' [[-> (r0 & ? & ->)]|[? ?]]%lookup_alter_Some Hs'; simplify_eq;
      [|eauto].
    rewrite Hg, Hj, Hc. eauto.
  - intros k' r' [[-> (r0 & ? & ->)]|[? ?]]%lookup_alter_Some; simplify_eq; eauto.
  - intros k' r' [[-> (r0 & ? & ->)]|[? ?]]%lookup_alter_Some; simplify_eq;
      [rewrite Hg, Hc|]; eauto.
Qed.

Lemma results_cleanup_side s :
  dispatch_side (results_cleanup s) = dispatch_side s ∧
  st_timers (results_cleanup s) = st_timers s ∧
  st_emitted (results_cleanup s) = st_emitted s ∧
  st_results (results_cleanup s) = st_results s ∧
  st_resultsCleanup (results_cleanup s) = st_resultsCleanup s ∧
  length (st_resultsRuns (results_cleanup s)) = length (st_resultsRuns s).
Proof.
  unfold results_cleanup. destruct (st_resultsCleanup s) as [k|] eqn:Hk; [|done].
  repeat split; simpl; try done. apply length_alter.
Qed.

Lemma RInv_results_cleanup s :
  RInv s → RInv (results_cleanup s) ∧ all_stopped (results_cleanup s).
Proof.
  intros Hr. unfold results_cleanup, all_stopped.
  destruct (st_resultsCleanup s) as [k|] eqn:Hc.
  - destruct (st_resultsRuns s !! k) as [r|] eqn:Hk.
    + split.
      * eapply RInv_alter; try done; unfold r_cancel; simpl;
          destruct (r_sub r) eqn:?; simpl; congruence.
      * simpl. intros k' r' [[-> (r0 & ? & ->)]|[? Hk']]%lookup_alter_Some.
        -- unfold r_cancel. simpl. by destruct (r_sub r0).
        -- destruct (r_stop r') eqn:Hs; [done|].
           destruct (rinv_live _ Hr _ _ Hk' Hs) as [? _]. congruence.
    + apply rinv_last in Hc; [|done]. apply lookup_ge_None in Hk. lia.
  - split; [done|]. intros k r Hk.
    destruct (r_stop r) eqn:Hs; [done|].
    destruct (rinv_live _ Hr _ _ Hk Hs) as [? _]. congruence.
Qed.

Lemma RInv_with_published p s :
  RInv s → all_stopped s → RInv (with_published p s).
Proof.
  intros [Hla Hli Hsu Hge] Hst. split; simpl; try done.
  intros k r Hk Hs. specialize (Hst _ _ Hk). congruence.
Qed.

Lemma job_subscriber_pin cfg r j x :
  job_subscriber cfg r j = Some x → variant cfg = InspectifyApp →
  input x = Val (r_cachedInput r) ∧ job x = Val (r_jobId r) ∧
  outputState x = OutputState.Current.
Proof.
  unfold job_subscriber. intros H HA. rewrite HA in H.
  destruct (state j); simplify_eq; simpl; by rewrite ?HA.
Qed.

Lemma TInv_setTimeout_poll s k :
  TInv s → TPoll k ∉ (st_timers s).*2 → k < length (st_resultsRuns s) →
  TInv (setTimeout (TPoll k) s).
Proof.
  intros [Hso Hbo Hnd Hdi Hpo] Hno Hk. split; simpl.
  - apply sorted_snoc; [done|]. intros e He. apply Hbo in He. simpl. lia.
  - intros e [He| ->%list_elem_of_singleton]%elem_of_app; [by apply Hbo|].
    simpl. unfold quiet. lia.
  - rewrite fmap_app. apply NoDup_app. split; [done|]. split; [|apply NoDup_singleton].
    intros t Hin Hin2. simpl in *.
    apply list_elem_of_singleton in Hin2. by subst.
  - intros due k' [Hin|Heq%list_elem_of_singleton]%elem_of_app; [eauto|done].
  - intros due k' [Hin|Heq%list_elem_of_singleton]%elem_of_app; [eauto|].
    by simplify_eq.
Qed.

Lemma results_poll_side cfg k s :
  dispatch_side (results_poll cfg k s) = dispatch_side s.
Proof.
  unfold results_poll. destruct (st_resultsRuns s !! k) as [r|]; [|done].
  destruct (r_stop r); [done|].
  destruct (st_jobs s !! r_jobId r) as [j|]; [|done].
  by destruct (job_subscriber cfg r j).
Qed.

Lemma Inv_results_poll cfg k s :
  Inv cfg s → TPoll k ∉ (st_timers s).*2 → Inv cfg (results_poll cfg k s).
Proof.
  intros [Ht Hd Hl Hr He] Hno.
  destruct (dispatch_side_inv cfg _ _ (results_poll_side cfg k s) Hd Hl) as [Hd' Hl'].
  split; try done; clear Hd' Hl'; unfold results_poll;
    destruct (st_resultsRuns s !! k) as [r|] eqn:Hk; try done;
    destruct (r_stop r) eqn:Hs.
  - eapply TInv_frame_runs; [done..|]. simpl. by rewrite length_alter.
  - destruct (st_jobs s !! r_jobId r) as [j|].
    + eapply TInv_frame_runs; [done| | | |].
      * by destruct (job_subscriber cfg r j).
      * by destruct (job_subscriber cfg r j).
      * by destruct (job_subscriber cfg r j).
      * simpl. rewrite length_alter. by destruct (job_subscriber cfg r j).
    + apply TInv_setTimeout_poll; simpl.
      * eapply TInv_frame_runs; [done..|]. simpl. by rewrite length_alter.
      * done.
      * rewrite length_alter. by eapply lookup_lt_Some.
  - apply (RInv_frame (update_resultsRun k (r_set_polling false) s)); try done.
    eapply RInv_alter; try done. simpl. intros Hb.
    by eapply rinv_sub.
  - destruct (rinv_live _ Hr _ _ Hk Hs) as [Hc (p & Hp & Hg & Hj & Hi)].
    destruct (st_jobs s !! r_jobId r) as [j|].
    + set (s1 := emit_opt (r_gen r) (job_subscriber cfg r j) s).
      assert (RInv s1) as Hr1.
      { eapply RInv_frame; [done| | | |]; subst s1;
          by destruct (job_subscriber cfg r j). }
      eapply (RInv_alter s1 k r); try done.
      subst s1. by destruct (job_subscriber cfg r j).
    + apply (RInv_frame (update_resultsRun k (r_set_polling true) s)); try done.
      eapply RInv_alter; by try done.
  - by eapply EInv_frame.
  - destruct (rinv_live _ Hr _ _ Hk Hs) as [Hc (p & Hp & Hg & Hj & Hi)].
    destruct (st_jobs s !! r_jobId r) as [j|]; [|by eapply EInv_frame].
    apply (EInv_frame cfg (emit_opt (r_gen r) (job_subscriber cfg r j) s)); try done.
    destruct (job_subscriber cfg r j) as [x|] eqn:Hx; simpl; [|done].
    rewrite Hg. apply EInv_emit; [done..|].
    intros HA _. destruct (job_subscriber_pin _ _ _ _ Hx HA) as (? & _).
    exists (r_cachedInput r). split; [done|]. rewrite <-Hg. by eapply rinv_gen.
Qed.

Lemma results_poll_with_resultsCleanup cfg c k s :
  with_resultsCleanup c (results_poll cfg k s) =
  results_poll cfg k (with_resultsCleanup c s).
Proof.
  unfold results_poll. simpl.
  destruct (st_resultsRuns s !! k) as [r|]; [|done].
  destruct (r_stop r); [done|].
  destruct (st_jobs s !! r_jobId r) as [j|]; [|done].
  by destruct (job_subscriber cfg r j).
Qed.

Lemma placeholder_None cfg jobId :
  outputState (placeholder cfg jobId) = OutputState.None.
Proof. done. Qed.

Lemma Inv_results cfg s :
  Inv cfg s → all_stopped s → Inv cfg (results cfg s).
Proof.
  intros [Ht Hd Hl Hr He] Hst. unfold results.
  destruct (st_jobIdAndMeta s) as [p|] eqn:Hp.
  - rewrite results_poll_with_resultsCleanup. apply Inv_results_poll.
    + split.
      * eapply TInv_frame_runs; [done..|]. simpl. rewrite length_app. lia.
      * by eapply DInv_frame.
      * by eapply DLive_frame.
      * destruct Hr as [Hla Hli Hsu Hge]. split; simpl.
        -- intros k [= <-]. rewrite length_app. simpl. lia.
        -- intros k r [[? Hk]|[-> <-]]%lookup_snoc_Some Hs.
           ++ specialize (Hst _ _ Hk). congruence.
           ++ split; [done|]. by exists p.
        -- intros k r [[? Hk]|[-> <-]]%lookup_snoc_Some; [eauto|done].
        -- intros k r [[? Hk]|[-> <-]]%lookup_snoc_Some; [eauto|]. simpl.
           by apply (dinv_published _ _ Hd).
      * apply (EInv_frame cfg (emit (p_gen p) (placeholder cfg (p_jobId p)) s));
          try done.
        apply EInv_emit; [done..|]. intros _ Hc. by rewrite placeholder_None in Hc.
    + simpl. intros ([due t] & Heq & Hin)%list_elem_of_fmap. simpl in *. subst.
      apply (tinv_poll _ Ht) in Hin. lia.
  - split; try done.
    + by eapply TInv_frame_runs.
    + by eapply DInv_frame.
    + destruct Hr as [Hla Hli Hsu Hge]. split; simpl; try done.
      intros k r Hk Hs. specialize (Hst _ _ Hk). congruence.
    + by eapply EInv_frame.
Qed.

Lemma Inv_results_cleanup cfg s :
  Inv cfg s → Inv cfg (results_cleanup s) ∧ all_stopped (results_cleanup s).
Proof.
  intros [Ht Hd Hl Hr He].
  destruct (results_cleanup_side s) as (Hside & Etim & Eem & Eres & Ecl & Elen).
  destruct (RInv_results_cleanup s Hr) as [Hr' Hst].
  destruct (dispatch_side_inv cfg _ _ Hside Hd Hl) as [Hd' Hl'].
  injection Hside as En Ei Ec Er Edcl Ep Es Ej.
  split; [split|]; try done.
  - eapply TInv_frame_runs; [done..|]. by rewrite Elen.
  - eapply EInv_frame; [done..|]. by rewrite Es.
Qed.

Lemma Inv_results_sync cfg s : Inv cfg s → Inv cfg (results_sync cfg s).
Proof.
  intros H. destruct (Inv_results_cleanup cfg s H). by apply Inv_results.
Qed.

(** *** Publishing *)

Lemma results_cleanup_with_published p s :
  results_cleanup (with_published p s) = with_published p (results_cleanup s).
Proof.
  unfold results_cleanup. simpl. by destruct (st_resultsCleanup s).
Qed.

Lemma Inv_with_published cfg p s :
  Inv cfg s → all_stopped s →
  p_gen p < length (st_dispatchRuns s) →
  (p_gen p, p_input p) ∈ st_submitted s →
  (∀ p0, st_jobIdAndMeta s = Some p0 → p_gen p0 ≤ p_gen p) →
  Inv cfg (with_published p s).
Proof.
  intros [Ht Hd Hl Hr He] Hst Hlt Hin Hle. split.
  - by eapply TInv_frame_runs.
  - destruct Hd. split; simpl; try done. by intros p' [= <-].
  - by eapply DLive_frame.
  - by apply RInv_with_published.
  - destruct He as [Hel Hes Hep]. split; simpl; try done.
    intros e (p0 & Hp0 & ?)%Hel. exists p. split; [done|].
    specialize (Hle _ Hp0). lia.
Qed.

Lemma Inv_publish cfg k r p s :
  Inv cfg s → st_dispatchRuns s !! k = Some r →
  st_dispatchCleanup s = Some k →
  (k, d_input r) ∈ st_submitted s →
  p_gen p = k → p_input p = d_input r →
  Inv cfg (results_sync cfg (with_published p s)).
Proof.
  intros H Hk Hc Hin Hg Hi. unfold results_sync.
  rewrite results_cleanup_with_published.
  destruct (Inv_results_cleanup cfg s H) as [H1 Hst].
  destruct (results_cleanup_side s) as (Hside & _).
  injection Hside as En Ei Ec Er Edcl Ep Es Ej.
  apply Inv_results; [|done].
  apply Inv_with_published; try done.
  - rewrite Er, Hg. by eapply lookup_lt_Some.
  - by rewrite Es, Hg, Hi.
  - intros p0. rewrite Ep. intros Hp0.
    destruct H as [_ Hd _ _ _].
    apply (dinv_published _ _ Hd) in Hp0 as [Hlt _].
    apply (dinv_last _ _ Hd) in Hc. lia.
Qed.

Lemma Inv_dispatch_resolved cfg k jobId meta s :
  Inv cfg s → Inv cfg (dispatch_resolved cfg k jobId meta s).
Proof.
  intros [Ht Hd Hl Hr He]. unfold dispatch_resolved.
  destruct (st_dispatchRuns s !! k) as [r|] eqn:Hk; [|done].
  destruct (d_at r) eqn:Ha; try done.
  assert (∀ due, (due, TDispatch k) ∉ st_timers s) as Hno.
  { intros due Hin. destruct (tinv_dispatch _ Ht _ _ Hin) as (r' & ? & ?). congruence. }
  pose proof (dinv_cancel _ _ Hd _ _ Hk) as Hcan. rewrite Ha in Hcan.
  assert (d_cancel r ≠ cancel_noop) as Hnn by (destruct Hcan; congruence).
  pose proof (dinv_submitted _ _ Hd _ _ Hk Hnn) as Hsub.
  pose proof (dinv_request _ _ Hd _ _ Hk Ha) as Hs.
  assert (st_dispatchCleanup s = Some k) as Hcl
    by (eapply (dinv_live _ _ Hd); [done..|congruence]).
  assert (∀ c, (variant cfg = InspectifyApp → c ≠ cancel_abort_jobsCancel) →
            Inv cfg (update_dispatchRun k (d_resolved c jobId) s)) as Hupd.
  { intros c Hc. split.
    - by apply TInv_alter_dispatch.
    - eapply DInv_alter; simpl; try done.
    - eapply DLive_alter; simpl; try done.
    - by eapply RInv_frame.
    - by eapply EInv_frame. }
  destruct (variant cfg) eqn:HV.
  - eapply (Inv_publish cfg k (d_resolved (cancel_jobsCancel jobId) jobId r));
      simpl; try done.
    + by apply Hupd.
    + by rewrite list_lookup_alter_eq, Hk.
  - assert (Inv cfg (update_dispatchRun k (d_resolved (d_cancel r) jobId) s)) as H1
      by (apply Hupd; congruence).
    case_decide; [done|].
    eapply (Inv_publish cfg k (d_resolved (d_cancel r) jobId r)); simpl; try done.
    by rewrite list_lookup_alter_eq, Hk.
Qed.

(** *** Record notifications *)

Lemma notify_run_side cfg id j s r :
  dispatch_side (notify_run cfg id j s r) = dispatch_side s ∧
  st_timers (notify_run cfg id j s r) = st_timers s ∧
  st_resultsRuns (notify_run cfg id j s r) = st_resultsRuns s ∧
  st_resultsCleanup (notify_run cfg id j s r) = st_resultsCleanup s.
Proof.
  unfold notify_run. destruct (r_sub r); try done.
  case_decide; [|done]. by destruct (job_subscriber cfg r j).
Qed.

Lemma Inv_notify_run cfg id j s k r :
  Inv cfg s → st_resultsRuns s !! k = Some r → Inv cfg (notify_run cfg id j s r).
Proof.
  intros [Ht Hd Hl Hr He] Hk.
  destruct (notify_run_side cfg id j s r) as (Hside & Etim & Err & Erc).
  destruct (dispatch_side_inv cfg _ _ Hside Hd Hl) as [Hd' Hl'].
  injection Hside as En Ei Ec Er Edcl Ep Es Ej.
  split; try done.
  - eapply TInv_frame_runs; [done..|]. by rewrite Err.
  - eapply RInv_frame; [done..|]. by rewrite Es.
  - unfold notify_run. destruct (r_sub r) eqn:Hb; try done.
    case_decide; [|done].
    pose proof (rinv_sub _ Hr _ _ Hk Hb) as Hs.
    destruct (rinv_live _ Hr _ _ Hk Hs) as [Hc (p & Hp & Hg & Hj & Hi)].
    destruct (job_subscriber cfg r j) as [x|] eqn:Hx; simpl; [|done].
    rewrite Hg. apply EInv_emit; [done..|].
    intros HA _. destruct (job_subscriber_pin _ _ _ _ Hx HA) as (? & _).
    exists (r_cachedInput r). split; [done|]. rewrite <-Hg. by eapply rinv_gen.
Qed.

Lemma Inv_notify_record cfg id j s :
  Inv cfg s → Inv cfg (notify_record cfg id j s).
Proof.
  unfold notify_record. intros H.
  assert (∀ l s0, Inv cfg s0 → st_resultsRuns s0 = st_resultsRuns s →
            (∀ r, r ∈ l → r ∈ st_resultsRuns s) →
            Inv cfg (foldl (notify_run cfg id j) s0 l)) as Hfold.
  { induction l as [|r l IH]; intros s0 H0 E0 Hl; simpl; [done|].
    destruct (list_elem_of_lookup_1 (st_resultsRuns s) r) as [k Hk];
      [apply Hl; by left|].
    apply IH.
    - eapply Inv_notify_run; [done|]. by rewrite E0.
    - destruct (notify_run_side cfg id j s0 r) as (_ & _ & -> & _). done.
    - intros r' Hr'. apply Hl. by right. }
  by apply Hfold.
Qed.

Lemma Inv_with_jobs cfg m s : Inv cfg s → Inv cfg (with_jobs m s).
Proof.
  intros [Ht Hd Hl Hr He]. split.
  - by eapply TInv_frame_runs.
  - by eapply DInv_frame.
  - by eapply DLive_frame.
  - by eapply RInv_frame.
  - by eapply EInv_frame.
Qed.

(** *** Letting time pass *)

#[local] Arguments Nat.div : simpl never.

Lemma fire_timers cfg task s :
  st_now (fire cfg task s) = st_now s ∧
  (st_timers (fire cfg task s) = st_timers s ∨
   ∃ k, st_timers (fire cfg task s) = st_timers s ++ [(st_now s + quiet, TPoll k)]).
Proof.
  destruct task as [k|k]; simpl.
  - unfold dispatch_timer. destruct (st_dispatchRuns s !! k) as [r|]; [|by auto].
    destruct (d_stop r); by auto.
  - unfold results_poll. destruct (st_resultsRuns s !! k) as [r|]; [|by auto].
    destruct (r_stop r); [by auto|].
    destruct (st_jobs s !! r_jobId r) as [j|]; [|by eauto].
    destruct (job_subscriber cfg r j); by auto.
Qed.

Lemma due_count_app t l1 l2 :
  due_count t (l1 ++ l2) = due_count t l1 + due_count t l2.
Proof.
  induction l1 as [|e l1 IH]; simpl; [done|]. rewrite IH. lia.
Qed.

Lemma due_again t due :
  due ≤ t → due_count t [(due + quiet, TPoll 0)] ≤ (t - due) / quiet.
Proof.
  intros Hle. simpl. case_decide; [|lia].
  replace (t - due) with ((t - (due + quiet)) + 1 * quiet) by (unfold quiet in *; lia).
  rewrite Nat.div_add by done. lia.
Qed.

Lemma due_count_fire cfg t s due task rest :
  st_timers s = (due, task) :: rest → due ≤ t →
  due_count t (st_timers (fire cfg task (with_now due (with_timers rest s))))
  < due_count t (st_timers s).
Proof.
  intros Ht Hle. rewrite Ht.
  destruct (fire_timers cfg task (with_now due (with_timers rest s)))
    as [_ [->|[k ->]]]; simpl.
  - rewrite decide_True by done. lia.
  - rewrite due_count_app, decide_True by done.
    pose proof (due_again t due Hle). simpl in *. lia.
Qed.

(** With the fuel [step] gives it, [advance] fires every timer that is
    due: it ends by setting the clock, with the oldest timer not yet due. *)
Lemma advance_elim cfg (P Q : State → Prop) t :
  (∀ s due task rest,
      P s → st_timers s = (due, task) :: rest → due ≤ t →
      P (fire cfg task (with_now due (with_timers rest s)))) →
  (∀ s, P s →
        match st_timers s with
        | (due, _) :: _ => t < due
        | [] => True
        end → Q (with_now t s)) →
  ∀ fuel s, due_count t (st_timers s) ≤ fuel → P s → Q (advance cfg fuel t s).
Proof.
  intros Hfire Hstop. induction fuel as [|fuel IH]; intros s Hf Hs; simpl.
  - destruct (st_timers s) as [|[due task] rest] eqn:Ht.
    + apply Hstop; [done|]. by rewrite Ht.
    + destruct (decide (due ≤ t)).
      * exfalso. simpl in Hf. rewrite decide_True in Hf by done. lia.
      * apply Hstop; [done|]. rewrite Ht. lia.
  - destruct (st_timers s) as [|[due task] rest] eqn:Ht.
    + apply Hstop; [done|]. by rewrite Ht.
    + destruct (decide (due ≤ t)).
      * apply IH; [|by eapply Hfire].
        pose proof (due_count_fire cfg t s due task rest Ht l) as Hlt.
        rewrite Ht in Hlt. lia.
      * apply Hstop; [done|]. rewrite Ht. lia.
Qed.

Lemma Inv_fire cfg s due task rest :
  Inv cfg s → st_timers s = (due, task) :: rest →
  Inv cfg (fire cfg task (with_now due (with_timers rest s))).
Proof.
  intros H Ht. pose proof (Inv_pop cfg s due task rest H Ht) as Hp.
  destruct H as [HT _ _ _ _].
  destruct (TInv_pop s due task rest HT Ht) as [_ Hno].
  destruct task as [k|k]; simpl.
  - apply Inv_dispatch_timer; [done| |].
    + apply (tinv_dispatch _ HT due k). rewrite Ht. by left.
    + intros due' Hin. apply Hno. simpl.
      by apply (list_elem_of_fmap_2' snd _ (due', TDispatch k)).
  - by apply Inv_results_poll.
Qed.

Lemma Inv_with_now cfg t s :
  Inv cfg s → st_now s ≤ t →
  match st_timers s with
  | (due, _) :: _ => t < due
  | [] => True
  end →
  Inv cfg (with_now t s).
Proof.
  intros [Ht Hd Hl Hr He] Hle Hhd. split.
  - destruct Ht as [Hso Hbo Hnd Hdi Hpo]. split; simpl; try done.
    intros e He'. destruct (Hbo e He') as [H1 H2].
    apply list_elem_of_lookup in He' as [i Hi].
    destruct (st_timers s) as [|[due task] rest] eqn:Hts; [done|].
    specialize (Hso 0 i (due, task) e). simpl in Hso.
    split; [|lia]. assert (due ≤ e.1) by (apply Hso; [lia|done..]). lia.
  - by eapply DInv_frame.
  - by eapply DLive_frame.
  - by eapply RInv_frame.
  - by eapply EInv_frame.
Qed.

Lemma Inv_advance cfg t s :
  Inv cfg s → st_now s ≤ t →
  Inv cfg (advance cfg (due_count t (st_timers s)) t s).
Proof.
  intros H Hle.
  apply (advance_elim cfg (λ s, Inv cfg s ∧ st_now s ≤ t) (Inv cfg) t);
    [| |done|done].
  - intros s0 due task rest [H0 Hle0] Ht Hdue. split; [by apply Inv_fire|].
    destruct (fire_timers cfg task (with_now due (with_timers rest s0))) as [-> _].
    done.
  - intros s0 [H0 Hle0] Hhd. by apply Inv_with_now.
Qed.

(** *** What is thrown, and what blocks the queue *)

Lemma results_poll_fresh_logs cfg k s r :
  st_resultsRuns s !! k = Some r → r_stop r = false →
  other_logs (results_poll cfg k s) = other_logs s.
Proof.
  intros Hk Hs. unfold results_poll. rewrite Hk, Hs.
  destruct (st_jobs s !! r_jobId r) as [j|]; [|done].
  by destruct (job_subscriber cfg r j).
Qed.

Lemma results_cleanup_logs s : other_logs (results_cleanup s) = other_logs s.
Proof. unfold results_cleanup. by destruct (st_resultsCleanup s). Qed.

Lemma results_sync_logs cfg s : other_logs (results_sync cfg s) = other_logs s.
Proof.
  unfold results_sync, results. rewrite <-(results_cleanup_logs s).
  destruct (st_jobIdAndMeta (results_cleanup s)) as [p|]; [|done].
  set (s1 := results_cleanup s).
  match goal with |- context [results_poll cfg ?k ?s0] =>
    change (other_logs (results_poll cfg k s0) = other_logs s1);
    rewrite (results_poll_fresh_logs cfg k s0 (new_resultsRun p))
  end; try done.
  simpl. by apply list_lookup_middle.
Qed.

Lemma jobIdAndMetaDerived_logs cfg s :
  other_logs (jobIdAndMetaDerived cfg s) = other_logs s ∧
  st_jobIdAndMeta (jobIdAndMetaDerived cfg s) = st_jobIdAndMeta s ∧
  st_emitted (jobIdAndMetaDerived cfg s) = st_emitted s ∧
  st_results (jobIdAndMetaDerived cfg s) = st_results s.
Proof. unfold jobIdAndMetaDerived. by destruct (dispatch_guard cfg s). Qed.

Lemma fire_uncaught_kind cfg task s :
  st_uncaught (fire cfg task s) = st_uncaught s ∨
  st_uncaught (fire cfg task s) = st_uncaught s ++ [TypeError].
Proof.
  destruct task as [k|k]; simpl.
  - left. unfold dispatch_timer.
    destruct (st_dispatchRuns s !! k) as [r|]; [|done]. by destruct (d_stop r).
  - unfold results_poll. destruct (st_resultsRuns s !! k) as [r|]; [|by left].
    destruct (r_stop r); [by right|]. left.
    destruct (st_jobs s !! r_jobId r) as [j|]; [|done].
    by destruct (job_subscriber cfg r j).
Qed.

Lemma notify_record_uncaught cfg id j s :
  st_uncaught (notify_record cfg id j s) = st_uncaught s.
Proof.
  unfold notify_record. generalize (st_resultsRuns s). intros l. revert s.
  induction l as [|r l IH]; intros s; simpl; [done|]. rewrite IH.
  unfold notify_run. destruct (r_sub r); try done.
  case_decide; [|done]. by destruct (job_subscriber cfg r j).
Qed.

Lemma dispatch_cleanup_threw s : (dispatch_cleanup s).2 = true ↔ throwing s.
Proof.
  unfold dispatch_cleanup, throwing. split.
  - destruct (st_dispatchCleanup s) as [k|]; [|done].
    unfold dispatch_cancel. simpl. rewrite list_lookup_alter_eq.
    destruct (st_dispatchRuns s !! k) as [r|] eqn:Hk; [|done]. simpl.
    intros Hthrew. exists k, r. do 2 (split; [done|]).
    destruct (d_cancel r), (d_jobId r); done.
  - intros (k & r & -> & Hk & Hcan & Hj).
    unfold dispatch_cancel. simpl. rewrite list_lookup_alter_eq, Hk. simpl.
    by rewrite Hcan, Hj.
Qed.

Lemma dispatch_cleanup_uncaught s :
  st_uncaught (dispatch_cleanup s).1 =
  st_uncaught s ++ (if (dispatch_cleanup s).2 then [ReferenceError] else []).
Proof.
  unfold dispatch_cleanup.
  destruct (st_dispatchCleanup s) as [k|]; simpl; [|by rewrite app_nil_r].
  unfold dispatch_cancel, abort. simpl. rewrite list_lookup_alter_eq.
  destruct (st_dispatchRuns s !! k) as [r|]; simpl; [|by rewrite app_nil_r].
  destruct (d_cancel r), (d_at r), (d_jobId r); simpl; by rewrite ?app_nil_r.
Qed.

Lemma dispatch_sync_uncaught cfg s :
  st_uncaught (dispatch_sync cfg s) =
  st_uncaught s ++ (if (dispatch_cleanup s).2 then [ReferenceError] else []).
Proof.
  pose proof (dispatch_cleanup_uncaught s) as Hun.
  unfold dispatch_sync. destruct (dispatch_cleanup s) as [s1 threw]. simpl in *.
  destruct threw; [done|].
  destruct (jobIdAndMetaDerived_logs cfg s1) as (Hlogs & _).
  by injection Hlogs as _ _ _ ->.
Qed.

Lemma quiesced_frame s s' :
  st_dispatchRuns s' = st_dispatchRuns s → quiesced s → quiesced s'.
Proof. unfold quiesced. by intros ->. Qed.

Lemma throwing_frame s s' :
  st_dispatchRuns s' = st_dispatchRuns s →
  st_dispatchCleanup s' = st_dispatchCleanup s → throwing s → throwing s'.
Proof. unfold throwing. by intros -> ->. Qed.

Lemma SInv_frame s s' :
  st_uncaught s' = st_uncaught s → st_dispatchRuns s' = st_dispatchRuns s →
  st_dispatchCleanup s' = st_dispatchCleanup s → SInv s → SInv s'.
Proof.
  intros Eu Er Ec Hs Hst. rewrite (stuck_frame s s') in Hst by done.
  destruct (Hs Hst). split; [by eapply quiesced_frame|by eapply throwing_frame].
Qed.

(** The cleanup that throws leaves no run on its way, and stays
    registered with its [jobId] as it was. *)
Lemma SInv_dispatch_sync cfg s :
  DInv cfg s → stuck s = false → SInv (dispatch_sync cfg s).
Proof.
  intros Hd Hn Hst.
  pose proof (dispatch_sync_uncaught cfg s) as Hun.
  destruct (DInv_dispatch_cleanup cfg s Hd) as [_ Hq].
  pose proof (dispatch_cleanup_threw s) as Hthrew.
  pose proof (dispatch_cleanup_outside s) as Hout.
  pose proof (dispatch_cleanup_runs s) as Hruns.
  unfold dispatch_sync in *. destruct (dispatch_cleanup s) as [s1 threw]. simpl in *.
  destruct threw.
  - split; [done|]. destruct Hthrew as [(k & r & Hc & Hk & Hcan & Hj) _]; [done|].
    injection Hout as _ _ _ _ _ Ecl _ _ _ _ _ _.
    exists k, (cleaned r). rewrite Ecl, Hruns, Hc, list_lookup_alter_eq, Hk.
    do 2 (split; [done|]). unfold cleaned. rewrite Hcan.
    by destruct (d_at r).
  - rewrite app_nil_r in Hun. rewrite (stuck_frame s) in Hst by done. congruence.
Qed.

(** With the queue blocked no request is under way. *)
Lemma stuck_no_request cfg s k r :
  DInv cfg s → SInv s → stuck s = true →
  st_dispatchRuns s !! k = Some r → d_at r ≠ await_request.
Proof.
  intros Hd Hs Hst Hk Ha. destruct (Hs Hst) as [Hq _].
  pose proof (dinv_request _ _ Hd _ _ Hk Ha).
  destruct (Hq _ _ Hk); congruence.
Qed.

Lemma SInv_dispatch_resolved cfg k jobId meta s :
  DInv cfg s → SInv s → SInv (dispatch_resolved cfg k jobId meta s).
Proof.
  intros Hd Hs. unfold dispatch_resolved.
  destruct (st_dispatchRuns s !! k) as [r|] eqn:Hk; [|done].
  destruct (d_at r) eqn:Ha; try done.
  apply not_stuck_SInv.
  assert (stuck s = false) as Hn.
  { destruct (stuck s) eqn:Hst; [|done].
    by destruct (stuck_no_request cfg s k r Hd Hs Hst Hk). }
  rewrite <-Hn. apply stuck_frame.
  destruct (variant cfg); [|case_decide; [done|]];
    match goal with |- context [results_sync cfg ?s0] =>
      pose proof (results_sync_logs cfg s0) as Hlogs end;
    by injection Hlogs as _ _ _ ->.
Qed.

Lemma SInv_dispatch_rejected cfg k message s :
  DInv cfg s → SInv s → SInv (dispatch_rejected k message s).
Proof.
  intros Hd Hs. unfold dispatch_rejected.
  destruct (st_dispatchRuns s !! k) as [r|] eqn:Hk; [|done].
  destruct (d_at r) eqn:Ha; try done.
  intros Hst. apply stuck_true in Hst. simpl in Hst.
  apply elem_of_app in Hst as [Hst|Hst%list_elem_of_singleton]; [|done].
  apply stuck_true in Hst.
  by destruct (stuck_no_request cfg s k r Hd Hs Hst Hk).
Qed.

Lemma SInv_fire cfg s due task rest :
  Inv cfg s → SInv s → st_timers s = (due, task) :: rest →
  SInv (fire cfg task (with_now due (with_timers rest s))).
Proof.
  intros H Hs Ht. set (sp := with_now due (with_timers rest s)).
  assert (SInv sp) as Hsp by (by eapply SInv_frame).
  destruct task as [k|k]; simpl.
  - unfold dispatch_timer. simpl.
    destruct (st_dispatchRuns s !! k) as [r|] eqn:Hk; [|done].
    destruct (d_stop r) eqn:Hstop.
    + intros Hst. destruct (Hsp Hst) as [Hq (k0 & r0 & Hc0 & Hk0 & Hcan & Hj)].
      subst sp. simpl in *. split.
      * intros k' r' [[-> (r1 & ? & ->)]|[_ Hk']]%lookup_alter_Some;
          [by right|by apply (Hq k')].
      * destruct (decide (k0 = k)) as [->|Hne].
        -- exists k, (d_set_at settled r0). simpl.
           rewrite list_lookup_alter_eq, Hk0. done.
        -- exists k0, r0. simpl. by rewrite list_lookup_alter_ne.
    + intros Hst. destruct (Hsp Hst) as [Hq _]. exfalso.
      subst sp. simpl in *. destruct H as [HT _ _ _ _].
      destruct (tinv_dispatch _ HT due k) as (r' & Hk' & Ha');
        [rewrite Ht; by left|].
      assert (r' = r) as -> by congruence.
      destruct (Hq _ _ Hk); congruence.
  - pose proof (results_poll_side cfg k sp) as Hside.
    destruct (fire_uncaught_kind cfg (TPoll k) sp) as [Hun|Hun]; simpl in Hun.
    + eapply SInv_frame; [done| | |done]; by injection Hside.
    + intros Hst. apply stuck_true in Hst. rewrite Hun in Hst.
      apply elem_of_app in Hst as [Hst|Hst%list_elem_of_singleton]; [|done].
      apply stuck_true in Hst. destruct (Hsp Hst).
      injection Hside as _ _ _ Er Ec _ _ _.
      split; [by eapply quiesced_frame|by eapply throwing_frame].
Qed.

(** The timers throw no ReferenceError. *)
Lemma advance_stuck cfg fuel t s : stuck (advance cfg fuel t s) = stuck s.
Proof.
  revert s. induction fuel as [|fuel IH]; intros s; simpl;
    destruct (st_timers s) as [|[due task] rest]; try done;
    case_decide; try done.
  rewrite IH.
  destruct (fire_uncaught_kind cfg task (with_now due (with_timers rest s)))
    as [E|E]; [by apply stuck_frame|].
  unfold stuck. rewrite E. simpl. apply bool_decide_ext.
  rewrite elem_of_app, list_elem_of_singleton. split; [|by left].
  by intros [?|?].
Qed.

Lemma SInv_advance cfg t s :
  Inv cfg s → SInv s → st_now s ≤ t →
  SInv (advance cfg (due_count t (st_timers s)) t s).
Proof.
  intros H Hs Hle.
  apply (advance_elim cfg (λ s, Inv cfg s ∧ SInv s) SInv t); [| |done|done].
  - intros s0 due task rest [H0 Hs0] Ht Hdue.
    split; [by apply Inv_fire|by apply SInv_fire].
  - intros s0 [H0 Hs0] _. by eapply SInv_frame.
Qed.

(** *** A step keeps the invariant *)

(** A value stored with nobody told: the invariant stands if no run of
    the dispatcher is on its way. *)
Lemma Inv_stored cfg s s' :
  st_timers s' = st_timers s → st_now s' = st_now s →
  st_dispatchRuns s' = st_dispatchRuns s →
  st_dispatchCleanup s' = st_dispatchCleanup s →
  st_jobIdAndMeta s' = st_jobIdAndMeta s → st_submitted s' = st_submitted s →
  st_resultsRuns s' = st_resultsRuns s →
  st_resultsCleanup s' = st_resultsCleanup s → st_emitted s' = st_emitted s →
  quiesced s → Inv cfg s → Inv cfg s'.
Proof.
  intros Et En Er Ec Ep Es Err Erc Ee Hq [Ht Hd Hl Hr He]. split.
  - eapply TInv_frame_runs; [done..|]. by rewrite Err.
  - eapply DInv_frame; [done..|]. by rewrite Es.
  - apply quiesced_DLive. by eapply quiesced_frame.
  - eapply RInv_frame; [done..|]. by rewrite Es.
  - eapply EInv_frame; [done..|]. by rewrite Es.
Qed.

Lemma Inv_step cfg s e : Inv cfg s → SInv s → Inv cfg (step cfg s e).
Proof.
  intros H HS. destruct e as [d|v|c|k jobId meta|k message|id j|]; simpl.
  - apply Inv_advance; [done|lia].
  - unfold run_queue. change (stuck (with_input v s)) with (stuck s).
    destruct (stuck s) eqn:Hst.
    { destruct (HS Hst) as [Hq _]. by apply (Inv_stored cfg s). }
    destruct H as [Ht Hd Hl Hr He]. apply Inv_dispatch_sync.
    + by eapply TInv_frame_runs.
    + by eapply DInv_frame.
    + by eapply RInv_frame.
    + by eapply EInv_frame.
  - destruct (variant cfg) eqn:HV.
    + unfold run_queue. change (stuck (with_compilationStatus c s)) with (stuck s).
      destruct (stuck s) eqn:Hst.
      { destruct (HS Hst) as [Hq _]. by apply (Inv_stored cfg s). }
      destruct H as [Ht Hd Hl Hr He].
      apply Inv_dispatch_sync.
      * by eapply TInv_frame_runs.
      * by eapply DInv_frame.
      * by eapply RInv_frame.
      * by eapply EInv_frame.
    + destruct H as [Ht Hd Hl Hr He]. split.
      * by eapply TInv_frame_runs.
      * by eapply DInv_frame.
      * intros k r Hk Hs Ha. destruct (Hl k r Hk Hs Ha) as [H1 H2].
        split; [done|]. intros Hat. specialize (H2 Hat).
        unfold dispatch_guard in *. by rewrite HV in *.
      * by eapply RInv_frame.
      * by eapply EInv_frame.
  - by apply Inv_dispatch_resolved.
  - by apply Inv_dispatch_rejected.
  - apply run_queue_ind; [by apply Inv_with_jobs|].
    by apply Inv_notify_record, Inv_with_jobs.
  - apply run_queue_ind; [done|]. by apply Inv_results_sync.
Qed.

Lemma Inv_init cfg defaultInput status registry :
  Inv cfg (initializeIo cfg defaultInput status registry).
Proof.
  unfold initializeIo. apply Inv_results_sync. apply Inv_jobIdAndMetaDerived.
  - split; simpl; try done.
    + intros e He. by apply elem_of_nil in He.
    + constructor.
    + intros due k He. by apply elem_of_nil in He.
    + intros due k He. by apply elem_of_nil in He.
  - by split.
  - by intros k r Hk.
  - by split.
  - split; simpl; try done.
    + intros e He. by apply elem_of_nil in He.
    + intros _ e He. by apply elem_of_nil in He.
Qed.

(** *** What a run of the results callback does *)

Lemma results_sync_spec cfg s p :
  st_jobIdAndMeta s = Some p →
  let k := length (st_resultsRuns s) in
  let s' := results_sync cfg s in
  st_emitted s' =
    st_emitted s ++ (p_gen p, placeholder cfg (p_jobId p)) :: first_look cfg p (st_jobs s) ∧
  st_resultsCleanup s' = Some k ∧
  (∃ r', st_resultsRuns s' !! k = Some r' ∧
         r_gen r' = p_gen p ∧ r_jobId r' = p_jobId p ∧
         r_cachedInput r' = p_input p ∧ r_stop r' = false ∧
         r_sub r' = match st_jobs s !! p_jobId p with
                    | Some _ => subscribed
                    | None => no_subscription
                    end ∧
         r_polling r' = bool_decide (st_jobs s !! p_jobId p = None)) ∧
  (∀ k0 r0, st_resultsCleanup s = Some k0 → st_resultsRuns s !! k0 = Some r0 →
            st_resultsRuns s' !! k0 = Some (r_cancel (r_set_stop r0))) ∧
  dispatch_side s' = dispatch_side s.
Proof.
  intros Hp k s'. subst s'. unfold results_sync, results.
  destruct (results_cleanup_side s) as (Hside & Etim & Eem & Eres & Ecl & Elen).
  pose proof Hside as Hside'.
  injection Hside' as En Ei Ec Er Edcl Ep Es Ej.
  rewrite Ep, Hp, Elen. fold k.
  assert (∀ k0 r0, st_resultsCleanup s = Some k0 → st_resultsRuns s !! k0 = Some r0 →
            st_resultsRuns (results_cleanup s) !! k0 = Some (r_cancel (r_set_stop r0)))
    as Hold.
  { intros k0 r0 Hc Hk0. unfold results_cleanup. rewrite Hc. simpl.
    by rewrite list_lookup_alter_eq, Hk0. }
  set (s1 := results_cleanup s) in *.
  set (s2 := emit (p_gen p) (placeholder cfg (p_jobId p))
               (with_resultsRuns (st_resultsRuns s1 ++ [new_resultsRun p]) s1)).
  assert ((st_resultsRuns s1 ++ [new_resultsRun p]) !! k = Some (new_resultsRun p))
    as Hk by (by apply list_lookup_middle).
  assert (∀ f k0 r0, st_resultsCleanup s = Some k0 → st_resultsRuns s !! k0 = Some r0 →
            alter f k (st_resultsRuns s1 ++ [new_resultsRun p]) !! k0
            = Some (r_cancel (r_set_stop r0))) as Hold'.
  { intros f k0 r0 Hc Hk0. specialize (Hold _ _ Hc Hk0).
    rewrite list_lookup_alter_ne; [by apply lookup_app_l_Some|].
    apply lookup_lt_Some in Hold. lia. }
  unfold results_poll, first_look. subst s2. simpl. rewrite Hk. simpl. rewrite Ej.
  destruct (st_jobs s !! p_jobId p) as [j|] eqn:Hj; simpl.
  - destruct (job_subscriber cfg (new_resultsRun p) j) as [x|]; simpl;
      rewrite ?Eem, <-?app_assoc, list_lookup_alter_eq, Hk; simpl;
      (split; [done|]); (split; [done|]); (split; [by eexists|]);
      (split; [by apply Hold'|by rewrite <-Hside]).
  - rewrite Eem, list_lookup_alter_eq, Hk. simpl.
    split; [done|]. split; [done|]. split; [by eexists|].
    split; [by apply Hold'|by rewrite <-Hside].
Qed.

(** *** Who hears of a record *)

Lemma foldl_notify_idle cfg id j l s :
  (∀ r, r ∈ l → r_sub r = subscribed → r_jobId r ≠ id) →
  foldl (notify_run cfg id j) s l = s.
Proof.
  induction l as [|r l IH]; intros Hl; simpl; [done|].
  rewrite <-IH at 2 by (intros r' ?; apply Hl; by right). f_equal.
  unfold notify_run. destruct (r_sub r) eqn:Hb; try done.
  rewrite decide_False; [done|]. apply Hl; [by left|done].
Qed.

(** In a reachable state at most one run is subscribed: the current one. *)
Lemma subscribed_current cfg s k r :
  Inv cfg s → st_resultsRuns s !! k = Some r → r_sub r = subscribed →
  st_resultsCleanup s = Some k ∧
  ∃ p, st_jobIdAndMeta s = Some p ∧ r_gen r = p_gen p ∧
       r_jobId r = p_jobId p ∧ r_cachedInput r = p_input p.
Proof.
  intros [_ _ _ Hr _] Hk Hb. apply (rinv_live _ Hr _ _ Hk).
  by eapply rinv_sub.
Qed.

Lemma notify_record_subscribed cfg id j s k r :
  Inv cfg s → st_resultsRuns s !! k = Some r → r_sub r = subscribed →
  r_jobId r = id →
  notify_record cfg id j s = emit_opt (r_gen r) (job_subscriber cfg r j) s.
Proof.
  intros H Hk Hb Hid. unfold notify_record.
  assert (∀ k' r', st_resultsRuns s !! k' = Some r' → k' ≠ k →
            r_sub r' ≠ subscribed) as Hother.
  { intros k' r' Hk' Hne Hb'.
    destruct (subscribed_current cfg s k r H Hk Hb) as [Hc _].
    destruct (subscribed_current cfg s k' r' H Hk' Hb') as [Hc' _]. congruence. }
  rewrite <-(take_drop_middle _ _ _ Hk) at 1. rewrite foldl_app. simpl.
  rewrite (foldl_notify_idle cfg id j (take k _)).
  - rewrite foldl_notify_idle.
    + unfold notify_run. by rewrite Hb, decide_True.
    + intros r' [i Hi]%list_elem_of_lookup Hb'. rewrite lookup_drop in Hi.
      destruct (Hother _ _ Hi); [lia|done].
  - intros r' [i Hi]%list_elem_of_lookup Hb'.
    apply lookup_take_Some in Hi as [Hi ?].
    destruct (Hother _ _ Hi); [lia|done].
Qed.

Lemma notify_record_other cfg id j s p :
  Inv cfg s → st_jobIdAndMeta s = Some p → id ≠ p_jobId p →
  notify_record cfg id j s = s.
Proof.
  intros H Hp Hid. unfold notify_record. apply foldl_notify_idle.
  intros r [k Hk]%list_elem_of_lookup Hb.
  destruct (subscribed_current cfg s k r H Hk Hb) as [_ (p' & Hp' & _ & Hj & _)].
  congruence.
Qed.

(** *** Submissions while time passes *)

Lemma fire_env cfg task s :
  st_input (fire cfg task s) = st_input s ∧
  st_compilationStatus (fire cfg task s) = st_compilationStatus s ∧
  st_dispatchCleanup (fire cfg task s) = st_dispatchCleanup s ∧
  st_jobs (fire cfg task s) = st_jobs s ∧
  st_jobIdAndMeta (fire cfg task s) = st_jobIdAndMeta s.
Proof.
  destruct task as [k|k]; simpl.
  - unfold dispatch_timer. destruct (st_dispatchRuns s !! k) as [r|]; [|done].
    by destruct (d_stop r).
  - pose proof (results_poll_side cfg k s) as Hside.
    by injection Hside as En Ei Ec Er Edcl Ep Es Ej.
Qed.

Lemma timers_after cfg task s due k :
  (due, TDispatch k) ∈ st_timers (fire cfg task s) →
  (due, TDispatch k) ∈ st_timers s.
Proof.
  destruct (fire_timers cfg task s) as [_ [->|[k' ->]]]; [done|].
  intros [?|Heq%list_elem_of_singleton]%elem_of_app; [done|by simplify_eq].
Qed.

Lemma timers_kept cfg task s e :
  e ∈ st_timers s → e ∈ st_timers (fire cfg task s).
Proof.
  destruct (fire_timers cfg task s) as [_ [->|[k' ->]]]; [done|].
  intros ?. apply elem_of_app. by left.
Qed.

Lemma advance_dispatch cfg s t :
  Inv cfg s → st_now s ≤ t →
  let s' := advance cfg (due_count t (st_timers s)) t s in
  Inv cfg s' ∧ st_now s' = t ∧ (∀ e, e ∈ st_timers s' → t < e.1) ∧
  st_input s' = st_input s ∧
  st_compilationStatus s' = st_compilationStatus s ∧
  st_dispatchCleanup s' = st_dispatchCleanup s ∧
  (waited_quietly s s' ∨ waited_and_submitted s t s').
Proof.
  intros H Hle.
  set (P := λ s0 : State,
    Inv cfg s0 ∧ st_now s0 ≤ t ∧ st_input s0 = st_input s ∧
    st_compilationStatus s0 = st_compilationStatus s ∧
    st_dispatchCleanup s0 = st_dispatchCleanup s ∧
    (∀ due k, (due, TDispatch k) ∈ st_timers s0 → (due, TDispatch k) ∈ st_timers s) ∧
    (∀ k r, st_dispatchRuns s0 !! k = Some r → d_at r = await_timer →
            st_dispatchRuns s !! k = Some r) ∧
    (waited_quietly s s0 ∨ waited_and_submitted s t s0)).
  apply (advance_elim cfg P); [| |done|].
  - (* the oldest timer fires *)
    intros s0 due task rest (H0 & Hle0 & Ei & Ec & Ecl & M1 & M2 & Halt) Ht Hdue.
    pose proof (Inv_fire cfg s0 due task rest H0 Ht) as H1.
    set (sp := with_now due (with_timers rest s0)) in *.
    destruct (fire_env cfg task sp) as (Ei1 & Ec1 & Ecl1 & _ & _).
    destruct (fire_timers cfg task sp) as [En1 _].
    assert (∀ e, e ∈ rest → e ∈ st_timers s0) as Hrest
      by (intros e He; rewrite Ht; by right).
    assert ((due, task) ∈ st_timers s0) as Hhead by (rewrite Ht; by left).
    assert (task ∉ rest.*2) as Hnodup.
    { destruct H0 as [HT _ _ _ _]. by destruct (TInv_pop s0 due task rest HT Ht). }
    split; [done|]. split; [by rewrite En1|].
    split; [by rewrite Ei1|]. split; [by rewrite Ec1|]. split; [by rewrite Ecl1|].
    split; [intros due' k' Hin%timers_after; apply M1, Hrest; exact Hin|].
    destruct task as [k|k]; simpl.
    + (* a dispatcher run resumes *)
      destruct H0 as [HT HD _ _ _].
      destruct (tinv_dispatch _ HT _ _ Hhead) as (r0 & Hk0 & Ha0).
      assert (∀ k' r', st_dispatchRuns (dispatch_timer cfg k sp) !! k' = Some r' →
                d_at r' = await_timer → k' ≠ k ∧ st_dispatchRuns s0 !! k' = Some r')
        as Hother.
      { intros k' r'. unfold dispatch_timer. subst sp. simpl. rewrite Hk0.
        destruct (d_stop r0); simpl;
          intros [[-> (r1 & ? & ->)]|[? ?]]%lookup_alter_Some; simpl; by try done. }
      split; [intros k' r' Hk' Ha'; destruct (Hother _ _ Hk' Ha'); by apply M2|].
      unfold dispatch_timer in *. subst sp. simpl in *. rewrite Hk0 in *.
      destruct (d_stop r0) eqn:Hs0; simpl in *.
      * destruct Halt as [[Hsub Hkeep]|(k1 & r1 & due1 & ? & ? & ? & ? & ? & Hsub & Hstopped)].
        -- left. split; [done|]. intros k1 r1 due1 Hk1 Hs1 Ha1 Hin1.
           destruct (Hkeep _ _ _ Hk1 Hs1 Ha1 Hin1) as [Hk1' Hin1'].
           assert (k1 ≠ k) by (intros ->; congruence). simpl.
           split; [by rewrite list_lookup_alter_ne|].
           rewrite Ht in Hin1'. apply elem_of_cons in Hin1' as [?|?]; [congruence|done].
        -- right. exists k1, r1, due1. repeat split; try done.
           intros k' r' Hk' Ha'. destruct (Hother _ _ Hk' Ha'). eauto.
      * destruct Halt as [[Hsub Hkeep]|(k1 & r1 & due1 & ? & ? & ? & ? & ? & Hsub & Hstopped)].
        -- right. exists k, r0, due.
           split; [by apply M2|]. split; [done|]. split; [done|].
           split; [by apply M1|]. split; [done|].
           split; [simpl; by rewrite Hsub|].
           intros k' r' Hk' Ha'. destruct (Hother _ _ Hk' Ha') as [Hne Hk0'].
           destruct (d_stop r') eqn:Hs'; [done|].
           assert (st_dispatchCleanup s0 = Some k')
             by (eapply (dinv_live _ _ HD); [done..|congruence]).
           assert (st_dispatchCleanup s0 = Some k)
             by (eapply (dinv_live _ _ HD); [done..|congruence]).
           congruence.
        -- specialize (Hstopped _ _ Hk0 Ha0). congruence.
    + (* a results run resumes *)
      pose proof (results_poll_side cfg k sp) as Hside.
      injection Hside as En Ei' Ec' Er Edcl Ep Es Ej.
      rewrite Er. split; [done|].
      destruct Halt as [[Hsub Hkeep]|(k1 & r1 & due1 & ? & ? & ? & ? & ? & Hsub & Hstopped)].
      * left. split; [by rewrite Es|]. intros k1 r1 due1 Hk1 Hs1 Ha1 Hin1.
        destruct (Hkeep _ _ _ Hk1 Hs1 Ha1 Hin1) as [Hk1' Hin1'].
        split; [by rewrite Er|].
        apply (timers_kept cfg (TPoll k) sp). subst sp. simpl.
        rewrite Ht in Hin1'. apply elem_of_cons in Hin1' as [?|?]; [congruence|done].
      * right. exists k1, r1, due1. repeat split; try done; [by rewrite Es|].
        by rewrite Er.
  - (* no timer is due any more *)
    intros s0 (H0 & Hle0 & Ei & Ec & Ecl & M1 & M2 & Halt) Hhd.
    split; [by apply Inv_with_now|]. split; [done|]. split; [|done].
    simpl. intros e [i Hi]%list_elem_of_lookup.
    destruct (st_timers s0) as [|[due task] rest] eqn:Hts; [done|].
    destruct H0 as [[Hso _ _ _ _] _ _ _ _]. rewrite Hts in Hso.
    specialize (Hso 0 i (due, task) e). simpl in Hso.
    assert (due ≤ e.1) by (apply Hso; [lia|done..]). lia.
  - (* at the start *)
    subst P. simpl. do 7 (split; [done|]). left. split; [done|]. by intros.
Qed.

Lemma results_sync_side cfg s :
  dispatch_side (results_sync cfg s) = dispatch_side s.
Proof.
  destruct (st_jobIdAndMeta s) as [p|] eqn:Hp.
  - by destruct (results_sync_spec cfg s p Hp) as (_ & _ & _ & _ & ?).
  - unfold results_sync, results.
    destruct (results_cleanup_side s) as (Hside & _).
    pose proof Hside as Hside'.
    injection Hside' as En Ei Ec Er Edcl Ep Es Ej.
    by rewrite Ep, Hp, <-Hside.
Qed.

Lemma notify_record_side cfg id j s :
  dispatch_side (notify_record cfg id j s) = dispatch_side s.
Proof.
  unfold notify_record. generalize (st_resultsRuns s). intros l. revert s.
  induction l as [|r l IH]; intros s; simpl; [done|].
  rewrite IH. by destruct (notify_run_side cfg id j s r).
Qed.

Lemma dispatch_sync_env cfg s :
  st_now (dispatch_sync cfg s) = st_now s ∧
  st_input (dispatch_sync cfg s) = st_input s ∧
  st_compilationStatus (dispatch_sync cfg s) = st_compilationStatus s ∧
  st_submitted (dispatch_sync cfg s) = st_submitted s.
Proof.
  pose proof (dispatch_cleanup_outside s) as Hout.
  unfold dispatch_sync. destruct (dispatch_cleanup s) as [s1 threw]. simpl in *.
  injection Hout as Enow Einp Est Ejobs Etim Ecl Epub Err Erc Eres Esub Eem.
  destruct threw; [done|]. unfold jobIdAndMetaDerived.
  by destruct (dispatch_guard cfg s1).
Qed.

(** Only the passing of time submits; only the stores' own events change
    the input and the status. *)
Lemma step_env cfg s e :
  ((∀ d, e ≠ Wait d) → st_submitted (step cfg s e) = st_submitted s ∧
                        st_now (step cfg s e) = st_now s) ∧
  ((∀ c, e ≠ StatusSet c) →
   st_compilationStatus (step cfg s e) = st_compilationStatus s) ∧
  ((∀ v, e ≠ InputSet v) → st_input (step cfg s e) = st_input s).
Proof.
  destruct e as [d|v|c|k jobId meta|k message|id j|]; simpl.
  - split; [by intros Hd; destruct (Hd d)|].
    assert (∀ fuel t s0,
      st_compilationStatus (advance cfg fuel t s0) = st_compilationStatus s0 ∧
      st_input (advance cfg fuel t s0) = st_input s0) as Hadv.
    { intros fuel t.
      induction fuel as [|fuel IH]; intros s0; simpl;
        destruct (st_timers s0) as [|[due task] rest]; try done;
        case_decide; try done.
      destruct (IH (fire cfg task (with_now due (with_timers rest s0)))) as [-> ->].
      by destruct (fire_env cfg task (with_now due (with_timers rest s0)))
        as (-> & -> & _). }
    split; intros _; apply Hadv.
  - unfold run_queue. destruct (stuck _).
    { split; [done|]. split; [done|]. by intros Hv; destruct (Hv v). }
    destruct (dispatch_sync_env cfg (with_input v s)) as (E1 & E2 & E3 & E4).
    split; [done|]. split; [done|]. by intros Hv; destruct (Hv v).
  - destruct (variant cfg).
    + unfold run_queue. destruct (stuck _).
      { split; [done|]. split; [|done]. by intros Hc; destruct (Hc c). }
      destruct (dispatch_sync_env cfg (with_compilationStatus c s))
        as (E1 & E2 & E3 & E4).
      split; [done|]. split; [|done]. by intros Hc; destruct (Hc c).
    + split; [done|]. split; [|done]. by intros Hc; destruct (Hc c).
  - unfold dispatch_resolved.
    destruct (st_dispatchRuns s !! k) as [r|]; [|done].
    destruct (d_at r); try done.
    destruct (variant cfg).
    + match goal with |- context [results_sync cfg ?s0] =>
        pose proof (results_sync_side cfg s0) as Hside end.
      by injection Hside as -> -> -> _ _ _ -> _.
    + case_decide; [done|].
      match goal with |- context [results_sync cfg ?s0] =>
        pose proof (results_sync_side cfg s0) as Hside end.
      by injection Hside as -> -> -> _ _ _ -> _.
  - unfold dispatch_rejected.
    destruct (st_dispatchRuns s !! k) as [r|]; [|done].
    by destruct (d_at r).
  - unfold run_queue. destruct (stuck _); [done|].
    match goal with |- context [notify_record cfg id j ?s0] =>
      pose proof (notify_record_side cfg id j s0) as Hside end.
    by injection Hside as -> -> -> _ _ _ -> _.
  - unfold run_queue. destruct (stuck _); [done|].
    pose proof (results_sync_side cfg s) as Hside.
    by injection Hside as -> -> -> _ _ _ -> _.
Qed.

Lemma NoDup_snd_eq {A B} (l : list (A * B)) a b x :
  NoDup l.*2 → (a, x) ∈ l → (b, x) ∈ l → a = b.
Proof.
  induction l as [|[a' x'] l IH]; simpl; intros Hnd Ha Hb.
  - by apply elem_of_nil in Ha.
  - apply NoDup_cons in Hnd as [Hnotin Hnd].
    apply elem_of_cons in Ha as [Ha|Ha], Hb as [Hb|Hb]; simplify_eq; try done.
    + destruct Hnotin. by apply (list_elem_of_fmap_2' snd _ (b, x')).
    + destruct Hnotin. by apply (list_elem_of_fmap_2' snd _ (a, x')).
    + by apply IH.
Qed.

(** A run waiting unstopped for its timer submits what it captured when
    time passes its due time. *)
Lemma wait_fires cfg s d k r due :
  Inv cfg s → st_dispatchRuns s !! k = Some r → d_stop r = false →
  d_at r = await_timer → (due, TDispatch k) ∈ st_timers s →
  due ≤ st_now s + d →
  st_submitted (step cfg s (Wait d)) = st_submitted s ++ [(k, d_input r)].
Proof.
  intros H Hk Hs Ha Hin Hdue. simpl.
  destruct (advance_dispatch cfg s (st_now s + d) H) as (H' & _ & Hall & _ & _ & _ & Halt);
    [lia|].
  destruct Halt as [[_ Hkeep]|(k1 & r1 & due1 & Hk1 & Hs1 & Ha1 & _ & _ & Hsub & _)].
  - destruct (Hkeep _ _ _ Hk Hs Ha Hin) as [_ Hin'].
    apply Hall in Hin'. simpl in Hin'. lia.
  - destruct H as [_ HD _ _ _].
    assert (st_dispatchCleanup s = Some k)
      by (eapply (dinv_live _ _ HD); [done..|congruence]).
    assert (st_dispatchCleanup s = Some k1)
      by (eapply (dinv_live _ _ HD); [done..|congruence]).
    by simplify_eq.
Qed.

(** Until then nothing is submitted, and the run keeps waiting. *)
Lemma wait_holds cfg s d k r due :
  Inv cfg s → st_dispatchRuns s !! k = Some r → d_stop r = false →
  d_at r = await_timer → (due, TDispatch k) ∈ st_timers s →
  st_now s + d < due →
  let s' := step cfg s (Wait d) in
  Inv cfg s' ∧ st_submitted s' = st_submitted s ∧
  st_dispatchRuns s' !! k = Some r ∧ (due, TDispatch k) ∈ st_timers s' ∧
  st_now s' = st_now s + d ∧ st_compilationStatus s' = st_compilationStatus s ∧
  st_dispatchCleanup s' = st_dispatchCleanup s.
Proof.
  intros H Hk Hs Ha Hin Hdue. simpl.
  destruct (advance_dispatch cfg s (st_now s + d) H)
    as (H' & Hnow & Hall & _ & Hst & Hcl & Halt); [lia|].
  destruct Halt as [[Hsub Hkeep]|(k1 & r1 & due1 & Hk1 & Hs1 & Ha1 & Hin1 & Hdue1 & _)].
  - destruct (Hkeep _ _ _ Hk Hs Ha Hin) as [Hk' Hin']. done.
  - exfalso. destruct H as [HT HD _ _ _].
    assert (st_dispatchCleanup s = Some k)
      by (eapply (dinv_live _ _ HD); [done..|congruence]).
    assert (st_dispatchCleanup s = Some k1)
      by (eapply (dinv_live _ _ HD); [done..|congruence]).
    simplify_eq.
    pose proof (NoDup_snd_eq _ _ _ _ (tinv_nodup _ HT) Hin Hin1). lia.
Qed.

(** A notification of the dispatcher's dependencies, with the guards
    passed, starts a run for the input the cell holds. *)
Lemma dispatch_sync_restarts cfg s :
  (dispatch_cleanup s).2 = false → dispatch_guard cfg s = true →
  let s' := dispatch_sync cfg s in
  let k := length (st_dispatchRuns s) in
  st_dispatchRuns s' !! k =
    Some {| d_input := st_input s; d_stop := false; d_cancel := cancel_noop;
            d_at := await_timer; d_jobId := None |} ∧
  (st_now s + quiet, TDispatch k) ∈ st_timers s' ∧
  st_dispatchCleanup s' = Some k.
Proof.
  intros Hthrew Hg.
  pose proof (dispatch_cleanup_outside s) as Hout.
  pose proof (dispatch_cleanup_runs s) as Hruns.
  unfold dispatch_sync. destruct (dispatch_cleanup s) as [s1 threw]. simpl in *.
  subst threw.
  injection Hout as Enow Einp Est Ejobs Etim Ecl Epub Err Erc Eres Esub Eem.
  assert (length (st_dispatchRuns s1) = length (st_dispatchRuns s)) as Hlen.
  { rewrite Hruns. destruct (st_dispatchCleanup s); [apply length_alter|done]. }
  unfold jobIdAndMetaDerived.
  replace (dispatch_guard cfg s1) with true
    by (unfold dispatch_guard, compilation_succeeded in *; by rewrite Est).
  simpl. rewrite Hlen, Einp, Enow. split; [|split; [|done]].
  - rewrite <-Hlen. by apply list_lookup_middle.
  - apply elem_of_app. right. by left.
Qed.

Lemma cleanup_no_throw_app cfg s :
  variant cfg = InspectifyApp → DInv cfg s → (dispatch_cleanup s).2 = false.
Proof.
  intros HA Hd. unfold dispatch_cleanup.
  destruct (st_dispatchCleanup s) as [k|]; [|done].
  unfold dispatch_cancel. simpl. rewrite list_lookup_alter_eq.
  destruct (st_dispatchRuns s !! k) as [r|] eqn:Hk; [|done]. simpl.
  pose proof (dinv_app _ _ Hd HA _ _ Hk).
  by destruct (d_cancel r).
Qed.

Lemma cleanup_no_throw_timer s k r :
  st_dispatchCleanup s = Some k → st_dispatchRuns s !! k = Some r →
  d_cancel r = cancel_noop → (dispatch_cleanup s).2 = false.
Proof.
  intros Hc Hk Hn. unfold dispatch_cleanup, dispatch_cancel. rewrite Hc. simpl.
  rewrite list_lookup_alter_eq, Hk. simpl. by rewrite Hn.
Qed.

(** *** Every reachable state satisfies the invariants *)

Lemma SInv_step cfg s e : Inv cfg s → SInv s → SInv (step cfg s e).
Proof.
  intros H HS. pose proof (inv_d _ _ H) as Hd.
  destruct e as [d|v|c|k jobId meta|k message|id j|]; simpl.
  - apply SInv_advance; [done..|lia].
  - unfold run_queue. change (stuck (with_input v s)) with (stuck s).
    destruct (stuck s) eqn:Hst; [by eapply SInv_frame|].
    apply (SInv_dispatch_sync cfg); [by eapply DInv_frame|done].
  - destruct (variant cfg) eqn:HV; [|by eapply SInv_frame].
    unfold run_queue. change (stuck (with_compilationStatus c s)) with (stuck s).
    destruct (stuck s) eqn:Hst; [by eapply SInv_frame|].
    apply (SInv_dispatch_sync cfg); [by eapply DInv_frame|done].
  - by apply (SInv_dispatch_resolved cfg).
  - by apply (SInv_dispatch_rejected cfg).
  - apply run_queue_ind; [by eapply SInv_frame|].
    pose proof (notify_record_side cfg id j (with_jobs (<[id:=j]> (st_jobs s)) s))
      as Hside.
    injection Hside as _ _ _ Er Ec _ _ _.
    eapply SInv_frame; [apply notify_record_uncaught|done..].
  - apply run_queue_ind; [done|].
    pose proof (results_sync_side cfg s) as Hside.
    pose proof (results_sync_logs cfg s) as Hlogs.
    injection Hside as _ _ _ Er Ec _ _ _. injection Hlogs as _ _ _ Eu.
    by eapply SInv_frame.
Qed.

Lemma init_not_stuck cfg defaultInput status registry :
  stuck (initializeIo cfg defaultInput status registry) = false.
Proof.
  unfold initializeIo.
  match goal with |- context [results_sync cfg ?s0] =>
    pose proof (results_sync_logs cfg s0) as Hlogs end.
  injection Hlogs as _ _ _ Eu.
  match type of Eu with context [jobIdAndMetaDerived cfg ?s0] =>
    destruct (jobIdAndMetaDerived_logs cfg s0) as (Hlogs & _) end.
  injection Hlogs as _ _ _ Eu'. rewrite Eu' in Eu.
  apply stuck_false. rewrite Eu. apply not_elem_of_nil.
Qed.

Lemma reachable_Inv_SInv cfg s : reachable cfg s → Inv cfg s ∧ SInv s.
Proof.
  induction 1 as [defaultInput status registry|s e _ [H HS]].
  - split; [apply Inv_init|apply not_stuck_SInv, init_not_stuck].
  - split; [by apply Inv_step|by apply (SInv_step cfg)].
Qed.

Lemma reachable_Inv cfg s : reachable cfg s → Inv cfg s.
Proof. by intros [? _]%reachable_Inv_SInv. Qed.

Lemma reachable_SInv cfg s : reachable cfg s → SInv s.
Proof. by intros [_ ?]%reachable_Inv_SInv. Qed.

(** The app variant's closures read nothing uninitialised: its queue is
    never blocked. *)
Lemma app_not_stuck cfg s :
  variant cfg = InspectifyApp → DInv cfg s → SInv s → stuck s = false.
Proof.
  intros HA Hd HS. destruct (stuck s) eqn:Hst; [|done].
  destruct (HS Hst) as [_ (k & r & _ & Hk & Hcan & _)].
  by destruct (dinv_app _ _ Hd HA _ _ Hk).
Qed.

Lemma reachable_app_not_stuck cfg s :
  variant cfg = InspectifyApp → reachable cfg s → stuck s = false.
Proof.
  intros HA [H HS]%reachable_Inv_SInv.
  apply (app_not_stuck cfg); [done|by destruct H|done].
Qed.

(** A cleanup that does not throw has not thrown before. *)
Lemma no_throw_not_stuck s :
  SInv s → (dispatch_cleanup s).2 = false → stuck s = false.
Proof.
  intros HS Hthrew. destruct (stuck s) eqn:Hst; [|done].
  destruct (HS Hst) as [_ Ht]. apply dispatch_cleanup_threw in Ht. congruence.
Qed.

(** Once the queue is blocked, a response finds no run awaiting it. *)
Lemma stuck_awaits_nothing cfg s k jobId meta :
  reachable cfg s → stuck s = true →
  dispatch_resolved cfg k jobId meta s = s.
Proof.
  intros [H HS]%reachable_Inv_SInv Hst. unfold dispatch_resolved.
  destruct (st_dispatchRuns s !! k) as [r|] eqn:Hk; [|done].
  pose proof (stuck_no_request cfg s k r (inv_d _ _ H) HS Hst Hk).
  by destruct (d_at r).
Qed.

(** *** The job id of a run *)

Lemma JInv_frame cfg s s' :
  st_dispatchRuns s' = st_dispatchRuns s → JInv cfg s → JInv cfg s'.
Proof. unfold JInv. by intros ->. Qed.

Lemma JInv_alter cfg s k f :
  JInv cfg s →
  (∀ r, st_dispatchRuns s !! k = Some r →
     (d_at (f r) ≠ settled → d_jobId (f r) = None) ∧
     (variant cfg = Earlier → d_at (f r) = await_request →
      d_cancel (f r) = cancel_abort_jobsCancel)) →
  JInv cfg (update_dispatchRun k f s).
Proof.
  intros Hj Hf k' r'. simpl.
  intros [[-> (r0 & Hk & ->)]|[_ Hk']]%lookup_alter_Some;
    [by apply Hf|exact (Hj _ _ Hk')].
Qed.

Lemma JInv_dispatch_sync cfg s : JInv cfg s → JInv cfg (dispatch_sync cfg s).
Proof.
  intros Hj.
  pose proof (dispatch_cleanup_runs s) as Hruns.
  assert (JInv cfg (dispatch_cleanup s).1) as H1.
  { intros k r. rewrite Hruns.
    destruct (st_dispatchCleanup s) as [k0|]; [|by apply (Hj k)].
    intros [[-> (r0 & Hk & ->)]|[_ Hk']]%lookup_alter_Some; [|exact (Hj _ _ Hk')].
    destruct (Hj _ _ Hk) as [Hid Hcan].
    destruct (cleaned_spec r0) as (_ & _ & Ec & [Ea|Ea] & _).
    - rewrite Ea, Ec. split; [|done]. intros Hns.
      unfold cleaned. destruct (d_cancel r0), (d_at r0); simpl; auto.
    - rewrite Ea. split; [done|]. intros _ [=]. }
  unfold dispatch_sync. destruct (dispatch_cleanup s) as [s1 threw]. simpl in *.
  destruct threw; [done|]. unfold jobIdAndMetaDerived.
  destruct (dispatch_guard cfg s1); [|done].
  intros k r. simpl. intros [[_ Hk]|[_ <-]]%lookup_snoc_Some; [exact (H1 _ _ Hk)|].
  simpl. split; [done|]. intros _ [=].
Qed.

Lemma JInv_fire cfg s due task rest :
  Inv cfg s → JInv cfg s → st_timers s = (due, task) :: rest →
  JInv cfg (fire cfg task (with_now due (with_timers rest s))).
Proof.
  intros H Hj Ht. destruct task as [k|k]; simpl.
  - unfold dispatch_timer. simpl.
    destruct (st_dispatchRuns s !! k) as [r|] eqn:Hk; [|done].
    destruct (tinv_dispatch _ (inv_t _ _ H) due k) as (r' & Hk' & Ha);
      [rewrite Ht; by left|].
    assert (r' = r) as -> by congruence.
    destruct (Hj _ _ Hk) as [Hid _].
    destruct (d_stop r).
    + apply (JInv_alter cfg (with_now due (with_timers rest s))); [done|].
      intros r0 _. simpl. split; [done|]. intros _ [=].
    + apply (JInv_alter cfg
               (log_submitted k (d_input r) (with_now due (with_timers rest s))));
        [done|].
      intros r0 Hk0. simpl in Hk0. assert (r0 = r) as -> by congruence. simpl.
      split; [intros _; apply Hid; congruence|]. by intros ->.
  - pose proof (results_poll_side cfg k (with_now due (with_timers rest s))) as Hside.
    injection Hside as _ _ _ Er _ _ _ _. by eapply JInv_frame.
Qed.

Lemma JInv_step cfg s e : Inv cfg s → JInv cfg s → JInv cfg (step cfg s e).
Proof.
  intros H Hj. destruct e as [d|v|c|k jobId meta|k message|id j|]; simpl.
  - apply (advance_elim cfg (λ s, Inv cfg s ∧ JInv cfg s) (JInv cfg)
             (st_now s + d)); [| |done|done].
    + intros s0 due task rest [H0 Hj0] Ht Hdue.
      split; [by apply Inv_fire|by apply JInv_fire].
    + intros s0 [_ Hj0] _. by eapply JInv_frame.
  - apply run_queue_ind; [by eapply JInv_frame|].
    apply JInv_dispatch_sync. by eapply JInv_frame.
  - destruct (variant cfg) eqn:HV; [|by eapply JInv_frame].
    apply run_queue_ind; [by eapply JInv_frame|].
    apply JInv_dispatch_sync. by eapply JInv_frame.
  - unfold dispatch_resolved.
    destruct (st_dispatchRuns s !! k) as [r|] eqn:Hk; [|done].
    destruct (d_at r) eqn:Ha; try done.
    assert (∀ c, JInv cfg (update_dispatchRun k (d_resolved c jobId) s)) as Hupd.
    { intros c. apply JInv_alter; [done|]. intros r0 _. simpl.
      split; [done|]. intros _ [=]. }
    destruct (variant cfg); [|case_decide; [done|]];
      match goal with |- context [results_sync cfg ?s0] =>
        pose proof (results_sync_side cfg s0) as Hside end;
      injection Hside as _ _ _ Er _ _ _ _;
      match goal with |- context [d_resolved ?c jobId] =>
        apply (JInv_frame cfg (update_dispatchRun k (d_resolved c jobId) s));
          [exact Er|apply Hupd]
      end.
  - unfold dispatch_rejected.
    destruct (st_dispatchRuns s !! k) as [r|] eqn:Hk; [|done].
    destruct (d_at r) eqn:Ha; try done.
    apply (JInv_frame cfg (update_dispatchRun k (d_set_at settled) s)); [done|].
    apply JInv_alter; [done|]. intros r0 _. simpl. split; [done|]. intros _ [=].
  - apply run_queue_ind; [by eapply JInv_frame|].
    match goal with |- context [notify_record cfg id j ?s0] =>
      pose proof (notify_record_side cfg id j s0) as Hside end.
    injection Hside as _ _ _ Er _ _ _ _. by eapply JInv_frame.
  - apply run_queue_ind; [done|].
    pose proof (results_sync_side cfg s) as Hside.
    injection Hside as _ _ _ Er _ _ _ _. by eapply JInv_frame.
Qed.

Lemma reachable_JInv cfg s : reachable cfg s → JInv cfg s.
Proof.
  induction 1 as [defaultInput status registry|s e Hs IH].
  - unfold initializeIo.
    match goal with |- context [results_sync cfg ?s0] =>
      pose proof (results_sync_side cfg s0) as Hside end.
    injection Hside as _ _ _ Er _ _ _ _. eapply JInv_frame; [exact Er|].
    unfold jobIdAndMetaDerived.
    match goal with |- context [dispatch_guard cfg ?s0] =>
      destruct (dispatch_guard cfg s0) end; intros k r; simpl;
      [|by rewrite lookup_nil].
    destruct k as [|k]; simpl; [|by rewrite lookup_nil].
    intros [= <-]. simpl. split; [done|]. intros _ [=].
  - apply JInv_step; [by apply reachable_Inv|done].
Qed.

(** Earlier variant: while a request is under way the registered cleanup
    is one that throws. *)
Lemma earlier_request_throwing cfg s k r :
  variant cfg = Earlier → reachable cfg s →
  st_dispatchRuns s !! k = Some r → d_at r = await_request →
  throwing s ∧ st_dispatchCleanup s = Some k ∧ stuck s = false.
Proof.
  intros HE Hs Hk Ha.
  destruct (reachable_Inv_SInv cfg s Hs) as [H HS].
  destruct (reachable_JInv cfg s Hs k r Hk) as [Hid Hcan].
  pose proof (dinv_request _ _ (inv_d _ _ H) _ _ Hk Ha) as Hstop.
  assert (st_dispatchCleanup s = Some k) as Hc
    by (apply (dinv_live _ _ (inv_d _ _ H) _ _ Hk); [done|congruence]).
  split; [|split; [done|]].
  - exists k, r. repeat split; [done..|by apply Hcan|apply Hid; congruence].
  - destruct (stuck s) eqn:Hst; [|done].
    by destruct (stuck_no_request cfg s k r (inv_d _ _ H) HS Hst Hk).
Qed.

(** What the cleanup that throws leaves behind. *)
Lemma dispatch_sync_throws cfg s k :
  throwing s → st_dispatchCleanup s = Some k →
  let s' := dispatch_sync cfg s in
  st_uncaught s' = st_uncaught s ++ [ReferenceError] ∧
  st_aborted s' = st_aborted s ++ [k] ∧
  st_timers s' = st_timers s ∧ st_submitted s' = st_submitted s ∧
  st_input s' = st_input s ∧
  length (st_dispatchRuns s') = length (st_dispatchRuns s) ∧
  st_dispatchCleanup s' = Some k ∧ stuck s' = true.
Proof.
  intros (k0 & r & Hc & Hk & Hcan & Hid) Hc'. simpl.
  assert (k0 = k) as -> by congruence.
  unfold dispatch_sync, dispatch_cleanup, dispatch_cancel, abort. simpl.
  rewrite Hc. simpl. rewrite list_lookup_alter_eq, Hk. simpl.
  rewrite Hcan, Hid.
  destruct (d_at r) eqn:Ha; simpl; rewrite ?length_alter;
    (repeat split; try done); apply stuck_true; simpl;
    apply elem_of_app; right; by left.
Qed.

Lemma wait_or_not (e : Event) : (∃ d, e = Wait d) ∨ (∀ d, e ≠ Wait d).
Proof. destruct e; eauto. Qed.

(** Once the queue is blocked it stays blocked, and nothing is submitted
    any more. *)
Lemma stuck_step cfg s e :
  Inv cfg s → SInv s → stuck s = true →
  stuck (step cfg s e) = true ∧ st_submitted (step cfg s e) = st_submitted s.
Proof.
  intros H HS Hst. destruct (HS Hst) as [Hq _].
  destruct (wait_or_not e) as [[d ->]|Hnw].
  - simpl. split; [by rewrite advance_stuck|].
    destruct (advance_dispatch cfg s (st_now s + d) H)
      as (_ & _ & _ & _ & _ & _ & Halt); [lia|].
    destruct Halt as [[? _]|(k & r & due & Hk & Hs & Ha & _)]; [done|].
    destruct (Hq _ _ Hk); congruence.
  - destruct (step_env cfg s e) as (Hsub & _). split; [|by apply Hsub].
    destruct e as [d|v|c|k jobId meta|k message|id j|]; simpl.
    + by destruct (Hnw d).
    + by rewrite run_queue_stuck.
    + destruct (variant cfg); [by rewrite run_queue_stuck|done].
    + unfold dispatch_resolved.
      destruct (st_dispatchRuns s !! k) as [r|] eqn:Hk; [|done].
      pose proof (stuck_no_request cfg s k r (inv_d _ _ H) HS Hst Hk).
      by destruct (d_at r).
    + unfold dispatch_rejected.
      destruct (st_dispatchRuns s !! k) as [r|] eqn:Hk; [|done].
      pose proof (stuck_no_request cfg s k r (inv_d _ _ H) HS Hst Hk).
      by destruct (d_at r).
    + by rewrite run_queue_stuck.
    + by rewrite run_queue_stuck.
Qed.

Lemma stuck_run cfg es : ∀ s,
  Inv cfg s → SInv s → stuck s = true →
  stuck (run cfg s es) = true ∧ st_submitted (run cfg s es) = st_submitted s.
Proof.
  induction es as [|e es IH]; intros s H HS Hst; [done|].
  change (run cfg s (e :: es)) with (run cfg (step cfg s e) es).
  destruct (stuck_step cfg s e H HS Hst) as [Hst1 Hsub1].
  destruct (IH (step cfg s e)) as [Hst2 Hsub2];
    [by apply Inv_step|by apply (SInv_step cfg)|done|].
  split; [done|congruence].
Qed.

(** *** A burst of writes *)

Lemma dispatch_guard_status cfg s s' :
  st_compilationStatus s' = st_compilationStatus s →
  dispatch_guard cfg s' = dispatch_guard cfg s.
Proof. intros E. unfold dispatch_guard, compilation_succeeded. by rewrite E. Qed.

Lemma dispatch_sync_runs cfg s :
  (dispatch_cleanup s).2 = false → dispatch_guard cfg s = true →
  st_dispatchRuns (dispatch_sync cfg s) =
  match st_dispatchCleanup s with
  | Some k => alter cleaned k (st_dispatchRuns s)
  | None => st_dispatchRuns s
  end ++ [{| d_input := st_input s; d_stop := false; d_cancel := cancel_noop;
             d_at := await_timer; d_jobId := None |}].
Proof.
  intros Hthrew Hg.
  pose proof (dispatch_cleanup_outside s) as Hout.
  pose proof (dispatch_cleanup_runs s) as Hruns.
  unfold dispatch_sync. destruct (dispatch_cleanup s) as [s1 threw]. simpl in *.
  subst threw.
  injection Hout as Enow Einp Est Ejobs Etim Ecl Epub Err Erc Eres Esub Eem.
  unfold jobIdAndMetaDerived.
  replace (dispatch_guard cfg s1) with true
    by (unfold dispatch_guard, compilation_succeeded in *; by rewrite Est).
  simpl. by rewrite Hruns, Einp.
Qed.

Lemma write_pending cfg s v :
  Inv cfg s → stuck s = false → dispatch_guard cfg s = true →
  (dispatch_cleanup (with_input v s)).2 = false →
  pending cfg (step cfg s (InputSet v)) (length (st_dispatchRuns s)) v ∧
  st_submitted (step cfg s (InputSet v)) = st_submitted s.
Proof.
  intros H Hn Hg Hthrew.
  destruct (step_env cfg s (InputSet v)) as ([Hsub Hnow] & Hst & _); [done|].
  split; [|done]. split; [by apply Inv_step, not_stuck_SInv|].
  assert (step cfg s (InputSet v) = dispatch_sync cfg (with_input v s)) as E
    by (simpl; by rewrite run_queue_runs).
  split.
  { rewrite E, <-Hn. apply stuck_frame.
    by rewrite dispatch_sync_uncaught, Hthrew, app_nil_r. }
  split; [by rewrite (dispatch_guard_status cfg s) by (by apply Hst)|].
  destruct (dispatch_sync_restarts cfg (with_input v s) Hthrew Hg) as (Hr & Ht & Hc).
  rewrite Hnow, E. by simpl in *.
Qed.

Lemma burst_tail cfg rest :
  ∀ s k v, pending cfg s k v → Forall (λ dw, dw.1 < quiet) rest →
  ∃ k', st_submitted (run cfg s (writes rest ++ [Wait quiet])) =
        st_submitted s ++ [(k', last_written v rest)].
Proof.
  induction rest as [|[d w] rest IH]; intros s k v (H & Hn & Hg & Hk & Hc & Hin) Hrest.
  - exists k.
    change (run cfg s (writes [] ++ [Wait quiet])) with (step cfg s (Wait quiet)).
    by rewrite (wait_fires cfg s quiet k _ (st_now s + quiet) H Hk eq_refl eq_refl Hin).
  - apply Forall_cons in Hrest as [Hd Hrest]. simpl in Hd.
    destruct (wait_holds cfg s d k _ (st_now s + quiet) H Hk eq_refl eq_refl Hin)
      as (H1 & Hsub1 & Hk1 & Hin1 & Hnow1 & Hst1 & Hc1); [lia|].
    set (s1 := step cfg s (Wait d)) in *.
    assert (dispatch_guard cfg s1 = true) as Hg1
      by (by rewrite (dispatch_guard_status cfg s)).
    assert (stuck s1 = false) as Hn1 by (subst s1; simpl; by rewrite advance_stuck).
    destruct (write_pending cfg s1 w H1 Hn1 Hg1) as [Hp2 Hsub2].
    { eapply cleanup_no_throw_timer; simpl; [by rewrite Hc1| |]; done. }
    destruct (IH _ _ _ Hp2 Hrest) as [k' Hk'].
    exists k'. change (run cfg s (writes ((d, w) :: rest) ++ [Wait quiet]))
      with (run cfg (step cfg s1 (InputSet w)) (writes rest ++ [Wait quiet])).
    by rewrite Hk', Hsub2, Hsub1.
Qed.

(** *** While the guards are not passed *)

Lemma gate_step cfg s e :
  Inv cfg s → dispatch_guard cfg s = false → (∀ c, e ≠ StatusSet c) →
  dispatch_guard cfg (step cfg s e) = false ∧
  st_submitted (step cfg s e) = st_submitted s.
Proof.
  intros H Hg He.
  destruct (step_env cfg s e) as (Hsub & Hst & _).
  split; [by rewrite (dispatch_guard_status cfg s) by (by apply Hst)|].
  destruct (wait_or_not e) as [[d ->]|Hnw]; [|by apply Hsub].
  simpl.
  destruct (advance_dispatch cfg s (st_now s + d) H) as (_ & _ & _ & _ & _ & _ & Halt);
    [lia|].
  destruct Halt as [[? _]|(k & r & due & Hk & Hs & Ha & _)]; [done|].
  destruct H as [_ _ Hl _ _].
  destruct (Hl k r Hk Hs) as [_ Hg']; [congruence|].
  rewrite Hg' in Hg; done.
Qed.

(** *** What a submission carries *)

Lemma submitted_step cfg s e :
  Inv cfg s →
  st_submitted (step cfg s e) = st_submitted s ∨
  ∃ k, st_submitted (step cfg s e) = st_submitted s ++ [(k, st_input s)].
Proof.
  intros H.
  destruct (wait_or_not e) as [[d ->]|Hnw].
  - simpl.
    destruct (advance_dispatch cfg s (st_now s + d) H)
      as (_ & _ & _ & _ & _ & _ & Halt); [lia|].
    destruct Halt as [[? _]|(k & r & due & Hk & Hs & Ha & _ & _ & Hsub & _)];
      [by left|].
    right. exists k. destruct H as [_ _ Hl _ _].
    destruct (Hl k r Hk Hs) as [<- _]; [congruence|done].
  - left. destruct (step_env cfg s e) as (Hsub & _). by apply Hsub.
Qed.

(** *** The loop of a results run *)

Lemma r_set_polling_id r : r_polling r = true → r_set_polling true r = r.
Proof. destruct r. simpl. by intros ->. Qed.

Lemma poll_persists cfg s k r d :
  Inv cfg s → polling s k r →
  let s' := step cfg s (Wait d) in
  Inv cfg s' ∧ polling s' k r ∧
  st_emitted s' = st_emitted s ∧ st_results s' = st_results s.
Proof.
  intros H Hp. simpl.
  set (P := λ s0 : State,
    Inv cfg s0 ∧ st_now s0 ≤ st_now s + d ∧ polling s0 k r ∧
    st_emitted s0 = st_emitted s ∧ st_results s0 = st_results s).
  apply (advance_elim cfg P
           (λ s0, Inv cfg s0 ∧ polling s0 k r ∧
                  st_emitted s0 = st_emitted s ∧ st_results s0 = st_results s));
    [| |done|].
  - intros s0 due task rest (H0 & Hle0 & (Hc & Hk & Hs & Hpo & Hj & due0 & Hin) & Hem & Hre)
      Ht Hdue.
    pose proof (Inv_fire cfg s0 due task rest H0 Ht) as H1.
    set (sp := with_now due (with_timers rest s0)) in *.
    split; [done|].
    destruct (fire_timers cfg task sp) as [-> Htim]. split; [done|].
    rewrite Ht in Hin. apply elem_of_cons in Hin as [Hin|Hin].
    + (* the run's own timer: the record is still missing, it is set again *)
      simplify_eq. simpl. unfold results_poll. subst sp. simpl.
      rewrite Hk, Hs, Hj. simpl.
      split; [|done]. unfold polling. simpl.
      rewrite list_lookup_alter_eq, Hk. simpl. rewrite r_set_polling_id by done.
      do 5 (split; [done|]). eexists. apply elem_of_app. right. by left.
    + (* some other timer *)
      assert ((due0, TPoll k) ∈ st_timers (fire cfg task sp)) as Hin'
        by (by apply timers_kept).
      destruct task as [k'|k']; simpl in *.
      * unfold dispatch_timer in *. subst sp. simpl in *.
        destruct (st_dispatchRuns s0 !! k') as [r'|]; [|split; [|done]; by repeat split; eauto].
        destruct (d_stop r'); (split; [|done]); by repeat split; eauto.
      * assert (k' ≠ k).
        { intros ->. destruct H0 as [HT _ _ _ _].
          destruct (TInv_pop s0 due (TPoll k) rest HT Ht) as [_ Hno].
          apply Hno. by apply (list_elem_of_fmap_2' snd _ (due0, TPoll k)). }
        unfold results_poll in *. subst sp. simpl in *.
        destruct (st_resultsRuns s0 !! k') as [r'|] eqn:Hk';
          [|split; [|done]; by repeat split; eauto].
        destruct (r_stop r') eqn:Hs'.
        -- simpl. split; [|done]. unfold polling. simpl.
           rewrite list_lookup_alter_ne by done. by repeat split; eauto.
        -- destruct H0 as [_ _ _ HR _].
           destruct (rinv_live _ HR _ _ Hk' Hs') as [? _]. congruence.
  - intros s0 (H0 & Hle0 & (Hc & Hk & Hs & Hpo & Hj & due0 & Hin) & Hem & Hre) Hhd.
    split; [by apply Inv_with_now|]. split; [|done]. by repeat split; eauto.
  - subst P. simpl. split; [done|]. split; [lia|]. done.
Qed.

Lemma poll_persists_run cfg ds :
  ∀ s k r, Inv cfg s → polling s k r →
  let s' := run cfg s (Wait <$> ds) in
  polling s' k r ∧ st_emitted s' = st_emitted s ∧ st_results s' = st_results s.
Proof.
  induction ds as [|d ds IH]; intros s k r H Hp; [done|].
  change (run cfg s (Wait <$> d :: ds))
    with (run cfg (step cfg s (Wait d)) (Wait <$> ds)).
  destruct (poll_persists cfg s k r d H Hp) as (H1 & Hp1 & Hem & Hre).
  destruct (IH _ _ _ H1 Hp1) as (? & Hem' & Hre').
  split; [done|]. split; congruence.
Qed.

(** * The claims *)

(** C1, as amended: the results store is only ever set on behalf of the
    dispatch whose job id is published.  A record of any other job, the
    job of an older dispatch included, changes neither the store nor its
    history, however late it is written; the history is ordered by
    dispatch generation and never ahead of the published one.  The run
    that is subscribed is the one of the published job, called with the
    input published with it; as long as the subscriber queue is in order,
    a write of that job's record sets what the subscriber of the variant
    prescribes for it, and nothing else, whatever the input cell holds by
    then. *)
Theorem C1_ordered_by_generation cfg s p :
  reachable cfg s → st_jobIdAndMeta s = Some p →
  (∀ id j, id ≠ p_jobId p →
     st_emitted (step cfg s (RecordSet id j)) = st_emitted s ∧
     st_results (step cfg s (RecordSet id j)) = st_results s) ∧
  (∀ i j a b, i ≤ j → st_emitted s !! i = Some a → st_emitted s !! j = Some b →
     a.1 ≤ b.1) ∧
  (∀ e, e ∈ st_emitted s → e.1 ≤ p_gen p) ∧
  (∀ k r j, st_resultsRuns s !! k = Some r → r_sub r = subscribed →
     r_jobId r = p_jobId p ∧ r_cachedInput r = p_input p ∧
     (stuck s = false →
      st_emitted (step cfg s (RecordSet (p_jobId p) j)) =
      st_emitted s ++ match job_subscriber cfg r j with
                      | Some x => [(p_gen p, x)]
                      | None => []
                      end)).
Proof.
  intros Hs Hp. apply reachable_Inv in Hs. split; [|split; [|split]].
  - intros id j Hid. simpl. unfold run_queue. destruct (stuck _); [done|].
    rewrite (notify_record_other cfg id j _ p); try done.
    by apply Inv_with_jobs.
  - by destruct Hs as [_ _ _ _ []].
  - intros e He. destruct Hs as [_ _ _ _ [Hle _ _]].
    destruct (Hle e He) as (p' & Hp' & ?). congruence.
  - intros k r j Hk Hb.
    destruct (subscribed_current cfg s k r Hs Hk Hb) as [_ (p' & Hp' & Hg & Hj & Hi)].
    simplify_eq. split; [done|]. split; [done|]. intros Hn. simpl.
    rewrite run_queue_runs by done.
    rewrite (notify_record_subscribed cfg _ j _ k r); try done;
      [|by apply Inv_with_jobs].
    rewrite Hg. destruct (job_subscriber cfg r j); simpl; [done|].
    by rewrite app_nil_r.
Qed.

(** C2, on the earlier variant, whose dispatcher misses it: a burst of
    writes that starts while a request is under way submits nothing.  The
    first write calls the registered cleanup, which aborts the request and
    then reads [jobId] before its initialisation: the ReferenceError
    leaves [input.set] with no run started and the subscriber queue
    blocked, so that neither the rest of the burst nor anything that
    comes later is ever submitted. *)
Theorem C2_burst_lost_in_earlier_variant cfg s k r v rest :
  variant cfg = Earlier → reachable cfg s →
  st_dispatchRuns s !! k = Some r → d_at r = await_request →
  st_uncaught (step cfg s (InputSet v)) = st_uncaught s ++ [ReferenceError] ∧
  st_submitted (run cfg s (burst v rest)) = st_submitted s ∧
  ∀ es, st_submitted (run cfg (run cfg s (burst v rest)) es) = st_submitted s.
Proof.
  intros HE Hs Hk Ha.
  destruct (earlier_request_throwing cfg s k r HE Hs Hk Ha) as (Ht & Hc & Hn).
  assert (step cfg s (InputSet v) = dispatch_sync cfg (with_input v s)) as E
    by (simpl; by rewrite run_queue_runs).
  destruct (dispatch_sync_throws cfg (with_input v s) k)
    as (Hun & _ & _ & Hsub & _ & _ & _ & Hst); [by eapply throwing_frame|done|].
  rewrite <-E in Hun, Hsub, Hst.
  destruct (reachable_Inv_SInv cfg _ (reachable_step cfg s (InputSet v) Hs)) as [H1 HS1].
  split; [done|].
  assert (∀ es, st_submitted (run cfg s (burst v rest ++ es)) = st_submitted s) as Hall.
  { intros es.
    change (run cfg s (burst v rest ++ es))
      with (run cfg (step cfg s (InputSet v)) ((writes rest ++ [Wait quiet]) ++ es)).
    destruct (stuck_run cfg ((writes rest ++ [Wait quiet]) ++ es) _ H1 HS1 Hst)
      as [_ ->].
    done. }
  split.
  - rewrite <-(Hall []). by rewrite app_nil_r.
  - intros es. rewrite <-(Hall es). unfold run. by rewrite foldl_app.
Qed.

(** C3, as amended (app variant): when the record a run is subscribed to
    is written with state ['Failed'], the results store is set, once, to
    [{ input: $cachedInput, outputState: 'Current', output: null,
       referenceOutput: null,
       validation: { type: 'Failure', message: $job.stdout }, job }]. *)
Theorem C3_failed_projection cfg s k r j :
  variant cfg = InspectifyApp → reachable cfg s →
  st_resultsRuns s !! k = Some r → r_sub r = subscribed →
  state j = JobState.Failed →
  let s' := step cfg s (RecordSet (r_jobId r) j) in
  let x := {| input := Val (r_cachedInput r);
              outputState := OutputState.Current;
              output := Null;
              referenceOutput := Null;
              validation := Val (Failure (stdout j));
              job := Val (r_jobId r);
              latestJobId := Undefined |} in
  st_emitted s' = st_emitted s ++ [(r_gen r, x)] ∧ st_results s' = x.
Proof.
  intros HA Hs Hk Hb Hj s' x. subst s'. simpl.
  rewrite run_queue_runs by exact (reachable_app_not_stuck cfg s HA Hs).
  rewrite (notify_record_subscribed cfg _ j _ k r); try done.
  - unfold job_subscriber. rewrite Hj, HA. done.
  - by apply Inv_with_jobs, reachable_Inv.
Qed.

(** C4, as amended: when the request of a dispatch is rejected, [run()]
    rejects and nothing catches it.  The results store is not set and
    keeps the value it has, nothing is published to the resolver and the
    projector, and the rejection is left unhandled. *)
Theorem C4_rejection_surfaces_nothing cfg s k message :
  let s' := step cfg s (AnalysisReject k message) in
  st_emitted s' = st_emitted s ∧ st_results s' = st_results s ∧
  st_jobIdAndMeta s' = st_jobIdAndMeta s ∧
  st_resultsRuns s' = st_resultsRuns s ∧
  (∀ r, st_dispatchRuns s !! k = Some r → d_at r = await_request →
        st_uncaught s' = st_uncaught s ++ [Rejected message] ∧
        st_dispatchRuns s' !! k = Some (d_set_at settled r)).
Proof.
  simpl. unfold dispatch_rejected.
  destruct (st_dispatchRuns s !! k) as [r|] eqn:Hk; [|by repeat split].
  destruct (d_at r) eqn:Ha; do 4 (split; [done|]); intros r' [= <-] Ha';
    try congruence.
  simpl. by rewrite list_lookup_alter_eq, Hk.
Qed.

(** C5, as amended: the loop of the results run has no retry budget.  For
    as long as the record is not in the registry and nothing supersedes
    the run, every wake-up, one quiet period after the one before, finds
    the record missing and sets the timer again; the results store keeps
    the placeholder, and no failure is ever set. *)
Theorem C5_poll_never_gives_up cfg s k r ds :
  reachable cfg s → polling s k r →
  let s' := run cfg s (Wait <$> ds) in
  polling s' k r ∧ st_emitted s' = st_emitted s ∧ st_results s' = st_results s.
Proof.
  intros Hs Hp. apply poll_persists_run; [by apply reachable_Inv|done].
Qed.

(** C6, as amended (app variant): while the compilation status is not
    ['Succeeded'] nothing is submitted, whatever is written to the input and however long
    one waits; and when the status store sets ['Succeeded'], the input the
    cell then holds is submitted one quiet period later, with no further
    write. *)
Theorem C6_gated_by_compilation cfg s :
  variant cfg = InspectifyApp → reachable cfg s →
  (compilation_succeeded s = false →
   ∀ es, Forall (λ e, ∀ c, e ≠ StatusSet c) es →
         st_submitted (run cfg s es) = st_submitted s) ∧
  (browser cfg = true →
   st_submitted (run cfg s [StatusSet (Some CompilerState.Succeeded); Wait quiet]) =
   st_submitted s ++ [(length (st_dispatchRuns s), st_input s)]).
Proof.
  intros HA Hs. split.
  - intros Hst es.
    assert (dispatch_guard cfg s = false) as Hg
      by (unfold dispatch_guard; rewrite HA, Hst; by destruct (browser cfg)).
    clear Hst. revert s Hs Hg.
    induction es as [|e es IH]; intros s Hs Hg Hes; [done|].
    apply Forall_cons in Hes as [He Hes].
    destruct (gate_step cfg s e (reachable_Inv _ _ Hs) Hg He) as [Hg1 Hsub1].
    change (run cfg s (e :: es)) with (run cfg (step cfg s e) es).
    rewrite IH; [done|by constructor|done..].
  - intros Hb.
    change (run cfg s [StatusSet (Some CompilerState.Succeeded); Wait quiet])
      with (step cfg (step cfg s (StatusSet (Some CompilerState.Succeeded))) (Wait quiet)).
    set (c := Some CompilerState.Succeeded).
    pose proof (reachable_Inv _ _ (reachable_step cfg s (StatusSet c) Hs)) as H1.
    pose proof (reachable_app_not_stuck cfg s HA Hs) as Hn.
    apply reachable_Inv in Hs.
    destruct (step_env cfg s (StatusSet c)) as ([Hsub Hnow] & _ & _); [done|].
    assert (step cfg s (StatusSet c) = dispatch_sync cfg (with_compilationStatus c s))
      as E by (simpl; by rewrite HA, run_queue_runs).
    rewrite E in *.
    assert (dispatch_guard cfg (with_compilationStatus c s) = true) as Hg
      by (unfold dispatch_guard; by rewrite Hb, HA).
    assert ((dispatch_cleanup (with_compilationStatus c s)).2 = false) as Hthrew.
    { apply (cleanup_no_throw_app cfg); [done|].
      destruct Hs as [_ Hd _ _ _]. by eapply DInv_frame. }
    destruct (dispatch_sync_restarts cfg (with_compilationStatus c s) Hthrew Hg)
      as (Hk & Hin & Hc).
    simpl in Hk, Hin, Hc.
    rewrite (wait_fires cfg _ quiet _ _ _ H1 Hk eq_refl eq_refl Hin) by lia.
    by rewrite Hsub.
Qed.

(** C7, as amended (app variant): every results value with [outputState]
    ['Current'] that the store was set to carries, as [input], the value
    that the [api.analysis] call of its dispatch carried; and each such
    call carries what the input cell holds at the moment it is made.  (The
    placeholder has no [input] field.) *)
Theorem C7_current_results_pinned cfg s :
  variant cfg = InspectifyApp → reachable cfg s →
  (∀ g x, (g, x) ∈ st_emitted s → outputState x = OutputState.Current →
          ∃ v, input x = Val v ∧ (g, v) ∈ st_submitted s) ∧
  (∀ e, st_submitted (step cfg s e) = st_submitted s ∨
        ∃ k, st_submitted (step cfg s e) = st_submitted s ++ [(k, st_input s)]).
Proof.
  intros HA Hs. apply reachable_Inv in Hs. split.
  - intros g x Hin Hc. destruct Hs as [_ _ _ _ [_ _ Hpin]].
    apply (Hpin HA (g, x) Hin Hc).
  - intros e. by apply submitted_step.
Qed.

(** C8: when the request of a dispatch resolves, the first thing the
    results store is set to is the placeholder: [outputState] ['None'],
    [output], [referenceOutput] and [validation] [null], and in the app
    variant [job: null]; whatever the record holds is looked at only
    afterwards.  (The earlier variant sets a number, so it re-runs the
    callback only for a job id other than the one it holds.) *)
Theorem C8_placeholder_first cfg s k r jobId meta :
  st_dispatchRuns s !! k = Some r → d_at r = await_request →
  (variant cfg = Earlier → p_jobId <$> st_jobIdAndMeta s ≠ Some jobId) →
  let s' := step cfg s (AnalysisResolve k jobId meta) in
  (∃ later, st_emitted s' = st_emitted s ++ (k, placeholder cfg jobId) :: later) ∧
  outputState (placeholder cfg jobId) = OutputState.None ∧
  output (placeholder cfg jobId) = Null ∧
  referenceOutput (placeholder cfg jobId) = Null ∧
  validation (placeholder cfg jobId) = Null ∧
  (variant cfg = InspectifyApp →
   placeholder cfg jobId =
   {| input := Undefined; outputState := OutputState.None; output := Null;
      referenceOutput := Null; validation := Null; job := Null;
      latestJobId := Undefined |}).
Proof.
  intros Hk Ha Hne s'. split; [|by unfold placeholder; repeat split; intros ->].
  subst s'. simpl. unfold dispatch_resolved. rewrite Hk, Ha.
  destruct (variant cfg) eqn:HV.
  - match goal with |- context [results_sync cfg ?s0] =>
      destruct (results_sync_spec cfg s0 _ eq_refl) as (-> & _) end.
    simpl. eauto.
  - rewrite decide_False by auto.
    match goal with |- context [results_sync cfg ?s0] =>
      destruct (results_sync_spec cfg s0 _ eq_refl) as (-> & _) end.
    simpl. eauto.
Qed.

(** C9: [jobsStore] is a dependency of the results store, so each time it
    notifies (its [set] finds the subscriber queue in order), the run of
    the current dispatch is torn down (stopped and unsubscribed) and a new
    one is started for the same job: the store is set to the placeholder
    again, and then looks the record up again.  The dispatcher is not
    involved: nothing is submitted or published. *)
Theorem C9_jobs_emission_restarts cfg s p :
  stuck s = false → st_jobIdAndMeta s = Some p →
  let k := length (st_resultsRuns s) in
  let s' := step cfg s JobsEmit in
  st_emitted s' =
    st_emitted s ++ (p_gen p, placeholder cfg (p_jobId p)) :: first_look cfg p (st_jobs s) ∧
  (∀ k0 r0, st_resultsCleanup s = Some k0 → st_resultsRuns s !! k0 = Some r0 →
     ∃ r1, st_resultsRuns s' !! k0 = Some r1 ∧ r_stop r1 = true ∧ r_sub r1 ≠ subscribed) ∧
  st_resultsCleanup s' = Some k ∧
  (∃ r', st_resultsRuns s' !! k = Some r' ∧ r_jobId r' = p_jobId p ∧
         r_stop r' = false ∧
         r_sub r' = match st_jobs s !! p_jobId p with
                    | Some _ => subscribed
                    | None => no_subscription
                    end) ∧
  st_submitted s' = st_submitted s ∧ st_jobIdAndMeta s' = st_jobIdAndMeta s ∧
  st_dispatchRuns s' = st_dispatchRuns s.
Proof.
  intros Hn Hp k s'. subst s'. simpl. rewrite run_queue_runs by done.
  destruct (results_sync_spec cfg s p Hp)
    as (He & Hc & (r' & Hr' & _ & Hj & _ & Hs & Hb & _) & Hold & Hside).
  injection Hside as En Ei Ec Er Edcl Ep Es Ej.
  repeat split; try done.
  - intros k0 r0 Hc0 Hk0. exists (r_cancel (r_set_stop r0)).
    split; [by apply Hold|]. unfold r_cancel. simpl.
    destruct (r_sub r0) eqn:Hb0; simpl; split; congruence.
  - by exists r'.
Qed.

(** C10: every results value that either variant ever sets, and the value
    the results store holds, has [outputState] ['None'] or ['Current'];
    ['Stale'] is never produced. *)
Theorem C10_outputState_never_stale cfg defaultInput status registry es :
  let s := run cfg (initializeIo cfg defaultInput status registry) es in
  Forall (λ e, outputState e.2 = OutputState.None ∨
               outputState e.2 = OutputState.Current) (st_emitted s) ∧
  (outputState (st_results s) = OutputState.None ∨
   outputState (st_results s) = OutputState.Current).
Proof.
  apply reachable_never_stale with cfg, reachable_run. constructor.
Qed.

(** ** The earlier variant *)

Lemma notify_record_deaf cfg id j s :
  (∀ r, job_subscriber cfg r j = None) → notify_record cfg id j s = s.
Proof.
  intros Hnone. unfold notify_record. generalize (st_resultsRuns s). intros l.
  induction l as [|r l IH]; simpl; [done|].
  replace (notify_run cfg id j s r) with s; [done|].
  unfold notify_run. destruct (r_sub r); try done.
  case_decide; [|done]. by rewrite Hnone.
Qed.

(** The earlier variant's subscriber tests ['Succeeded'] only: a record
    written with state ['Failed'] sets nothing. *)
Theorem earlier_failed_sets_nothing cfg s id j :
  variant cfg = Earlier → state j = JobState.Failed →
  let s' := step cfg s (RecordSet id j) in
  st_emitted s' = st_emitted s ∧ st_results s' = st_results s.
Proof.
  intros HE Hj. simpl. unfold run_queue. destruct (stuck _); [done|].
  rewrite notify_record_deaf; [done|].
  intros r. unfold job_subscriber. by rewrite Hj, HE.
Qed.

(** The earlier variant does not look at the compilation status: a write
    is submitted one quiet period later whatever the status is. *)
Theorem earlier_not_gated cfg s v :
  variant cfg = Earlier → browser cfg = true → reachable cfg s →
  (dispatch_cleanup (with_input v s)).2 = false →
  st_submitted (run cfg s [InputSet v; Wait quiet]) =
  st_submitted s ++ [(length (st_dispatchRuns s), v)].
Proof.
  intros HE Hb Hs Hthrew. destruct (reachable_Inv_SInv cfg s Hs) as [H HS].
  assert (dispatch_guard cfg s = true) as Hg
    by (unfold dispatch_guard; by rewrite Hb, HE).
  assert (stuck s = false) as Hn.
  { destruct (stuck s) eqn:Hst; [|done]. destruct (HS Hst) as [_ Ht].
    assert (throwing (with_input v s)) as Ht' by (by eapply throwing_frame).
    apply dispatch_cleanup_threw in Ht'. congruence. }
  destruct (write_pending cfg s v H Hn Hg Hthrew) as [(H1 & _ & _ & Hk & _ & Hin) Hsub].
  change (run cfg s [InputSet v; Wait quiet])
    with (step cfg (step cfg s (InputSet v)) (Wait quiet)).
  rewrite (wait_fires cfg _ quiet _ _ _ H1 Hk eq_refl eq_refl Hin) by lia.
  by rewrite Hsub.
Qed.

(** The earlier variant's [cancel] reads [jobId] before the awaited
    request has initialised it: a write while the request is under way
    aborts the request, then throws out of the cleanup; the callback is
    not called, no timer is set, the same cleanup stays registered, and
    the subscriber queue is left blocked: the next write stores its value
    and calls nobody. *)
Theorem earlier_cleanup_throws cfg s k r v :
  variant cfg = Earlier → reachable cfg s →
  st_dispatchRuns s !! k = Some r → d_at r = await_request →
  let s' := step cfg s (InputSet v) in
  st_uncaught s' = st_uncaught s ++ [ReferenceError] ∧
  st_aborted s' = st_aborted s ++ [k] ∧
  st_timers s' = st_timers s ∧
  length (st_dispatchRuns s') = length (st_dispatchRuns s) ∧
  st_dispatchCleanup s' = Some k ∧
  ∀ v', step cfg s' (InputSet v') = with_input v' s'.
Proof.
  intros HE Hs Hk Ha s'.
  destruct (earlier_request_throwing cfg s k r HE Hs Hk Ha) as (Ht & Hc & Hn).
  assert (s' = dispatch_sync cfg (with_input v s)) as ->
    by (subst s'; simpl; by rewrite run_queue_runs).
  destruct (dispatch_sync_throws cfg (with_input v s) k)
    as (Hun & Hab & Htim & _ & _ & Hlen & Hcl & Hst); [by eapply throwing_frame|done|].
  do 5 (split; [done|]). intros v'. simpl. by rewrite run_queue_stuck.
Qed.

(** * Further properties of the binding *)

(** ** Bursts *)

(** Either variant: a burst of writes, each less than the quiet period
    after the one before, makes exactly one [api.analysis] call, and that
    call carries the value written last, provided the guards are passed
    and the cleanup called by the first write does not throw (in the app
    variant it never does).  Each write stops the run that was waiting and
    starts a timer one quiet period long. *)
Theorem burst_submits_last_once cfg s v rest :
  reachable cfg s → dispatch_guard cfg s = true →
  (dispatch_cleanup (with_input v s)).2 = false →
  Forall (λ dw, dw.1 < quiet) rest →
  (∃ k, st_submitted (run cfg s (burst v rest)) =
        st_submitted s ++ [(k, last_written v rest)]) ∧
  (∀ k r, st_dispatchCleanup s = Some k → st_dispatchRuns s !! k = Some r →
     let s1 := step cfg s (InputSet v) in
     (∃ r1, st_dispatchRuns s1 !! k = Some r1 ∧ d_stop r1 = true) ∧
     (st_now s + quiet, TDispatch (length (st_dispatchRuns s))) ∈ st_timers s1).
Proof.
  intros Hs Hg Hthrew Hrest. destruct (reachable_Inv_SInv cfg s Hs) as [H HS].
  assert (stuck s = false) as Hn.
  { apply no_throw_not_stuck; [done|].
    destruct (dispatch_cleanup s).2 eqn:Ht; [|done].
    apply dispatch_cleanup_threw in Ht.
    assert (throwing (with_input v s)) as Ht' by (by eapply throwing_frame).
    apply dispatch_cleanup_threw in Ht'. congruence. }
  split.
  - destruct (write_pending cfg s v H Hn Hg Hthrew) as [Hp Hsub].
    destruct (burst_tail cfg rest _ _ _ Hp Hrest) as [k Hk].
    exists k. unfold burst.
    change (run cfg s (InputSet v :: writes rest ++ [Wait quiet]))
      with (run cfg (step cfg s (InputSet v)) (writes rest ++ [Wait quiet])).
    by rewrite Hk, Hsub.
  - intros k r Hc Hk s1. subst s1. simpl. rewrite run_queue_runs by done.
    destruct (dispatch_sync_restarts cfg (with_input v s) Hthrew Hg) as (_ & Ht & _).
    split; [|done].
    rewrite (dispatch_sync_runs cfg (with_input v s) Hthrew Hg). simpl. rewrite Hc.
    exists (cleaned r). split; [|by apply cleaned_spec].
    apply lookup_app_l_Some. by rewrite list_lookup_alter_eq, Hk.
Qed.

(** Earlier variant: once the cleanup has thrown, the binding is dead.
    Whatever is written, set or answered afterwards, and however long one
    waits, nothing is submitted any more; a write to the input, a write
    of a record and an emission of [jobsStore] store their value and
    reach no subscriber. *)
Theorem blocked_queue_submits_nothing cfg s es :
  reachable cfg s → ReferenceError ∈ st_uncaught s →
  st_submitted (run cfg s es) = st_submitted s ∧
  (∀ v, step cfg s (InputSet v) = with_input v s) ∧
  (∀ id j, step cfg s (RecordSet id j) = with_jobs (<[id := j]> (st_jobs s)) s) ∧
  step cfg s JobsEmit = s.
Proof.
  intros [H HS]%reachable_Inv_SInv Hst%stuck_true.
  split; [by destruct (stuck_run cfg es s H HS Hst)|].
  split; [|split]; intros; simpl; by rewrite run_queue_stuck.
Qed.

(** ** Requests under way *)

(** A run whose request is under way is the registered one, and captured
    what the input cell holds. *)
Lemma request_under_way cfg s k r :
  Inv cfg s → st_dispatchRuns s !! k = Some r → d_at r = await_request →
  d_input r = st_input s ∧ (k, st_input s) ∈ st_submitted s ∧
  st_dispatchCleanup s = Some k ∧
  ∀ k' r', st_dispatchRuns s !! k' = Some r' → d_at r' = await_request → k' = k.
Proof.
  intros Hs Hk Ha. destruct Hs as [_ Hd Hl _ _].
  pose proof (dinv_request _ _ Hd _ _ Hk Ha) as Hstop.
  assert (d_at r ≠ settled) as Hns by congruence.
  destruct (Hl _ _ Hk Hstop Hns) as [Hin _].
  split; [done|]. split; [|split].
  - rewrite <-Hin. apply (dinv_submitted _ _ Hd _ _ Hk).
    pose proof (dinv_cancel _ _ Hd _ _ Hk) as Hc. rewrite Ha in Hc.
    destruct Hc as [-> | ->]; done.
  - by apply (dinv_live _ _ Hd _ _ Hk).
  - intros k' r' Hk' Ha'.
    pose proof (dinv_request _ _ Hd _ _ Hk' Ha') as Hstop'.
    assert (st_dispatchCleanup s = Some k')
      by (apply (dinv_live _ _ Hd _ _ Hk'); [done|congruence]).
    assert (st_dispatchCleanup s = Some k)
      by (by apply (dinv_live _ _ Hd _ _ Hk)).
    congruence.
Qed.

(** In every reachable state at most one request is under way, and it
    carries the value the input cell holds: a write or a status emission
    stops the run, and aborts its request, before another run is
    started. *)
Theorem one_request_at_a_time cfg s k r :
  reachable cfg s → st_dispatchRuns s !! k = Some r → d_at r = await_request →
  d_input r = st_input s ∧ (k, st_input s) ∈ st_submitted s ∧
  ∀ k' r', st_dispatchRuns s !! k' = Some r' → d_at r' = await_request → k' = k.
Proof.
  intros Hs Hk Ha.
  destruct (request_under_way cfg s k r (reachable_Inv _ _ Hs) Hk Ha)
    as (H1 & H2 & _ & H4).
  by repeat split.
Qed.

(** What a notification of the dispatcher's dependencies does to a run of
    the app variant whose request is under way: the cleanup aborts it. *)
Lemma dispatch_sync_aborts cfg s k r :
  variant cfg = InspectifyApp → DInv cfg s →
  st_dispatchRuns s !! k = Some r → d_at r = await_request →
  let s' := dispatch_sync cfg s in
  st_aborted s' = st_aborted s ++ [k] ∧ st_jobsCancel s' = st_jobsCancel s ∧
  ∃ r', st_dispatchRuns s' !! k = Some r' ∧ d_stop r' = true.
Proof.
  intros HA Hd Hk Ha.
  pose proof (dinv_request _ _ Hd _ _ Hk Ha) as Hstop.
  assert (st_dispatchCleanup s = Some k) as Hc
    by (apply (dinv_live _ _ Hd _ _ Hk); [done|congruence]).
  assert (d_cancel r = cancel_abort) as Hcan.
  { pose proof (dinv_cancel _ _ Hd _ _ Hk) as Hcc. rewrite Ha in Hcc.
    destruct Hcc as [?|Hcc]; [done|]. by destruct (dinv_app _ _ Hd HA _ _ Hk). }
  simpl. unfold dispatch_sync, dispatch_cleanup, dispatch_cancel. rewrite Hc. simpl.
  rewrite list_lookup_alter_eq, Hk. simpl. rewrite Hcan.
  unfold abort. simpl. rewrite list_lookup_alter_eq, Hk. simpl. rewrite Ha.
  match goal with |- context [jobIdAndMetaDerived cfg ?s0] =>
    destruct (jobIdAndMetaDerived_logs cfg s0) as (Hlogs & _);
    injection Hlogs as -> -> _ _;
    assert (∃ r', st_dispatchRuns s0 !! k = Some r' ∧ d_stop r' = true) as (r' & Hr' & Hset)
  end.
  { simpl. rewrite !list_lookup_alter_eq, Hk. simpl. by eexists. }
  do 2 (split; [done|]). exists r'. split; [|done].
  unfold jobIdAndMetaDerived.
  match goal with |- context [dispatch_guard cfg ?s0] =>
    destruct (dispatch_guard cfg s0) end; simpl in *; [|done].
  by apply lookup_app_l_Some.
Qed.

(** App variant: a write to the input while a request is under way, and
    an emission of the compilation status likewise, stops the run and
    aborts that request; no job is asked to be cancelled, the job id being
    unknown as yet. *)
Theorem write_aborts_request cfg s k r e :
  variant cfg = InspectifyApp → reachable cfg s →
  st_dispatchRuns s !! k = Some r → d_at r = await_request →
  (∃ v, e = InputSet v) ∨ (∃ c, e = StatusSet c) →
  let s' := step cfg s e in
  st_aborted s' = st_aborted s ++ [k] ∧ st_jobsCancel s' = st_jobsCancel s ∧
  ∃ r', st_dispatchRuns s' !! k = Some r' ∧ d_stop r' = true.
Proof.
  intros HA Hs Hk Ha He. pose proof (reachable_app_not_stuck cfg s HA Hs) as Hn.
  apply reachable_Inv in Hs. destruct Hs as [_ Hd _ _ _].
  destruct He as [[v ->]|[c ->]]; simpl; rewrite ?HA, run_queue_runs by done.
  - apply (dispatch_sync_aborts cfg (with_input v s) k r HA); [|done..].
    by eapply DInv_frame.
  - apply (dispatch_sync_aborts cfg (with_compilationStatus c s) k r HA); [|done..].
    by eapply DInv_frame.
Qed.

(** App variant: once the request has been answered with a job id, the
    next write to the input, and the next emission of the compilation
    status whatever it carries, asks the executor to cancel that job, once;
    nothing is aborted. *)
Theorem superseded_job_cancelled cfg s k r jobId meta e :
  variant cfg = InspectifyApp → reachable cfg s →
  st_dispatchRuns s !! k = Some r → d_at r = await_request →
  (∃ v, e = InputSet v) ∨ (∃ c, e = StatusSet c) →
  let s' := run cfg s [AnalysisResolve k jobId meta; e] in
  st_jobsCancel s' = st_jobsCancel s ++ [jobId] ∧ st_aborted s' = st_aborted s.
Proof.
  intros HA Hs Hk Ha He.
  destruct (request_under_way cfg s k r (reachable_Inv _ _ Hs) Hk Ha)
    as (_ & _ & Hc & _).
  change (run cfg s [AnalysisResolve k jobId meta; e])
    with (step cfg (step cfg s (AnalysisResolve k jobId meta)) e).
  set (s1 := step cfg s (AnalysisResolve k jobId meta)).
  assert (st_dispatchCleanup s1 = Some k ∧
          st_dispatchRuns s1 !! k = Some (d_resolved (cancel_jobsCancel jobId) jobId r) ∧
          st_jobsCancel s1 = st_jobsCancel s ∧ st_aborted s1 = st_aborted s)
    as (Hc1 & Hk1 & Hj1 & Hab1).
  { subst s1. simpl. unfold dispatch_resolved. rewrite Hk, Ha, HA.
    match goal with |- context [results_sync cfg ?s0] =>
      pose proof (results_sync_side cfg s0) as Hside;
      pose proof (results_sync_logs cfg s0) as Hlogs end.
    injection Hside as _ _ _ -> -> _ _ _. injection Hlogs as -> -> _ _.
    simpl. by rewrite list_lookup_alter_eq, Hk. }
  assert (∀ s2, st_dispatchCleanup s2 = Some k →
            st_dispatchRuns s2 !! k = Some (d_resolved (cancel_jobsCancel jobId) jobId r) →
            st_jobsCancel (dispatch_sync cfg s2) = st_jobsCancel s2 ++ [jobId] ∧
            st_aborted (dispatch_sync cfg s2) = st_aborted s2) as Hsync.
  { intros s2 Hc2 Hk2. unfold dispatch_sync, dispatch_cleanup, dispatch_cancel.
    rewrite Hc2. simpl. rewrite list_lookup_alter_eq, Hk2. simpl.
    match goal with |- context [jobIdAndMetaDerived cfg ?s0] =>
      destruct (jobIdAndMetaDerived_logs cfg s0) as (Hlogs & _) end.
    by injection Hlogs as -> -> _ _. }
  rewrite <-Hj1, <-Hab1.
  assert (stuck s1 = false) as Hn1
    by (apply (reachable_app_not_stuck cfg); [done|by constructor]).
  destruct He as [[v ->]|[c ->]]; simpl; rewrite ?HA, run_queue_runs by done.
  - by apply (Hsync (with_input v s1)).
  - by apply (Hsync (with_compilationStatus c s1)).
Qed.

(** App variant: the value published when a request is answered pairs the
    job id and the meta of the response with the input the request
    carried, and that is the input the cell holds at that moment; the
    selected job id follows. *)
Theorem published_with_live_input cfg s k r jobId meta :
  variant cfg = InspectifyApp → reachable cfg s →
  st_dispatchRuns s !! k = Some r → d_at r = await_request →
  let s' := step cfg s (AnalysisResolve k jobId meta) in
  st_jobIdAndMeta s' =
    Some {| p_gen := k; p_jobId := jobId; p_input := st_input s; p_meta := meta |} ∧
  st_selectedJobId s' = Some jobId ∧ st_input s' = st_input s ∧
  (k, st_input s) ∈ st_submitted s'.
Proof.
  intros HA Hs Hk Ha.
  destruct (request_under_way cfg s k r (reachable_Inv _ _ Hs) Hk Ha)
    as (Hin & Hsub & _).
  simpl. unfold dispatch_resolved. rewrite Hk, Ha, HA.
  match goal with |- context [results_sync cfg ?s0] =>
    pose proof (results_sync_side cfg s0) as Hside;
    pose proof (results_sync_logs cfg s0) as Hlogs end.
  injection Hside as _ -> _ _ _ -> -> _. injection Hlogs as _ _ -> _.
  simpl. by rewrite Hin.
Qed.

(** ** Outside the browser *)

(** With [browser] false both variants do nothing at all: whatever is
    written and whatever the surroundings do, no timer is set, nothing is
    submitted or published, and the results store keeps its initial value
    without ever being set. *)
Theorem server_side_inert cfg s :
  browser cfg = false → reachable cfg s →
  st_timers s = [] ∧ st_dispatchRuns s = [] ∧ st_submitted s = [] ∧
  st_jobIdAndMeta s = None ∧ st_emitted s = [] ∧
  st_results s = initial_results cfg ∧ st_uncaught s = [].
Proof.
  intros Hb Hs.
  assert (idle cfg s) as Hidle; [|by destruct Hidle as (? & ? & ? & ? & ? & ? & ? & ? & ? & ?)].
  induction Hs as [defaultInput status registry|s e Hs IH].
  - unfold initializeIo, jobIdAndMetaDerived, dispatch_guard. rewrite Hb. simpl.
    by repeat split.
  - destruct IH as (Ht & Hr & Hc & Hp & Hrr & Hrc & Hsub & Hem & Hres & Hun).
    destruct s; simpl in *; subst.
    destruct e as [d|v|c|k jobId meta|k message|id j|]; simpl;
      unfold dispatch_sync, jobIdAndMetaDerived, dispatch_guard;
      rewrite ?Hb; simpl; try (by repeat split).
    destruct (variant cfg); simpl; rewrite ?Hb; by repeat split.
Qed.

(** ** What a record sets *)

(** App variant: a record written with state ['Succeeded'] sets the
    results to ['Current'], pinned to the cached input, with each of
    [output], [referenceOutput] and [validation] passed on as the record
    has it: a value as that value, [null] as [null], and a record without
    [analysis_data], or without the field, gives [undefined] there, not
    [null]. *)
Theorem succeeded_projection cfg s k r j :
  variant cfg = InspectifyApp → reachable cfg s →
  st_resultsRuns s !! k = Some r → r_sub r = subscribed →
  state j = JobState.Succeeded →
  let s' := step cfg s (RecordSet (r_jobId r) j) in
  let x := st_results s' in
  st_emitted s' = st_emitted s ++ [(r_gen r, x)] ∧
  outputState x = OutputState.Current ∧
  input x = Val (r_cachedInput r) ∧ job x = Val (r_jobId r) ∧
  (analysis_data j = None →
   output x = Undefined ∧ referenceOutput x = Undefined ∧ validation x = Undefined) ∧
  (∀ d, analysis_data j = Some d →
   output x = ad_output d ∧ referenceOutput x = ad_reference_output d ∧
   validation x = match ad_validation d with
                  | Val v => Val (Remote v)
                  | Null => Null
                  | Undefined => Undefined
                  end).
Proof.
  intros HA Hs Hk Hb Hj s' x. subst x s'. simpl.
  rewrite run_queue_runs by exact (reachable_app_not_stuck cfg s HA Hs).
  rewrite (notify_record_subscribed cfg _ j _ k r); try done;
    [|by apply Inv_with_jobs, reachable_Inv].
  unfold job_subscriber. rewrite Hj. simpl. rewrite HA.
  do 4 (split; [done|]). split.
  - by intros ->.
  - intros d ->. simpl. by destruct (ad_validation d).
Qed.

(** A record written with state ['Queued'], ['Running'] or ['Canceled']
    sets nothing and ends nothing: the run stays subscribed, so that a
    later write of the same record with state ['Succeeded'] still sets the
    results, after ['Canceled'] too (the subscriber queue being in
    order). *)
Theorem silent_states_keep_subscription cfg s k r j j' :
  reachable cfg s → stuck s = false →
  st_resultsRuns s !! k = Some r → r_sub r = subscribed →
  state j = JobState.Queued ∨ state j = JobState.Running ∨
  state j = JobState.Canceled →
  state j' = JobState.Succeeded →
  let s1 := step cfg s (RecordSet (r_jobId r) j) in
  let s2 := step cfg s1 (RecordSet (r_jobId r) j') in
  st_emitted s1 = st_emitted s ∧ st_results s1 = st_results s ∧
  st_resultsRuns s1 = st_resultsRuns s ∧
  st_emitted s2 = st_emitted s ++ [(r_gen r, succeeded_results cfg r j')] ∧
  st_results s2 = succeeded_results cfg r j'.
Proof.
  intros Hs Hn Hk Hb Hj Hj' s1 s2. apply reachable_Inv in Hs.
  assert (s1 = with_jobs (<[r_jobId r := j]> (st_jobs s)) s) as E1.
  { subst s1. simpl. rewrite run_queue_runs by done.
    rewrite (notify_record_subscribed cfg _ j _ k r); try done;
      [|by apply Inv_with_jobs].
    unfold job_subscriber. by destruct Hj as [->|[->| ->]]. }
  subst s2. rewrite E1. do 3 (split; [done|]). simpl.
  rewrite run_queue_runs by done.
  rewrite (notify_record_subscribed cfg _ j' _ k r); try done;
    [|by do 2 apply Inv_with_jobs].
  unfold job_subscriber. by rewrite Hj'.
Qed.

(** ** The loop of a results run, continued *)

Lemma fire_resultsCleanup cfg task s :
  st_resultsCleanup (fire cfg task s) = st_resultsCleanup s.
Proof.
  destruct task as [k|k]; simpl.
  - unfold dispatch_timer. destruct (st_dispatchRuns s !! k) as [r|]; [|done].
    by destruct (d_stop r).
  - unfold results_poll. destruct (st_resultsRuns s !! k) as [r|]; [|done].
    destruct (r_stop r); [done|].
    destruct (st_jobs s !! r_jobId r) as [j|]; [|done].
    by destruct (job_subscriber cfg r j).
Qed.

Lemma fire_uncaught cfg task s :
  ∃ more, st_uncaught (fire cfg task s) = st_uncaught s ++ more.
Proof.
  destruct task as [k|k]; simpl.
  - exists []. rewrite app_nil_r. unfold dispatch_timer.
    destruct (st_dispatchRuns s !! k) as [r|]; [|done]. by destruct (d_stop r).
  - unfold results_poll. destruct (st_resultsRuns s !! k) as [r|];
      [|exists []; by rewrite app_nil_r].
    destruct (r_stop r); [by eexists|]. exists []. rewrite app_nil_r.
    destruct (st_jobs s !! r_jobId r) as [j|]; [|done].
    by destruct (job_subscriber cfg r j).
Qed.

(** When the oldest timer is not yet due, none is. *)
Lemma oldest_not_due s t e :
  TInv s →
  match st_timers s with
  | (due, _) :: _ => t < due
  | [] => True
  end →
  e ∈ st_timers s → t < e.1.
Proof.
  intros [Hso _ _ _ _] Hhd [i Hi]%list_elem_of_lookup.
  destruct (st_timers s) as [|[due task] rest] eqn:Hts; [done|].
  specialize (Hso 0 i (due, task) e). simpl in Hso.
  assert (due ≤ e.1) by (apply Hso; [lia|done..]). lia.
Qed.

(** The timer of a results run other than the registered one finds its
    run stopped: it sets nothing, subscribes to nothing and sets no
    further timer. *)
Lemma fire_other_poll cfg s k k' :
  Inv cfg s → st_resultsCleanup s = Some k → k' ≠ k →
  let s' := fire cfg (TPoll k') s in
  st_emitted s' = st_emitted s ∧ st_timers s' = st_timers s ∧
  st_resultsRuns s' !! k = st_resultsRuns s !! k.
Proof.
  intros [_ _ _ HR _] Hc Hne. simpl. unfold results_poll.
  destruct (st_resultsRuns s !! k') as [r'|] eqn:Hk'; [|done].
  destruct (r_stop r') eqn:Hs'.
  - simpl. by rewrite list_lookup_alter_ne.
  - destruct (rinv_live _ HR _ _ Hk' Hs') as [? _]. congruence.
Qed.

Lemma fire_dispatch_results cfg s k :
  let s' := fire cfg (TDispatch k) s in
  st_emitted s' = st_emitted s ∧ st_timers s' = st_timers s ∧
  st_resultsRuns s' = st_resultsRuns s.
Proof.
  simpl. unfold dispatch_timer. destruct (st_dispatchRuns s !! k) as [r|]; [|done].
  by destruct (d_stop r).
Qed.

(** The race between the answer to the request and the registry: a results
    run in its loop hears nothing of the record when it is written, since
    it has not subscribed yet; its next wake-up, at most one quiet period
    later, finds the record, subscribes, and sets what the record's state
    calls for. *)
Theorem late_record_found cfg s k r j :
  reachable cfg s → polling s k r → r_sub r = no_subscription →
  let s1 := step cfg s (RecordSet (r_jobId r) j) in
  let s2 := step cfg s1 (Wait quiet) in
  st_emitted s1 = st_emitted s ∧ st_results s1 = st_results s ∧
  st_emitted s2 = st_emitted s ++ match job_subscriber cfg r j with
                                  | Some x => [(r_gen r, x)]
                                  | None => []
                                  end ∧
  ∃ r', st_resultsRuns s2 !! k = Some r' ∧ r_sub r' = subscribed ∧
        r_polling r' = false ∧ r_stop r' = false.
Proof.
  intros Hs (Hc & Hk & Hstop & Hpo & Hj & due0 & Hin) Hb s1 s2.
  apply reachable_Inv in Hs.
  set (m := <[r_jobId r := j]> (st_jobs s)).
  assert (s1 = with_jobs m s) as E1.
  { subst s1. simpl. unfold run_queue. destruct (stuck _); [done|].
    apply foldl_notify_idle.
    intros r0 [k0 Hk0]%list_elem_of_lookup Hb0. simpl in Hk0.
    destruct (subscribed_current cfg s k0 r0 Hs Hk0 Hb0) as [Hc0 _].
    assert (k0 = k) by congruence. subst k0. congruence. }
  assert (Inv cfg s1) as H1 by (rewrite E1; by apply Inv_with_jobs).
  split; [by rewrite E1|]. split; [by rewrite E1|].
  set (X := match job_subscriber cfg r j with
            | Some x => [(r_gen r, x)]
            | None => []
            end).
  set (t := st_now s1 + quiet).
  set (P := λ s0 : State,
    Inv cfg s0 ∧ st_jobs s0 = m ∧ st_resultsCleanup s0 = Some k ∧
    ((st_resultsRuns s0 !! k = Some r ∧ (∃ due, (due, TPoll k) ∈ st_timers s0 ∧ due ≤ t) ∧
      st_emitted s0 = st_emitted s) ∨
     ((∀ due, (due, TPoll k) ∉ st_timers s0) ∧
      st_resultsRuns s0 !! k = Some (r_set_sub subscribed r) ∧
      st_emitted s0 = st_emitted s ++ X))).
  set (Q := λ s0 : State,
    st_emitted s0 = st_emitted s ++ X ∧
    st_resultsRuns s0 !! k = Some (r_set_sub subscribed r)).
  assert (Q s2) as [Hem Hrun]; [|split; [done|]; by eexists].
  subst s2. simpl. apply (advance_elim cfg P Q); [| |done|].
  - (* the oldest timer fires *)
    intros s0 due task rest (H0 & Hm & Hc0 & Halt) Ht Hdue.
    pose proof (Inv_fire cfg s0 due task rest H0 Ht) as H0'.
    pose proof (Inv_pop cfg s0 due task rest H0 Ht) as Hpop.
    set (sp := with_now due (with_timers rest s0)) in *.
    destruct (fire_env cfg task sp) as (_ & _ & _ & Ejobs & _).
    split; [done|]. split; [by rewrite Ejobs|].
    split; [by rewrite fire_resultsCleanup|].
    assert (task ∉ rest.*2) as Hnodup.
    { destruct H0 as [HT _ _ _ _]. by destruct (TInv_pop s0 due task rest HT Ht). }
    destruct (decide (task = TPoll k)) as [->|Hne].
    + (* the run's own timer *)
      destruct Halt as [(Hk0 & _ & Hem0)|(Hno & _)];
        [|destruct (Hno due); rewrite Ht; by left].
      right. simpl. unfold results_poll. subst sp. simpl.
      rewrite Hk0, Hstop, Hm. unfold m. rewrite lookup_insert_eq. simpl.
      split; [|split].
      * intros due' Hin'. apply Hnodup.
        destruct (job_subscriber cfg r j); simpl in Hin';
          by apply (list_elem_of_fmap_2' snd _ (due', TPoll k)).
      * destruct (job_subscriber cfg r j); simpl;
          by rewrite list_lookup_alter_eq, Hk0.
      * subst X. destruct (job_subscriber cfg r j); simpl;
          rewrite Hem0; [done|by rewrite app_nil_r].
    + (* some other timer *)
      assert (st_emitted (fire cfg task sp) = st_emitted s0 ∧
              st_timers (fire cfg task sp) = rest ∧
              st_resultsRuns (fire cfg task sp) !! k = st_resultsRuns s0 !! k)
        as (Eem & Etim & Erun).
      { destruct task as [k'|k'].
        - by destruct (fire_dispatch_results cfg sp k') as (-> & -> & ->).
        - apply (fire_other_poll cfg sp k k'); [done|done|congruence]. }
      rewrite Eem, Etim, Erun.
      destruct Halt as [(Hk0 & (due1 & Hin1 & Hle1) & Hem0)|(Hno & Hk0 & Hem0)].
      * left. split; [done|]. split; [|done]. exists due1. split; [|done].
        rewrite Ht in Hin1. apply elem_of_cons in Hin1 as [?|?]; [congruence|done].
      * right. split; [|done]. intros due' Hin'. apply (Hno due').
        rewrite Ht. by right.
  - (* no timer is due any more *)
    intros s0 (H0 & Hm & Hc0 & Halt) Hhd.
    destruct Halt as [(_ & (due1 & Hin1 & Hle1) & _)|(_ & Hk0 & Hem0)]; [|done].
    destruct H0 as [HT _ _ _ _].
    pose proof (oldest_not_due s0 t _ HT Hhd Hin1). simpl in *. lia.
  - (* at the start *)
    subst P. simpl. split; [done|]. split; [by rewrite E1|].
    split; [by rewrite E1|]. left. rewrite E1. simpl.
    split; [done|]. split; [|done]. exists due0. split; [done|].
    destruct Hs as [HT _ _ _ _]. destruct (tinv_bounds _ HT _ Hin) as [_ Hup].
    subst t. rewrite E1. simpl in *. lia.
Qed.

Lemma results_sync_timers cfg s e :
  e ∈ st_timers s → e ∈ st_timers (results_sync cfg s).
Proof.
  intros He. unfold results_sync, results.
  destruct (results_cleanup_side s) as (_ & Etim & _).
  destruct (st_jobIdAndMeta (results_cleanup s)) as [p|]; simpl; [|by rewrite Etim].
  match goal with |- context [results_poll cfg ?k ?s0] =>
    apply (timers_kept cfg (TPoll k) s0) end.
  simpl. by rewrite Etim.
Qed.

(** A stopped results run whose timer is still in the queue throws when
    time reaches it: [job] is still [undefined] when the loop is left. *)
Lemma stopped_timer_throws cfg s k r due t :
  Inv cfg s → st_resultsRuns s !! k = Some r → r_stop r = true →
  (due, TPoll k) ∈ st_timers s → due ≤ t →
  ∃ more, st_uncaught (advance cfg (due_count t (st_timers s)) t s) =
          st_uncaught s ++ more ∧ TypeError ∈ more.
Proof.
  intros H Hk Hstop Hin Hdue.
  set (P := λ s0 : State,
    Inv cfg s0 ∧ ∃ more, st_uncaught s0 = st_uncaught s ++ more ∧
      (TypeError ∈ more ∨
       ((due, TPoll k) ∈ st_timers s0 ∧
        ∃ r0, st_resultsRuns s0 !! k = Some r0 ∧ r_stop r0 = true))).
  apply (advance_elim cfg P); [| |done|].
  - intros s0 due' task rest (H0 & more & Hun & Halt) Ht Hdue'.
    pose proof (Inv_fire cfg s0 due' task rest H0 Ht) as H0'.
    set (sp := with_now due' (with_timers rest s0)) in *.
    split; [done|].
    destruct (fire_uncaught cfg task sp) as [more' Hun'].
    destruct Halt as [Hty|(Hin0 & r0 & Hk0 & Hs0)].
    { exists (more ++ more'). rewrite Hun'. simpl. rewrite Hun, <-app_assoc.
      split; [done|]. left. apply elem_of_app. by left. }
    rewrite Ht in Hin0. apply elem_of_cons in Hin0 as [Heq|Hin0].
    + simplify_eq. exists (more ++ [TypeError]).
      simpl. unfold results_poll. subst sp. simpl. rewrite Hk0, Hs0. simpl.
      rewrite Hun, <-app_assoc. split; [done|]. left.
      apply elem_of_app. right. by left.
    + exists (more ++ more'). rewrite Hun'. simpl. rewrite Hun, <-app_assoc.
      split; [done|]. right. split; [by apply timers_kept|].
      destruct task as [k'|k']; simpl.
      * destruct (fire_dispatch_results cfg sp k') as (_ & _ & Eruns).
        simpl in Eruns. rewrite Eruns. by exists r0.
      * unfold results_poll. subst sp. simpl.
        destruct (decide (k' = k)) as [->|Hne].
        -- rewrite Hk0, Hs0. simpl. rewrite list_lookup_alter_eq, Hk0. simpl.
           by eexists.
        -- destruct (st_resultsRuns s0 !! k') as [r'|]; [|by exists r0].
           destruct (r_stop r'); simpl; [rewrite list_lookup_alter_ne by done; by exists r0|].
           destruct (st_jobs s0 !! r_jobId r') as [j|]; simpl.
           ++ destruct (job_subscriber cfg r' j); simpl;
                rewrite list_lookup_alter_ne by done; by exists r0.
           ++ rewrite list_lookup_alter_ne by done. by exists r0.
  - intros s0 (H0 & more & Hun & Halt) Hhd. exists more. split; [done|].
    destruct Halt as [?|(Hin0 & _)]; [done|].
    destruct H0 as [HT _ _ _ _].
    pose proof (oldest_not_due s0 t _ HT Hhd Hin0). simpl in *. lia.
  - subst P. simpl. split; [done|]. exists []. rewrite app_nil_r.
    split; [done|]. right. split; [done|]. by exists r.
Qed.

(** The loop of a results run that is superseded while the record is still
    missing: an emission of [jobsStore] (the subscriber queue being in
    order) stops the run but leaves its timer in the queue, and starts a
    new run; when the timer of the stopped run
    fires, the loop is left with [job] still [undefined] and
    [job.subscribe] throws a TypeError that nothing catches. *)
Theorem stopped_poller_throws cfg s k r :
  reachable cfg s → stuck s = false → polling s k r →
  let s1 := step cfg s JobsEmit in
  let s2 := step cfg s1 (Wait quiet) in
  (∃ r1 due, st_resultsRuns s1 !! k = Some r1 ∧ r_stop r1 = true ∧
             (due, TPoll k) ∈ st_timers s1) ∧
  st_resultsCleanup s1 = Some (length (st_resultsRuns s)) ∧
  st_uncaught s1 = st_uncaught s ∧
  ∃ more, st_uncaught s2 = st_uncaught s ++ more ∧ TypeError ∈ more.
Proof.
  intros Hs Hn (Hc & Hk & Hstop & Hpo & Hj & due0 & Hin) s1 s2.
  assert (Inv cfg s1) as H1 by (by apply reachable_Inv; constructor).
  apply reachable_Inv in Hs.
  assert (s1 = results_sync cfg s) as E1
    by (subst s1; simpl; by rewrite run_queue_runs).
  subst s2. clearbody s1. subst s1. set (s1 := results_sync cfg s) in *.
  destruct (rinv_live _ (inv_r _ _ Hs) _ _ Hk Hstop) as [_ (p & Hp & _)].
  destruct (results_sync_spec cfg s p Hp) as (_ & Hc1 & _ & Hold & _).
  specialize (Hold _ _ Hc Hk).
  assert ((due0, TPoll k) ∈ st_timers s1) as Hin1 by (by apply results_sync_timers).
  assert (st_uncaught s1 = st_uncaught s) as Hun1.
  { pose proof (results_sync_logs cfg s) as Hlogs. by injection Hlogs. }
  split; [exists (r_cancel (r_set_stop r)), due0; split; [done|split; [|done]]|].
  { unfold r_cancel. simpl. by destruct (r_sub r). }
  split; [done|]. split; [done|]. rewrite <-Hun1. simpl.
  apply (stopped_timer_throws cfg s1 k (r_cancel (r_set_stop r)) due0); try done.
  - unfold r_cancel. simpl. by destruct (r_sub r).
  - destruct H1 as [HT _ _ _ _]. destruct (tinv_bounds _ HT _ Hin1). simpl in *. lia.
Qed.

(** ** What is thrown *)

(** App variant: the dispatcher's cleanup never throws, its [cancel]
    closing over the request or over a job id that is bound already.  The
    ReferenceError of the earlier variant never occurs, and every write to
    the input runs the callback again: the run it starts, if the guards
    let it start one, is the one whose cleanup is registered then. *)
Theorem app_cleanup_never_throws cfg s w :
  variant cfg = InspectifyApp → reachable cfg s →
  (ReferenceError ∉ st_uncaught s) ∧
  (dispatch_cleanup (with_input w s)).2 = false ∧
  st_dispatchCleanup (step cfg s (InputSet w)) =
    if dispatch_guard cfg s then Some (length (st_dispatchRuns s)) else None.
Proof.
  intros HA Hs. pose proof (reachable_app_not_stuck cfg s HA Hs) as Hn.
  split; [by apply stuck_false|split].
  - apply (cleanup_no_throw_app cfg); [done|].
    pose proof (reachable_Inv _ _ Hs) as [_ Hd _ _ _]. by eapply DInv_frame.
  - pose proof (reachable_Inv _ _ Hs) as [_ Hd _ _ _].
    assert ((dispatch_cleanup (with_input w s)).2 = false) as Hthrew
      by (apply (cleanup_no_throw_app cfg); [done|by eapply DInv_frame]).
    pose proof (dispatch_cleanup_outside (with_input w s)) as Hout.
    pose proof (dispatch_cleanup_runs (with_input w s)) as Hruns.
    simpl. rewrite run_queue_runs by done. unfold dispatch_sync.
    destruct (dispatch_cleanup (with_input w s)) as [s1 threw]. simpl in *.
    subst threw.
    injection Hout as Enow Einp Est Ejobs Etim Ecl Epub Err Erc Eres Esub Eem.
    assert (length (st_dispatchRuns s1) = length (st_dispatchRuns s)) as Hlen.
    { rewrite Hruns. destruct (st_dispatchCleanup s); [apply length_alter|done]. }
    unfold jobIdAndMetaDerived.
    replace (dispatch_guard cfg s1) with (dispatch_guard cfg s)
      by (unfold dispatch_guard, compilation_succeeded; by rewrite Est).
    destruct (dispatch_guard cfg s); simpl; by rewrite ?Hlen.
Qed.

(** ** The job the results name *)

Lemma names_job_placeholder cfg id : names_job cfg id (placeholder cfg id).
Proof. unfold names_job, placeholder. destruct (variant cfg); simpl; auto. Qed.

Lemma names_job_subscriber cfg r j x :
  job_subscriber cfg r j = Some x → names_job cfg (r_jobId r) x.
Proof.
  unfold job_subscriber, names_job. intros Hx.
  destruct (state j), (variant cfg) eqn:HV; simplify_eq; simpl; rewrite ?HV; auto.
Qed.

Lemma NInv_frame cfg s s' :
  st_jobIdAndMeta s' = st_jobIdAndMeta s → st_results s' = st_results s →
  st_emitted s' = st_emitted s → NInv cfg s → NInv cfg s'.
Proof. unfold NInv. by intros -> -> ->. Qed.

Lemma NInv_emit_opt cfg s p r j :
  st_jobIdAndMeta s = Some p → r_jobId r = p_jobId p → NInv cfg s →
  NInv cfg (emit_opt (r_gen r) (job_subscriber cfg r j) s).
Proof.
  intros Hp Hid Hs. destruct (job_subscriber cfg r j) as [x|] eqn:Hx; [|done].
  unfold NInv. simpl. rewrite Hp, <-Hid. by eapply names_job_subscriber.
Qed.

Lemma NInv_results_poll cfg k s :
  RInv s → NInv cfg s → NInv cfg (results_poll cfg k s).
Proof.
  intros HR Hs. unfold results_poll.
  destruct (st_resultsRuns s !! k) as [r|] eqn:Hk; [|done].
  destruct (r_stop r) eqn:Hstop; [by apply (NInv_frame cfg s)|].
  destruct (rinv_live _ HR _ _ Hk Hstop) as [_ (p & Hp & _ & Hid & _)].
  destruct (st_jobs s !! r_jobId r) as [j|]; [|by apply (NInv_frame cfg s)].
  eapply NInv_frame; [..|by apply (NInv_emit_opt cfg s p r j)]; done.
Qed.

(** A run of the results callback sets the placeholder first, which names
    the job it was called with, and whatever it sets afterwards names that
    job too. *)
Lemma results_sync_names cfg s p :
  st_jobIdAndMeta s = Some p → NInv cfg (results_sync cfg s).
Proof.
  intros Hp0. unfold results_sync, results.
  destruct (results_cleanup_side s) as (Hside & _).
  injection Hside as _ _ _ _ _ Ep _ _. rewrite Ep, Hp0.
  set (s1 := results_cleanup s) in *.
  set (k := length (st_resultsRuns s1)).
  set (s2 := emit (p_gen p) (placeholder cfg (p_jobId p))
               (with_resultsRuns (st_resultsRuns s1 ++ [new_resultsRun p]) s1)).
  assert (st_resultsRuns s2 !! k = Some (new_resultsRun p)) as Hk
    by (by apply list_lookup_middle).
  assert (st_jobIdAndMeta s2 = Some p) as Hp by (simpl; congruence).
  assert (NInv cfg s2) as H2.
  { unfold NInv. rewrite Hp. apply names_job_placeholder. }
  eapply (NInv_frame cfg (results_poll cfg k s2)); [done..|].
  unfold results_poll. rewrite Hk. simpl.
  destruct (st_jobs s1 !! p_jobId p) as [j|]; [|by apply (NInv_frame cfg s2)].
  eapply NInv_frame; [..|by apply (NInv_emit_opt cfg s2 p (new_resultsRun p) j)];
    done.
Qed.

Lemma NInv_results_sync cfg s : NInv cfg s → NInv cfg (results_sync cfg s).
Proof.
  intros Hs. destruct (st_jobIdAndMeta s) as [p|] eqn:Hp;
    [by eapply results_sync_names|].
  unfold results_sync, results.
  destruct (results_cleanup_side s) as (Hside & _ & Eem & Eres & _).
  injection Hside as _ _ _ _ _ Ep _ _. rewrite Ep, Hp.
  eapply NInv_frame; [..|done]; simpl; congruence.
Qed.

Lemma dispatch_sync_published cfg s :
  st_jobIdAndMeta (dispatch_sync cfg s) = st_jobIdAndMeta s.
Proof.
  pose proof (dispatch_cleanup_outside s) as Hout.
  unfold dispatch_sync. destruct (dispatch_cleanup s) as [s1 threw]. simpl in *.
  injection Hout as Enow Einp Est Ejobs Etim Ecl Epub Err Erc Eres Esub Eem.
  destruct threw; [done|].
  by destruct (jobIdAndMetaDerived_logs cfg s1) as (_ & -> & _).
Qed.

Lemma NInv_notify cfg id j l : ∀ s,
  (∀ r, r ∈ l → r_sub r = subscribed →
        ∃ p, st_jobIdAndMeta s = Some p ∧ r_jobId r = p_jobId p) →
  NInv cfg s → NInv cfg (foldl (notify_run cfg id j) s l).
Proof.
  induction l as [|r l IH]; intros s Hl Hs; [done|]. simpl. apply IH.
  - intros r' Hr' Hb'. destruct (Hl r') as (p & Hp & Hid); [by right|done|].
    exists p. split; [|done].
    destruct (notify_run_side cfg id j s r) as (Hside & _).
    by injection Hside as _ _ _ _ _ -> _ _.
  - unfold notify_run. destruct (r_sub r) eqn:Hb; try done.
    case_decide; [|done].
    destruct (Hl r) as (p & Hp & Hid); [by left|done|].
    by apply (NInv_emit_opt cfg s p).
Qed.

Lemma NInv_step cfg s e : Inv cfg s → NInv cfg s → NInv cfg (step cfg s e).
Proof.
  intros H Hs. destruct e as [d|v|c|k jobId meta|k message|id j|]; simpl.
  - apply (advance_elim cfg (λ s0, Inv cfg s0 ∧ st_now s0 ≤ st_now s + d ∧ NInv cfg s0)
             (NInv cfg)); [| |done|split; [done|split; [lia|done]]].
    + intros s0 due task rest (H0 & Hle0 & Hn0) Ht Hdue.
      split; [by apply Inv_fire|].
      destruct (fire_timers cfg task (with_now due (with_timers rest s0))) as [-> _].
      split; [done|].
      destruct (Inv_pop cfg s0 due task rest H0 Ht) as [_ _ _ HR _].
      destruct task as [k|k]; simpl.
      * unfold dispatch_timer. simpl.
        destruct (st_dispatchRuns s0 !! k) as [r|]; [|by eapply NInv_frame].
        destruct (d_stop r); by eapply NInv_frame.
      * apply NInv_results_poll; [done|]. by eapply NInv_frame.
    + intros s0 (_ & _ & Hn0) _. by eapply NInv_frame.
  - apply run_queue_ind; [by eapply NInv_frame|].
    destruct (dispatch_sync_results_same cfg (with_input v s)) as [H1 H2].
    pose proof (dispatch_sync_published cfg (with_input v s)) as Hp.
    by eapply NInv_frame.
  - destruct (variant cfg); [|by eapply NInv_frame].
    apply run_queue_ind; [by eapply NInv_frame|].
    destruct (dispatch_sync_results_same cfg (with_compilationStatus c s)) as [H1 H2].
    pose proof (dispatch_sync_published cfg (with_compilationStatus c s)) as Hp.
    by eapply NInv_frame.
  - unfold dispatch_resolved.
    destruct (st_dispatchRuns s !! k) as [r|]; [|done].
    destruct (d_at r); try done.
    destruct (variant cfg) eqn:HV.
    + by eapply results_sync_names.
    + case_decide; [by eapply NInv_frame|]. by eapply results_sync_names.
  - unfold dispatch_rejected.
    destruct (st_dispatchRuns s !! k) as [r|]; [|done].
    destruct (d_at r); by try eapply NInv_frame.
  - apply run_queue_ind; [by eapply NInv_frame|].
    apply NInv_notify; [|by eapply NInv_frame].
    intros r [k Hk]%list_elem_of_lookup Hb.
    destruct (subscribed_current cfg _ k r (Inv_with_jobs cfg _ s H) Hk Hb)
      as [_ (p & Hp & _ & Hid & _)].
    by exists p.
  - apply run_queue_ind; [done|]. by apply NInv_results_sync.
Qed.

Lemma NInv_init cfg defaultInput status registry :
  NInv cfg (initializeIo cfg defaultInput status registry).
Proof.
  unfold initializeIo. apply NInv_results_sync.
  eapply NInv_frame; [apply jobIdAndMetaDerived_logs..|]. by unfold NInv.
Qed.

(** In every reachable state of either variant the results store names
    the job that is published: the earlier variant's value carries its id
    as [latestJobId], the app variant's value has it as [job] unless it is
    the placeholder, whose [job] is [null].  Before the first job id is
    published the store has never been set. *)
Theorem results_name_published_job cfg s :
  reachable cfg s →
  match st_jobIdAndMeta s with
  | Some p =>
      match variant cfg with
      | Earlier => latestJobId (st_results s) = Val (p_jobId p)
      | InspectifyApp =>
          job (st_results s) = Null ∨ job (st_results s) = Val (p_jobId p)
      end
  | None => st_results s = initial_results cfg ∧ st_emitted s = []
  end.
Proof.
  intros Hs. change (NInv cfg s).
  induction Hs as [defaultInput status registry|s e Hs IH].
  - apply NInv_init.
  - apply NInv_step; [by apply reachable_Inv|done].
Qed.

(** ** The generated input *)

Lemma init_pending cfg defaultInput status registry :
  dispatch_guard cfg (initializeIo cfg defaultInput status registry) = true →
  pending cfg (initializeIo cfg defaultInput status registry) 0 defaultInput ∧
  st_submitted (initializeIo cfg defaultInput status registry) = [].
Proof.
  intros Hg.
  split; [split; [apply Inv_init|split; [apply init_not_stuck|split; [done|]]]|];
    revert Hg;
    unfold initializeIo, results_sync, results_cleanup, results, jobIdAndMetaDerived;
    simpl; unfold dispatch_guard, compilation_succeeded; simpl;
    destruct (browser cfg), (variant cfg), status as [[]|]; simpl; try done;
    intros _; (split; [done|]); (split; [done|]); by left.
Qed.

(** [initializeIo] starts a quiet period for the default input and asks
    for a generated one.  When the generated input arrives before that
    quiet period is over, the default input is never submitted: the only
    request made is for the generated input, one quiet period after it
    arrived. *)
Theorem generated_replaces_default cfg defaultInput registry d g :
  browser cfg = true → d < quiet →
  let s0 := initializeIo cfg defaultInput (Some CompilerState.Succeeded) registry in
  let sv := generate cfg g (step cfg s0 (Wait d)) in
  sv.2 = g ∧ st_input sv.1 = g ∧ st_submitted sv.1 = [] ∧
  ∃ k, st_submitted (step cfg sv.1 (Wait quiet)) = [(k, g)].
Proof.
  intros Hb Hd s0 sv.
  assert (dispatch_guard cfg s0 = true) as Hg.
  { subst s0. unfold initializeIo, results_sync, results_cleanup, results,
      jobIdAndMetaDerived, dispatch_guard, compilation_succeeded. simpl.
    rewrite Hb. by destruct (variant cfg). }
  destruct (init_pending cfg defaultInput (Some CompilerState.Succeeded) registry Hg)
    as [Hp Hsub0].
  fold s0 in Hp, Hsub0.
  split; [done|].
  pose proof Hp as (H0 & Hn0 & _ & Hk & Hc & Hin).
  destruct (wait_holds cfg s0 d 0 _ (st_now s0 + quiet) H0 Hk eq_refl eq_refl Hin)
    as (H1 & Hsub1 & Hk1 & Hin1 & Hnow1 & Hst1 & Hc1); [lia|].
  destruct (step_env cfg (step cfg s0 (Wait d)) (InputSet g)) as ([Hsub2 _] & _ & _);
    [done|].
  assert (stuck (step cfg s0 (Wait d)) = false) as Hn1
    by (simpl; by rewrite advance_stuck).
  split; [|split].
  - subst sv. unfold generate, fst.
    change (step cfg (step cfg s0 (Wait d)) (InputSet g))
      with (run_queue (dispatch_sync cfg) (with_input g (step cfg s0 (Wait d)))).
    rewrite run_queue_runs by done.
    destruct (dispatch_sync_env cfg (with_input g (step cfg s0 (Wait d))))
      as (_ & E & _).
    by rewrite E.
  - subst sv. unfold generate, fst. by rewrite Hsub2, Hsub1.
  - destruct (burst_tail cfg [(d, g)] s0 0 defaultInput Hp) as [k Hk'].
    { apply Forall_cons. split; [done|]. apply Forall_nil_2. }
    exists k. rewrite Hsub0 in Hk'. exact Hk'.
Qed.

(** ** One binding for each analysis *)

Lemma BInv_useIo a v b : BInv b → BInv (useIo a v b).1.
Proof.
  intros [Hnd Hio]. unfold useIo.
  destruct (ios b !! a) as [io|] eqn:Ha; [done|]. split; simpl.
  - rewrite fmap_app. apply NoDup_app. split; [done|]. split; [|apply NoDup_singleton].
    intros a' [[a'' v'] [Heq [i Hi]%list_elem_of_lookup]]%list_elem_of_fmap
      Hsame%list_elem_of_singleton.
    simpl in *. subst. assert (ios b !! a = Some i) by (apply Hio; by eexists).
    congruence.
  - intros a' io'. destruct (decide (a' = a)) as [->|Hne].
    + rewrite lookup_insert_eq. split.
      * intros [= <-]. exists v. by apply list_lookup_middle.
      * intros [v' Hv']. apply lookup_snoc_Some in Hv' as [[Hlt Hv']|[-> _]]; [|done].
        assert (ios b !! a = Some io') by (apply Hio; by eexists). congruence.
    + rewrite lookup_insert_ne by done. rewrite Hio. split.
      * intros [v' Hv']. exists v'. by apply lookup_app_l_Some.
      * intros [v' Hv']. apply lookup_snoc_Some in Hv' as [[Hlt Hv']|[_ ?]];
          [by exists v'|congruence].
Qed.

Lemma BInv_useIos calls : ∀ b, BInv b → BInv (useIos calls b).
Proof.
  induction calls as [|[a v] calls IH]; intros b Hb; [done|].
  apply IH. by apply BInv_useIo.
Qed.

Lemma BInv_no_bindings : BInv no_bindings.
Proof.
  split; [apply NoDup_nil_2|]. intros a io. simpl. rewrite lookup_empty.
  split; [done|]. by intros [v ?].
Qed.

(** A binding, once made, stays: later calls keep the entry of the table
    and the call that made it. *)
Lemma useIos_keeps calls : ∀ b a io v,
  ios b !! a = Some io → initialized b !! io = Some (a, v) →
  ios (useIos calls b) !! a = Some io ∧
  initialized (useIos calls b) !! io = Some (a, v).
Proof.
  induction calls as [|[a' v'] calls IH]; intros b a io v Ha Hio; [done|].
  apply IH; unfold useIo; simpl; destruct (ios b !! a') as [io'|] eqn:Ha'; simpl;
    try done.
  - rewrite lookup_insert_ne; [done|]. intros ->. congruence.
  - by apply lookup_app_l_Some.
Qed.

Lemma useIos_fresh calls : ∀ b a,
  ios b !! a = None → a ∉ calls.*1 → ios (useIos calls b) !! a = None.
Proof.
  induction calls as [|[a' v'] calls IH]; intros b a Ha Hnin; [done|].
  rewrite fmap_cons in Hnin. apply not_elem_of_cons in Hnin as [Hne Hnin].
  simpl in Hne.
  change (useIos ((a', v') :: calls) b) with (useIos calls (useIo a' v' b).1).
  apply IH; [|done]. unfold useIo. destruct (ios b !! a'); simpl; [done|].
  by rewrite lookup_insert_ne.
Qed.

Lemma useIos_app l1 l2 b : useIos (l1 ++ l2) b = useIos l2 (useIos l1 b).
Proof. apply foldl_app. Qed.

(** [useIo] called again for the same analysis returns the [Io] it
    returned before and neither makes a binding nor changes the table,
    whatever default input it is given. *)
Lemma useIo_again a v v' b :
  useIo a v' (useIo a v b).1 = useIo a v b.
Proof.
  unfold useIo. destruct (ios b !! a) as [io|] eqn:Ha; simpl.
  - by rewrite Ha.
  - by rewrite lookup_insert_eq.
Qed.

(** Of the default inputs given for an analysis, the one of the first
    call is the one its binding was made with; every later call, whatever
    it passes, gets that binding. *)
Theorem useIo_first_default_wins pre a v post v' :
  a ∉ pre.*1 →
  let b := useIos (pre ++ (a, v) :: post) no_bindings in
  ∃ io, useIo a v' b = (b, io) ∧ initialized b !! io = Some (a, v).
Proof.
  intros Hnin b. subst b. rewrite useIos_app.
  set (b0 := useIos pre no_bindings).
  assert (ios b0 !! a = None) as Ha by (by apply useIos_fresh).
  change (useIos ((a, v) :: post) b0) with (useIos post (useIo a v b0).1).
  set (b1 := (useIo a v b0).1).
  assert (ios b1 !! a = Some (length (initialized b0)) ∧
          initialized b1 !! length (initialized b0) = Some (a, v)) as [Hio Hv].
  { subst b1. unfold useIo. rewrite Ha. simpl. rewrite lookup_insert_eq.
    split; [done|]. by apply list_lookup_middle. }
  destruct (useIos_keeps post b1 a _ v Hio Hv) as [Hio' Hv'].
  exists (length (initialized b0)). split; [|done].
  unfold useIo. by rewrite Hio'.
Qed.

Lemma useIos_initialized calls : ∀ b a,
  BInv b →
  a ∈ (initialized (useIos calls b)).*1 ↔ a ∈ (initialized b).*1 ∨ a ∈ calls.*1.
Proof.
  induction calls as [|[a' v'] calls IH]; intros b a Hb.
  - simpl. split; [by left|]. by intros [?|?%elem_of_nil].
  - change (useIos ((a', v') :: calls) b) with (useIos calls (useIo a' v' b).1).
    rewrite IH by (by apply BInv_useIo). rewrite fmap_cons, elem_of_cons. simpl.
    unfold useIo. destruct (ios b !! a') as [io|] eqn:Ha'; simpl.
    + assert (a' ∈ (initialized b).*1) as Hin.
      { destruct Hb as [_ Hio]. apply Hio in Ha' as [v Hv].
        apply list_elem_of_fmap. exists (a', v). split; [done|].
        by eapply list_elem_of_lookup_2. }
      split; [intros [?|?]; auto|]. intros [?|[->|?]]; auto.
    + rewrite fmap_app, elem_of_app. simpl. rewrite list_elem_of_singleton. tauto.
Qed.

(** [initializeIo] is called once for each analysis that [useIo] was ever
    called with, and for no other; the table [ios] names, for each of
    them, the binding that call made. *)
Theorem useIo_one_binding_each calls :
  let b := useIos calls no_bindings in
  NoDup (initialized b).*1 ∧
  (∀ a, a ∈ (initialized b).*1 ↔ a ∈ calls.*1) ∧
  (∀ a io, ios b !! a = Some io ↔ ∃ v, initialized b !! io = Some (a, v)).
Proof.
  intros b. destruct (BInv_useIos calls no_bindings BInv_no_bindings) as [Hnd Hio].
  split; [done|]. split; [|done]. intros a. subst b.
  rewrite (useIos_initialized calls no_bindings a BInv_no_bindings). simpl.
  split; [by intros [?%elem_of_nil|?]|by right].
Qed.

End Io.

(** * Scenarios *)

(** The binding instantiated at JSON texts, in the browser. *)
Definition app : Config := {| variant := InspectifyApp; browser := true |}.

Definition json : Type := string.

Definition start (status : option CompilerState.t) : State json json json :=
  initializeIo json json json app "A" status ∅.

Definition ready : option CompilerState.t := Some CompilerState.Succeeded.

Definition job_in (st : JobState.t) : Job json :=
  {| state := st; analysis_data := None; stdout := "" |}.

Definition job_succeeded (out : json) : Job json :=
  {| state := JobState.Succeeded;
     analysis_data := Some {| ad_output := Val out;
                              ad_reference_output := Val out;
                              ad_validation := Val CorrectTerminated |};
     stdout := "" |}.

Definition job_failed (out : string) : Job json :=
  {| state := JobState.Failed; analysis_data := None; stdout := out |}.

(** Input [A] is submitted after the quiet period and accepted as job 1. *)
Definition accepted : State json json json :=
  run json json json app (start ready)
    [Wait json json json 200; AnalysisResolve json json json 0 1 "meta"].

(** Job 1 appears in the registry, running; the loop finds it and
    subscribes. *)
Definition subscribed_to_1 : State json json json :=
  run json json json app accepted
    [RecordSet json json json 1 (job_in JobState.Running); Wait json json json 200].

(** The request for input [A] is under way. *)
Definition in_flight : State json json json :=
  run json json json app (start ready) [Wait json json json 200].

Lemma reachable_accepted : reachable json json json app accepted.
Proof. apply reachable_run, reachable_init. Qed.

Lemma reachable_subscribed_to_1 : reachable json json json app subscribed_to_1.
Proof. apply reachable_run, reachable_accepted. Qed.

(** Input [B] supersedes [A]: it is submitted and accepted as job 2, and
    the run started for job 2 subscribes to its record. *)
Definition superseded : State json json json :=
  run json json json app subscribed_to_1
    [InputSet json json json "B"; Wait json json json 200;
     AnalysisResolve json json json 1 2 "meta";
     RecordSet json json json 2 (job_in JobState.Running); Wait json json json 200].

Lemma reachable_superseded : reachable json json json app superseded.
Proof. apply reachable_run, reachable_subscribed_to_1. Qed.

(** The earlier variant, in the browser. *)
Definition earlier : Config := {| variant := Earlier; browser := true |}.

(** The earlier variant, with the compiler still at work: the request for
    input [A] is under way all the same. *)
Definition earlier_in_flight : State json json json :=
  run json json json earlier
    (initializeIo json json json earlier "A" (Some CompilerState.Compiling) ∅)
    [Wait json json json 200].

Lemma reachable_earlier_in_flight : reachable json json json earlier earlier_in_flight.
Proof. apply reachable_run, reachable_init. Qed.

(** The earlier variant, with the compilation succeeded: the request for
    input [A] is under way. *)
Definition earlier_awaiting : State json json json :=
  run json json json earlier (initializeIo json json json earlier "A" ready ∅)
    [Wait json json json 200].

Lemma reachable_earlier_awaiting : reachable json json json earlier earlier_awaiting.
Proof. apply reachable_run, reachable_init. Qed.

(** The earlier variant: input [A] is submitted and accepted as job 7. *)
Definition earlier_accepted : State json json json :=
  run json json json earlier (initializeIo json json json earlier "A" ready ∅)
    [Wait json json json 200; AnalysisResolve json json json 0 7 "meta"].

(** Job 7 appears in the registry, running; the loop finds it and
    subscribes. *)
Definition earlier_subscribed : State json json json :=
  run json json json earlier earlier_accepted
    [RecordSet json json json 7 (job_in JobState.Running); Wait json json json 200].

Lemma reachable_earlier_subscribed :
  reachable json json json earlier earlier_subscribed.
Proof. apply reachable_run, reachable_run, reachable_init. Qed.

(** The earlier variant with its subscriber queue blocked: job 7 is
    published but not in the registry yet, so that the results run is in
    its loop; [B] is written and submitted, and [C] is written while the
    request for [B] is under way. *)
Definition earlier_blocked : State json json json :=
  run json json json earlier earlier_accepted
    [InputSet json json json "B"; Wait json json json 200;
     InputSet json json json "C"].

Lemma reachable_earlier_blocked : reachable json json json earlier earlier_blocked.
Proof. apply reachable_run, reachable_run, reachable_init. Qed.

Lemma polling_accepted :
  polling json json json accepted 0
    {| r_gen := 0; r_jobId := 1; r_cachedInput := "A"; r_stop := false;
       r_sub := no_subscription; r_polling := true |}.
Proof.
  repeat split; try reflexivity. exists 400. vm_compute. by left.
Qed.

(** The scenario of the spec: input [A], job 1, queued and then succeeded
    with output [x]: the results are the placeholder and then the current
    success pinned to [A]. *)
Example scenario_success :
  (st_emitted json json json
     (run json json json app accepted
        [RecordSet json json json 1 (job_in JobState.Queued);
         Wait json json json 200;
         RecordSet json json json 1 (job_succeeded "x")])).*2 =
  [placeholder json json app 1;
   {| input := Val "A"; outputState := OutputState.Current; output := Val "x";
      referenceOutput := Val "x"; validation := Val (Remote CorrectTerminated);
      job := Val 1; latestJobId := Undefined |}].
Proof. reflexivity. Qed.

(** C1, counterexample: input [A] was submitted as job 1 and the results
    are still the placeholder when the input changes to [B]; job 1 then
    succeeds while the dispatch for [B] is still waiting for its timer, and
    the results store is set to job 1's success, pinned to [A]. *)
Lemma C1_counterexample :
  let s1 := step json json json app subscribed_to_1 (InputSet json json json "B") in
  let s2 := step json json json app s1 (RecordSet json json json 1 (job_succeeded "x")) in
  st_submitted json json json s1 = [(0, "A")] ∧
  st_input json json json s1 = "B" ∧
  st_results json json json s1 = placeholder json json app 1 ∧
  st_results json json json s2 =
    {| input := Val "A"; outputState := OutputState.Current; output := Val "x";
       referenceOutput := Val "x"; validation := Val (Remote CorrectTerminated);
       job := Val 1; latestJobId := Undefined |} ∧
  st_results json json json s2 ≠ st_results json json json s1.
Proof. repeat split; try reflexivity. vm_compute. discriminate. Qed.

Lemma C1_witness :
  let p := {| p_gen := 1; p_jobId := 2; p_input := "B"; p_meta := "meta" |} in
  let r := {| r_gen := 1; r_jobId := 2; r_cachedInput := "B"; r_stop := false;
              r_sub := subscribed; r_polling := false |} in
  let late := step json json json app superseded
                (RecordSet json json json 1 (job_succeeded "late")) in
  let new := step json json json app superseded
               (RecordSet json json json 2 (job_succeeded "new")) in
  st_jobIdAndMeta json json json superseded = Some p ∧
  st_resultsRuns json json json superseded !! 1 = Some r ∧
  stuck json json json superseded = false ∧
  st_emitted json json json late = st_emitted json json json superseded ∧
  st_results json json json late = st_results json json json superseded ∧
  Forall (λ e, e.1 ≤ 1) (st_emitted json json json superseded) ∧
  st_emitted json json json new =
    st_emitted json json json superseded ++
    [(1, {| input := Val "B"; outputState := OutputState.Current;
            output := Val "new"; referenceOutput := Val "new";
            validation := Val (Remote CorrectTerminated);
            job := Val 2; latestJobId := Undefined |})].
Proof.
  intros p r late new.
  destruct (C1_ordered_by_generation json json json app superseded p
              reachable_superseded eq_refl) as (H1 & _ & H3 & H4).
  do 3 (split; [reflexivity|]).
  destruct (H1 1 (job_succeeded "late")) as [E1 E2]; [simpl; lia|].
  split; [exact E1|]. split; [exact E2|].
  split; [apply Forall_forall; exact H3|].
  destruct (H4 1 r (job_succeeded "new") eq_refl eq_refl) as (_ & _ & E4).
  exact (E4 eq_refl).
Defined.

(** C2 at work: the earlier variant, with the compilation succeeded, has
    submitted [A] and awaits the answer when [B] is written, then [C] 50
    later; nothing is submitted for the burst, nor for what is written
    afterwards. *)
Lemma C2_witness :
  let r := {| d_input := "A"; d_stop := false; d_cancel := cancel_abort_jobsCancel;
              d_at := await_request; d_jobId := None |} in
  let s' := run json json json earlier earlier_awaiting
              (burst json json json "B" [(50, "C")]) in
  variant earlier = Earlier ∧
  compilation_succeeded json json json earlier_awaiting = true ∧
  st_dispatchRuns json json json earlier_awaiting !! 0 = Some r ∧
  st_submitted json json json earlier_awaiting = [(0, "A")] ∧
  st_uncaught json json json
    (step json json json earlier earlier_awaiting (InputSet json json json "B")) =
    [ReferenceError] ∧
  st_input json json json s' = "C" ∧
  st_submitted json json json s' = [(0, "A")] ∧
  st_submitted json json json
    (run json json json earlier s'
       [Wait json json json 1000; InputSet json json json "D";
        Wait json json json 1000]) = [(0, "A")].
Proof.
  intros r s'.
  destruct (C2_burst_lost_in_earlier_variant json json json earlier
              earlier_awaiting 0 r "B" [(50, "C")] eq_refl
              reachable_earlier_awaiting eq_refl eq_refl) as (H1 & H2 & H3).
  do 4 (split; [reflexivity|]). split; [exact H1|]. split; [reflexivity|].
  split; [exact H2|].
  exact (H3 [Wait json json json 1000; InputSet json json json "D";
             Wait json json json 1000]).
Defined.

(** C3, counterexample: the earlier variant is subscribed to the record of
    job 7 when it is written with state ['Failed']; the results store is
    not set and still holds the placeholder. *)
Lemma C3_counterexample :
  let s := earlier_subscribed in
  let s' := step json json json earlier s
              (RecordSet json json json 7 (job_failed "boom")) in
  st_resultsRuns json json json s !! 0 =
    Some {| r_gen := 0; r_jobId := 7; r_cachedInput := "A"; r_stop := false;
            r_sub := subscribed; r_polling := false |} ∧
  stuck json json json s = false ∧
  st_jobs json json json s' !! 7 = Some (job_failed "boom") ∧
  st_emitted json json json s' = st_emitted json json json s ∧
  st_results json json json s' = placeholder json json earlier 7 ∧
  outputState json json (st_results json json json s') ≠ OutputState.Current ∧
  validation json json (st_results json json json s') ≠ Val (Failure "boom").
Proof. vm_compute. repeat split; discriminate. Qed.

Lemma C3_witness :
  let r := {| r_gen := 0; r_jobId := 1; r_cachedInput := "A"; r_stop := false;
              r_sub := subscribed; r_polling := false |} in
  let s' := step json json json app subscribed_to_1
              (RecordSet json json json 1 (job_failed "boom")) in
  variant app = InspectifyApp ∧
  reachable json json json app subscribed_to_1 ∧
  st_resultsRuns json json json subscribed_to_1 !! 0 = Some r ∧
  r_sub json r = subscribed ∧
  state json (job_failed "boom") = JobState.Failed ∧
  st_results json json json s' =
    {| input := Val "A"; outputState := OutputState.Current; output := Null;
       referenceOutput := Null; validation := Val (Failure "boom");
       job := Val 1; latestJobId := Undefined |}.
Proof.
  intros r s'. split; [reflexivity|]. split; [apply reachable_subscribed_to_1|].
  split; [reflexivity|]. split; [reflexivity|]. split; [reflexivity|].
  apply (C3_failed_projection json json json app subscribed_to_1 0 r
           (job_failed "boom") eq_refl reachable_subscribed_to_1 eq_refl eq_refl eq_refl).
Defined.

(** C4, counterexample: the request for [A] is rejected with a network
    error; the results store still holds its initial value, not a failure,
    and was never set. *)
Lemma C4_counterexample :
  let s' := step json json json app in_flight
              (AnalysisReject json json json 0 "network error") in
  (d_at json <$> st_dispatchRuns json json json in_flight !! 0) = Some await_request ∧
  st_emitted json json json s' = [] ∧
  st_results json json json s' = initial_results json json app ∧
  outputState json json (st_results json json json s') ≠ OutputState.Current ∧
  validation json json (st_results json json json s') ≠ Val (Failure "network error") ∧
  st_uncaught json json json s' = [Rejected "network error"].
Proof. repeat split; try reflexivity; vm_compute; discriminate. Qed.

(** C5, counterexample: job 1 never becomes visible; whatever the budget,
    after that many wake-ups the loop is still armed and the results store
    holds the placeholder, not a failure. *)
Lemma C5_counterexample :
  ¬ ∃ budget : nat,
      let s := run json json json app accepted
                 (Wait json json json <$> replicate budget quiet) in
      (∀ due, (due, TPoll 0) ∉ st_timers json json json s) ∨
      outputState json json (st_results json json json s) = OutputState.Current.
Proof.
  intros [budget Hgive].
  destruct (poll_persists_run json json json app (replicate budget quiet)
              accepted 0 _ (reachable_Inv _ _ _ _ _ reachable_accepted)
              polling_accepted) as ((_ & _ & _ & _ & _ & due & Hin) & _ & Hres).
  destruct Hgive as [Hno|Hcur].
  - by apply (Hno due).
  - rewrite Hres in Hcur. vm_compute in Hcur. discriminate.
Qed.

Lemma C5_witness :
  let r := {| r_gen := 0; r_jobId := 1; r_cachedInput := "A"; r_stop := false;
              r_sub := no_subscription; r_polling := true |} in
  let s' := run json json json app accepted (Wait json json json <$> [200; 200; 200]) in
  reachable json json json app accepted ∧ polling json json json accepted 0 r ∧
  polling json json json s' 0 r ∧
  st_emitted json json json s' = st_emitted json json json accepted ∧
  st_results json json json s' = st_results json json json accepted.
Proof.
  intros r s'. split; [apply reachable_accepted|]. split; [apply polling_accepted|].
  apply (C5_poll_never_gives_up json json json app accepted 0 r [200; 200; 200]
           reachable_accepted polling_accepted).
Defined.

(** C6, counterexample: the earlier variant, with the compiler still at
    work, submits what is written one quiet period later. *)
Lemma C6_counterexample :
  let s := initializeIo json json json earlier "A" (Some CompilerState.Compiling) ∅ in
  let s' := run json json json earlier s
              [InputSet json json json "B"; Wait json json json 200] in
  compilation_succeeded json json json s = false ∧
  compilation_succeeded json json json s' = false ∧
  st_submitted json json json s = [] ∧
  st_submitted json json json s' = [(1, "B")].
Proof. repeat split; reflexivity. Qed.

(** The compiler is at work when [B] is written: nothing is submitted,
    whatever else is written and however long one waits; when the
    compilation succeeds, [B] is submitted one quiet period later. *)
Lemma C6_witness :
  let s := run json json json app (start (Some CompilerState.Compiling))
             [InputSet json json json "B"] in
  let churn := [Wait json json json 500; InputSet json json json "C";
                JobsEmit json json json; InputSet json json json "B";
                Wait json json json 1000] in
  variant app = InspectifyApp ∧ browser app = true ∧
  compilation_succeeded json json json s = false ∧
  st_submitted json json json s = [] ∧
  st_submitted json json json (run json json json app s churn) = [] ∧
  st_submitted json json json
    (run json json json app s
       [StatusSet json json json (Some CompilerState.Succeeded);
        Wait json json json quiet]) = [(0, "B")].
Proof.
  intros s churn.
  assert (reachable json json json app s) as Hs by apply reachable_run, reachable_init.
  assert (Forall (λ e, ∀ c, e ≠ StatusSet json json json c) churn) as Hchurn
    by (repeat constructor; discriminate).
  destruct (C6_gated_by_compilation json json json app s eq_refl Hs) as [H1 H2].
  do 4 (split; [reflexivity|]).
  split; [exact (H1 eq_refl churn Hchurn)|exact (H2 eq_refl)].
Defined.

(** C7, counterexample: the placeholder set for job 1, whose submission
    carried [A], has no [input]. *)
Lemma C7_counterexample :
  st_submitted json json json accepted = [(0, "A")] ∧
  ∃ x, (0, x) ∈ st_emitted json json json accepted ∧
       input json json x = Undefined ∧ input json json x ≠ Val "A".
Proof.
  split; [reflexivity|]. exists (placeholder json json app 1).
  split; [vm_compute; by left|]. split; [reflexivity|discriminate].
Qed.

(** Job 1, submitted for [A], succeeds after the input has been changed
    to [B]: the results are pinned to [A]; the next submission carries
    [B]. *)
Lemma C7_witness :
  let s := run json json json app subscribed_to_1
             [InputSet json json json "B";
              RecordSet json json json 1 (job_succeeded "x")] in
  let x := {| input := Val "A"; outputState := OutputState.Current;
              output := Val "x"; referenceOutput := Val "x";
              validation := Val (Remote CorrectTerminated);
              job := Val 1; latestJobId := Undefined |} in
  variant app = InspectifyApp ∧
  st_emitted json json json s !! 1 = Some (0, x) ∧
  st_input json json json s = "B" ∧
  (∃ v, input json json x = Val v ∧ (0, v) ∈ st_submitted json json json s) ∧
  st_submitted json json json (step json json json app s (Wait json json json 200)) =
    [(0, "A"); (1, "B")] ∧
  (st_submitted json json json (step json json json app s (Wait json json json 200)) =
   st_submitted json json json s ∨
   ∃ k, st_submitted json json json
          (step json json json app s (Wait json json json 200)) =
        st_submitted json json json s ++ [(k, "B")]).
Proof.
  intros s x.
  assert (reachable json json json app s) as Hs
    by apply reachable_run, reachable_subscribed_to_1.
  assert ((0, x) ∈ st_emitted json json json s) as Hin
    by (apply list_elem_of_lookup; exists 1; reflexivity).
  destruct (C7_current_results_pinned json json json app s eq_refl Hs) as [H1 H2].
  do 3 (split; [reflexivity|]). split; [exact (H1 0 x Hin eq_refl)|].
  split; [reflexivity|exact (H2 (Wait json json json 200))].
Defined.

Lemma C8_witness :
  let r := {| d_input := "A"; d_stop := false; d_cancel := cancel_abort;
              d_at := await_request; d_jobId := None |} in
  st_dispatchRuns json json json in_flight !! 0 = Some r ∧
  d_at json r = await_request ∧
  (variant app = Earlier →
   p_jobId json json <$> st_jobIdAndMeta json json json in_flight ≠ Some 1) ∧
  ∃ later,
    st_emitted json json json
      (step json json json app in_flight (AnalysisResolve json json json 0 1 "meta")) =
    st_emitted json json json in_flight ++ (0, placeholder json json app 1) :: later.
Proof.
  intros r. split; [reflexivity|]. split; [reflexivity|]. split; [discriminate|].
  apply (C8_placeholder_first json json json app in_flight 0 r 1 "meta"
           eq_refl eq_refl).
  discriminate.
Defined.

Lemma C9_witness :
  let s := run json json json app subscribed_to_1
             [RecordSet json json json 1 (job_succeeded "x")] in
  let p := {| p_gen := 0; p_jobId := 1; p_input := "A"; p_meta := "meta" |} in
  let s' := step json json json app s (JobsEmit json json json) in
  stuck json json json s = false ∧
  st_jobIdAndMeta json json json s = Some p ∧
  outputState json json (st_results json json json s) = OutputState.Current ∧
  st_emitted json json json s' =
    st_emitted json json json s ++
    [(0, placeholder json json app 1);
     (0, {| input := Val "A"; outputState := OutputState.Current;
            output := Val "x"; referenceOutput := Val "x";
            validation := Val (Remote CorrectTerminated);
            job := Val 1; latestJobId := Undefined |})] ∧
  st_resultsCleanup json json json s' = Some 1 ∧
  st_submitted json json json s' = st_submitted json json json s.
Proof.
  intros s p s'. do 3 (split; [reflexivity|]).
  destruct (C9_jobs_emission_restarts json json json app s p eq_refl eq_refl)
    as (H1 & _ & H3 & _ & H5 & _).
  split; [exact H1|]. split; [exact H3|exact H5].
Defined.

Lemma earlier_failed_sets_nothing_witness :
  let s' := step json json json earlier earlier_subscribed
              (RecordSet json json json 7 (job_failed "boom")) in
  variant earlier = Earlier ∧ state json (job_failed "boom") = JobState.Failed ∧
  st_resultsRuns json json json earlier_subscribed !! 0 =
    Some {| r_gen := 0; r_jobId := 7; r_cachedInput := "A"; r_stop := false;
            r_sub := subscribed; r_polling := false |} ∧
  st_emitted json json json s' = st_emitted json json json earlier_subscribed ∧
  st_results json json json s' = st_results json json json earlier_subscribed.
Proof.
  intros s'. do 3 (split; [reflexivity|]).
  apply (earlier_failed_sets_nothing json json json earlier earlier_subscribed 7
           (job_failed "boom") eq_refl eq_refl).
Defined.

Lemma earlier_not_gated_witness :
  let s := initializeIo json json json earlier "A" (Some CompilerState.Compiling) ∅ in
  variant earlier = Earlier ∧ browser earlier = true ∧
  reachable json json json earlier s ∧
  (dispatch_cleanup json json json (with_input json json json "B" s)).2 = false ∧
  st_compilationStatus json json json s = Some CompilerState.Compiling ∧
  st_submitted json json json
    (run json json json earlier s
       [InputSet json json json "B"; Wait json json json quiet]) =
  st_submitted json json json s ++ [(length (st_dispatchRuns json json json s), "B")].
Proof.
  intros s. split; [reflexivity|]. split; [reflexivity|].
  split; [apply reachable_init|]. split; [reflexivity|]. split; [reflexivity|].
  apply (earlier_not_gated json json json earlier s "B" eq_refl eq_refl
           (reachable_init json json json earlier "A" (Some CompilerState.Compiling) ∅)
           eq_refl).
Defined.

Lemma earlier_cleanup_throws_witness :
  let r := {| d_input := "A"; d_stop := false; d_cancel := cancel_abort_jobsCancel;
              d_at := await_request; d_jobId := None |} in
  let s' := step json json json earlier earlier_in_flight (InputSet json json json "B") in
  variant earlier = Earlier ∧
  st_dispatchRuns json json json earlier_in_flight !! 0 = Some r ∧
  st_uncaught json json json s' = [ReferenceError] ∧
  st_aborted json json json s' = [0] ∧
  st_timers json json json s' = st_timers json json json earlier_in_flight ∧
  step json json json earlier s' (InputSet json json json "C") =
    with_input json json json "C" s'.
Proof.
  intros r s'. do 2 (split; [reflexivity|]).
  destruct (earlier_cleanup_throws json json json earlier earlier_in_flight 0 r "B"
              eq_refl reachable_earlier_in_flight eq_refl eq_refl)
    as (H1 & H2 & H3 & _ & _ & H6).
  split; [exact H1|]. split; [exact H2|]. split; [exact H3|exact (H6 "C")].
Defined.

(** ** Scenarios for the further properties *)

Lemma burst_submits_last_once_witness :
  let s := start ready in
  let s' := run json json json app s
              (burst json json json "B" [(50, "C"); (199, "D")]) in
  dispatch_guard json json json app s = true ∧
  (dispatch_cleanup json json json (with_input json json json "B" s)).2 = false ∧
  Forall (λ dw : nat * json, dw.1 < quiet) [(50, "C"); (199, "D")] ∧
  st_submitted json json json s = [] ∧
  st_submitted json json json s' = [(3, "D")] ∧
  ∃ k, st_submitted json json json s' = st_submitted json json json s ++ [(k, "D")].
Proof.
  intros s s'.
  assert (Forall (λ dw : nat * json, dw.1 < quiet) [(50, "C"); (199, "D")]) as Hrest
    by (repeat constructor; simpl; unfold quiet; lia).
  do 2 (split; [reflexivity|]). split; [exact Hrest|]. do 2 (split; [reflexivity|]).
  apply (burst_submits_last_once json json json app s "B" [(50, "C"); (199, "D")]
           (reachable_init json json json app "A" ready ∅) eq_refl eq_refl Hrest).
Defined.

Lemma blocked_queue_submits_nothing_witness :
  let s := earlier_blocked in
  let es := [JobsEmit json json json; InputSet json json json "D";
             Wait json json json 1000;
             RecordSet json json json 7 (job_succeeded "x")] in
  st_uncaught json json json s = [ReferenceError] ∧
  st_submitted json json json s = [(0, "A"); (1, "B")] ∧
  st_input json json json s = "C" ∧
  st_submitted json json json (run json json json earlier s es) = [(0, "A"); (1, "B")] ∧
  step json json json earlier s (JobsEmit json json json) = s.
Proof.
  intros s es. do 3 (split; [reflexivity|]).
  assert (ReferenceError ∈ st_uncaught json json json s) as Hin
    by (apply list_elem_of_lookup; exists 0; reflexivity).
  destruct (blocked_queue_submits_nothing json json json earlier s es
              reachable_earlier_blocked Hin) as (H1 & _ & _ & H4).
  split; [exact H1|exact H4].
Defined.

Lemma reachable_in_flight : reachable json json json app in_flight.
Proof. apply reachable_run, reachable_init. Qed.

(** The binding as the server renders it. *)
Definition server : Config := {| variant := InspectifyApp; browser := false |}.

Lemma one_request_at_a_time_witness :
  let r := {| d_input := "A"; d_stop := false; d_cancel := cancel_abort;
              d_at := await_request; d_jobId := None |} in
  reachable json json json app in_flight ∧
  st_dispatchRuns json json json in_flight !! 0 = Some r ∧
  d_at json r = await_request ∧
  d_input json r = st_input json json json in_flight ∧
  (0, st_input json json json in_flight) ∈ st_submitted json json json in_flight.
Proof.
  intros r. split; [apply reachable_in_flight|]. split; [reflexivity|].
  split; [reflexivity|].
  destruct (one_request_at_a_time json json json app in_flight 0 r
              reachable_in_flight eq_refl eq_refl) as (H1 & H2 & _).
  split; [exact H1|exact H2].
Defined.

Lemma write_aborts_request_witness :
  let r := {| d_input := "A"; d_stop := false; d_cancel := cancel_abort;
              d_at := await_request; d_jobId := None |} in
  let s' := step json json json app in_flight (InputSet json json json "B") in
  variant app = InspectifyApp ∧ reachable json json json app in_flight ∧
  st_dispatchRuns json json json in_flight !! 0 = Some r ∧
  d_at json r = await_request ∧
  st_aborted json json json s' = st_aborted json json json in_flight ++ [0] ∧
  st_jobsCancel json json json s' = st_jobsCancel json json json in_flight.
Proof.
  intros r s'. split; [reflexivity|]. split; [apply reachable_in_flight|].
  split; [reflexivity|]. split; [reflexivity|].
  destruct (write_aborts_request json json json app in_flight 0 r
              (InputSet json json json "B") eq_refl
              reachable_in_flight eq_refl eq_refl
              (or_introl (ex_intro _ "B" eq_refl))) as (H1 & H2 & _).
  split; [exact H1|exact H2].
Defined.

Lemma superseded_job_cancelled_witness :
  let r := {| d_input := "A"; d_stop := false; d_cancel := cancel_abort;
              d_at := await_request; d_jobId := None |} in
  let s' := run json json json app in_flight
              [AnalysisResolve json json json 0 1 "meta";
               StatusSet json json json (Some CompilerState.Succeeded)] in
  variant app = InspectifyApp ∧ reachable json json json app in_flight ∧
  st_dispatchRuns json json json in_flight !! 0 = Some r ∧
  d_at json r = await_request ∧
  st_jobsCancel json json json s' = st_jobsCancel json json json in_flight ++ [1] ∧
  st_aborted json json json s' = st_aborted json json json in_flight.
Proof.
  intros r s'. split; [reflexivity|]. split; [apply reachable_in_flight|].
  split; [reflexivity|]. split; [reflexivity|].
  apply (superseded_job_cancelled json json json app in_flight 0 r 1 "meta"
           (StatusSet json json json (Some CompilerState.Succeeded)) eq_refl
           reachable_in_flight eq_refl eq_refl).
  right. by eexists.
Defined.

Lemma published_with_live_input_witness :
  let r := {| d_input := "A"; d_stop := false; d_cancel := cancel_abort;
              d_at := await_request; d_jobId := None |} in
  let s' := step json json json app in_flight (AnalysisResolve json json json 0 1 "meta") in
  variant app = InspectifyApp ∧ reachable json json json app in_flight ∧
  st_dispatchRuns json json json in_flight !! 0 = Some r ∧
  d_at json r = await_request ∧
  st_jobIdAndMeta json json json s' =
    Some {| p_gen := 0; p_jobId := 1;
            p_input := st_input json json json in_flight; p_meta := "meta" |} ∧
  st_selectedJobId json json json s' = Some 1.
Proof.
  intros r s'. split; [reflexivity|]. split; [apply reachable_in_flight|].
  split; [reflexivity|]. split; [reflexivity|].
  destruct (published_with_live_input json json json app in_flight 0 r 1 "meta"
              eq_refl reachable_in_flight eq_refl eq_refl) as (H1 & H2 & _).
  split; [exact H1|exact H2].
Defined.

Lemma server_side_inert_witness :
  let s := run json json json server (initializeIo json json json server "A" ready ∅)
             [InputSet json json json "B"; Wait json json json 200;
              JobsEmit json json json] in
  browser server = false ∧ reachable json json json server s ∧
  st_timers json json json s = [] ∧ st_submitted json json json s = [] ∧
  st_emitted json json json s = [].
Proof.
  intros s. split; [reflexivity|].
  assert (reachable json json json server s) as Hs
    by apply reachable_run, reachable_init.
  split; [exact Hs|].
  destruct (server_side_inert json json json server s eq_refl Hs)
    as (H1 & _ & H3 & _ & H5 & _).
  split; [exact H1|]. split; [exact H3|exact H5].
Defined.

(** A job that succeeded without being validated: its record has
    [validation: null] and no reference output. *)
Definition job_unvalidated (out : json) : Job json :=
  {| state := JobState.Succeeded;
     analysis_data := Some {| ad_output := Val out;
                              ad_reference_output := Undefined;
                              ad_validation := Null |};
     stdout := "" |}.

Lemma succeeded_projection_witness :
  let r := {| r_gen := 0; r_jobId := 1; r_cachedInput := "A"; r_stop := false;
              r_sub := subscribed; r_polling := false |} in
  let x := st_results json json json
             (step json json json app subscribed_to_1
                (RecordSet json json json 1 (job_unvalidated "x"))) in
  let y := st_results json json json
             (step json json json app subscribed_to_1
                (RecordSet json json json 1 (job_in JobState.Succeeded))) in
  variant app = InspectifyApp ∧
  st_resultsRuns json json json subscribed_to_1 !! 0 = Some r ∧
  outputState json json x = OutputState.Current ∧
  output json json x = Val "x" ∧ referenceOutput json json x = Undefined ∧
  validation json json x = Null ∧
  output json json y = Undefined ∧ referenceOutput json json y = Undefined ∧
  validation json json y = Undefined.
Proof.
  intros r x y. do 2 (split; [reflexivity|]).
  destruct (succeeded_projection json json json app subscribed_to_1 0 r
              (job_unvalidated "x") eq_refl
              reachable_subscribed_to_1 eq_refl eq_refl eq_refl)
    as (_ & H2 & _ & _ & _ & H6).
  destruct (succeeded_projection json json json app subscribed_to_1 0 r
              (job_in JobState.Succeeded) eq_refl
              reachable_subscribed_to_1 eq_refl eq_refl eq_refl)
    as (_ & _ & _ & _ & H5 & _).
  split; [exact H2|].
  destruct (H6 _ eq_refl) as (E1 & E2 & E3).
  split; [exact E1|]. split; [exact E2|]. split; [exact E3|exact (H5 eq_refl)].
Defined.

Lemma silent_states_keep_subscription_witness :
  let r := {| r_gen := 0; r_jobId := 1; r_cachedInput := "A"; r_stop := false;
              r_sub := subscribed; r_polling := false |} in
  let s1 := step json json json app subscribed_to_1
              (RecordSet json json json 1 (job_in JobState.Canceled)) in
  let s2 := step json json json app s1 (RecordSet json json json 1 (job_succeeded "x")) in
  stuck json json json subscribed_to_1 = false ∧
  st_resultsRuns json json json subscribed_to_1 !! 0 = Some r ∧
  state json (job_in JobState.Canceled) = JobState.Canceled ∧
  state json (job_succeeded "x") = JobState.Succeeded ∧
  st_emitted json json json s1 = st_emitted json json json subscribed_to_1 ∧
  st_results json json json s2 =
    {| input := Val "A"; outputState := OutputState.Current; output := Val "x";
       referenceOutput := Val "x"; validation := Val (Remote CorrectTerminated);
       job := Val 1; latestJobId := Undefined |}.
Proof.
  intros r s1 s2. do 4 (split; [reflexivity|]).
  destruct (silent_states_keep_subscription json json json app subscribed_to_1 0 r
              (job_in JobState.Canceled) (job_succeeded "x")
              reachable_subscribed_to_1 eq_refl eq_refl eq_refl
              (or_intror (or_intror eq_refl)) eq_refl) as (H1 & _ & _ & _ & H5).
  split; [exact H1|exact H5].
Defined.

Lemma late_record_found_witness :
  let r := {| r_gen := 0; r_jobId := 1; r_cachedInput := "A"; r_stop := false;
              r_sub := no_subscription; r_polling := true |} in
  let s1 := step json json json app accepted
              (RecordSet json json json 1 (job_succeeded "x")) in
  let s2 := step json json json app s1 (Wait json json json quiet) in
  reachable json json json app accepted ∧ polling json json json accepted 0 r ∧
  r_sub json r = no_subscription ∧
  st_emitted json json json s1 = st_emitted json json json accepted ∧
  st_emitted json json json s2 =
    st_emitted json json json accepted ++
    [(0, succeeded_results json json app r (job_succeeded "x"))].
Proof.
  intros r s1 s2. split; [apply reachable_accepted|].
  split; [apply polling_accepted|]. split; [reflexivity|].
  destruct (late_record_found json json json app accepted 0 r (job_succeeded "x")
              reachable_accepted polling_accepted eq_refl) as (H1 & _ & H3 & _).
  split; [exact H1|exact H3].
Defined.

Lemma stopped_poller_throws_witness :
  let r := {| r_gen := 0; r_jobId := 1; r_cachedInput := "A"; r_stop := false;
              r_sub := no_subscription; r_polling := true |} in
  let s2 := run json json json app accepted
              [JobsEmit json json json; Wait json json json quiet] in
  stuck json json json accepted = false ∧ polling json json json accepted 0 r ∧
  st_uncaught json json json accepted = [] ∧
  st_uncaught json json json s2 = [TypeError] ∧
  ∃ more, st_uncaught json json json s2 = st_uncaught json json json accepted ++ more ∧
          TypeError ∈ more.
Proof.
  intros r s2. split; [reflexivity|]. split; [apply polling_accepted|].
  do 2 (split; [reflexivity|]).
  destruct (stopped_poller_throws json json json app accepted 0 r
              reachable_accepted eq_refl polling_accepted) as (_ & _ & _ & H4).
  exact H4.
Defined.

(** The write that throws in the earlier variant, in the app variant. *)
Lemma app_cleanup_never_throws_witness :
  let s' := step json json json app in_flight (InputSet json json json "B") in
  variant app = InspectifyApp ∧ reachable json json json app in_flight ∧
  (ReferenceError ∉ st_uncaught json json json in_flight) ∧
  st_dispatchCleanup json json json in_flight = Some 0 ∧
  st_dispatchCleanup json json json s' = Some 1.
Proof.
  intros s'. split; [reflexivity|]. split; [apply reachable_in_flight|].
  destruct (app_cleanup_never_throws json json json app in_flight "B" eq_refl
              reachable_in_flight) as (H1 & _ & H3).
  split; [exact H1|]. split; [reflexivity|exact H3].
Defined.

Lemma results_name_published_job_witness :
  reachable json json json earlier earlier_accepted ∧
  p_jobId json json <$> st_jobIdAndMeta json json json earlier_accepted = Some 7 ∧
  latestJobId json json (st_results json json json earlier_accepted) = Val 7.
Proof.
  assert (reachable json json json earlier earlier_accepted) as Hs
    by apply reachable_run, reachable_init.
  split; [exact Hs|]. split; [reflexivity|].
  exact (results_name_published_job json json json earlier earlier_accepted Hs).
Defined.

Lemma generated_replaces_default_witness :
  let s0 := initializeIo json json json app "A" ready ∅ in
  let sv := generate json json json app "G" (step json json json app s0 (Wait json json json 50)) in
  browser app = true ∧ 50 < quiet ∧
  sv.2 = "G" ∧ st_submitted json json json sv.1 = [] ∧
  ∃ k, st_submitted json json json
         (step json json json app sv.1 (Wait json json json quiet)) = [(k, "G")].
Proof.
  intros s0 sv. split; [reflexivity|].
  assert (50 < quiet) as Hd by (unfold quiet; lia).
  split; [exact Hd|].
  destruct (generated_replaces_default json json json app "A" ∅ 50 "G" eq_refl Hd)
    as (H1 & _ & H3 & H4).
  split; [exact H1|]. split; [exact H3|exact H4].
Defined.

Lemma useIo_first_default_wins_witness :
  let pre := [("Sign", "s0")] in
  let post := [("Sign", "s1"); ("Interpreter", "i1")] in
  let b := useIos json (pre ++ ("Interpreter", "i0") :: post) (no_bindings json) in
  ("Interpreter" ∉ pre.*1) ∧
  ∃ io, useIo json "Interpreter" "i2" b = (b, io) ∧
        initialized json b !! io = Some ("Interpreter", "i0").
Proof.
  intros pre post b.
  assert ("Interpreter" ∉ pre.*1) as Hnin
    by (apply (bool_decide_unpack _); vm_compute; exact I).
  split; [exact Hnin|].
  apply (useIo_first_default_wins json pre "Interpreter" "i0" post "i2" Hnin).
Defined.

(** * The React front end: properties *)

Section UiFacts.

Import Ui.

(** The initial analysis is one of [ENVS], never [Graph]: a query parameter
    that names one of them selects it, and anything else, [Graph] and the
    empty string included, selects [Interpreter]. *)
Theorem initial_env_selects :
  (∀ o, initial_env o ∈ ENVS ∧ initial_env o ≠ Graph) ∧
  (∀ e, e ∈ ENVS → initial_env (Some (Analysis_value e)) = e) ∧
  (∀ a, a ∉ Analysis_value <$> ENVS → initial_env (Some a) = Interpreter) ∧
  initial_env (Some "Graph") = Interpreter ∧ initial_env None = Interpreter.
Proof.
  assert (∀ e, e ∈ ENVS ↔
            e = Interpreter ∨ e = ProgramVerification ∨ e = Sign ∨ e = Security)
    as Henvs.
  { intros e. change ENVS with [Interpreter; ProgramVerification; Sign; Security].
    rewrite !elem_of_cons, elem_of_nil. tauto. }
  assert (∀ a, a ∈ Analysis_value <$> ENVS →
            a = "Interpreter" ∨ a = "ProgramVerification" ∨ a = "Sign" ∨ a = "Security")
    as Hnames.
  { intros a.
    change (Analysis_value <$> ENVS)
      with ["Interpreter"; "ProgramVerification"; "Sign"; "Security"].
    rewrite !elem_of_cons, elem_of_nil. tauto. }
  assert (Interpreter ∈ ENVS) as Hdefault by (apply Henvs; by left).
  split; [|split; [|split; [|done]]].
  - intros [a|]; [|done].
    unfold initial_env. destruct (truthy (Some a)) as [a'|]; [|done].
    case_decide as Ha; [|done].
    destruct (Hnames _ Ha) as [->|[->|[->| ->]]];
      (split; [apply Henvs; vm_compute; tauto|done]).
  - intros e [->|[->|[->| ->]]]%Henvs; reflexivity.
  - intros a Ha. unfold initial_env, truthy. case_decide; [done|].
    by rewrite decide_False.
Qed.


Ltac break_hyps :=
  repeat match goal with
         | H : _ ∧ _ |- _ => destruct H
         | H : _ ∨ _ |- _ => destruct H
         | H : ∃ _, _ |- _ => destruct H
         end.

(** The indicator shows [Working] exactly while a request is under way or
    the compilation is not known to be [Compiled], whatever response is at
    hand; otherwise it shows the verdict of the response, [Correct] for a
    run that terminated and for one that did not alike, and [Error] when
    there is no response or the response has no validation result. *)
Theorem indicatorState_shows inFlight status response :
  (indicatorState inFlight status response = IndicatorState.Working ↔
   inFlight = true ∨ compiled status = false) ∧
  (indicatorState inFlight status response = IndicatorState.Error ↔
   inFlight = false ∧ compiled status = true ∧
   (response = None ∨ ∃ res, response = Some res ∧ validation_result res = None)) ∧
  (indicatorState inFlight status response = IndicatorState.Correct ↔
   inFlight = false ∧ compiled status = true ∧
   ∃ res, response = Some res ∧
     (validation_result res = Some CorrectTerminated ∨
      ∃ n, validation_result res = Some (CorrectNonTerminated n))) ∧
  (indicatorState inFlight status response = IndicatorState.Mismatch ↔
   inFlight = false ∧ compiled status = true ∧
   ∃ res reason, response = Some res ∧ validation_result res = Some (Mismatch reason)) ∧
  (indicatorState inFlight status response = IndicatorState.TimeOut ↔
   inFlight = false ∧ compiled status = true ∧
   ∃ res, response = Some res ∧ validation_result res = Some TimeOut).
Proof.
  unfold indicatorState.
  destruct inFlight, (compiled status), response as [res|]; simpl;
    try destruct (validation_result res) as [[|n|reason|]|] eqn:Hv;
    split_and!; split;
    try (intros Heq; discriminate Heq); try (intros Hr; reflexivity);
    try (intros _;
         first [by left|by right|split; [done|]; split; [done|]; eauto 6]);
    intros Hr; exfalso; break_hyps; simplify_eq.
Qed.

Variable complete_input_from_json : Analysis → string → option Input.
Variable generate_input_for : string → Analysis → option Input.
Variable run_analysis : string → Input → option Output.
Variable inputted_input : option string.

#[local] Abbreviation step :=
  (step complete_input_from_json generate_input_for run_analysis inputted_input).
#[local] Abbreviation run :=
  (run complete_input_from_json generate_input_for run_analysis inputted_input).

(** ** The polling effect *)

Lemma foldl_abort_status l : ∀ s,
  outside_status (foldl abort_status s l) = outside_status s ∧
  status_abort_calls (foldl abort_status s l) = status_abort_calls s ++ l ∧
  length (status_requests (foldl abort_status s l)) = length (status_requests s) ∧
  (∀ req, status_requests (foldl abort_status s l) !! req = Some Pending →
          status_requests s !! req = Some Pending ∧ req ∉ l).
Proof.
  induction l as [|a l IH]; intros s; simpl.
  - rewrite app_nil_r. do 3 (split; [done|]). intros req Hreq. split; [done|].
    apply not_elem_of_nil.
  - destruct (IH (abort_status s a)) as (Hout & Hcalls & Hlen & Hpend).
    split; [by rewrite Hout|]. split; [by rewrite Hcalls; simpl; rewrite <-app_assoc|].
    split; [rewrite Hlen; simpl; by rewrite length_alter|].
    intros req Hreq. destruct (Hpend req Hreq) as [Hreq' Hnin]. simpl in Hreq'.
    destruct (decide (req = a)) as [->|Hne].
    + rewrite list_lookup_alter_eq in Hreq'.
      by destruct (status_requests s !! a) as [[]|].
    + rewrite list_lookup_alter_ne in Hreq' by done. split; [done|].
      by apply not_elem_of_cons.
Qed.

Lemma PInv_frame s s' :
  interval s' = interval s → aborts s' = aborts s →
  status_requests s' = status_requests s →
  status_abort_calls s' = status_abort_calls s →
  PInv s → PInv s'.
Proof. unfold PInv. by intros -> -> -> ->. Qed.

Lemma PInv_settle s req :
  PInv s → PInv (set_status_requests (<[req := Settled]> (status_requests s)) s).
Proof.
  intros (Hon & Hoff & Hpend). unfold PInv. simpl. rewrite length_insert.
  split; [done|]. split; [done|]. intros req' Hreq'.
  destruct (decide (req' = req)) as [->|Hne].
  - apply list_lookup_insert_Some in Hreq' as [(_ & ? & _)|[? _]]; done.
  - rewrite list_lookup_insert_ne in Hreq' by done. by apply Hpend.
Qed.

Lemma PInv_tick s : PInv s → PInv (tick s).
Proof.
  intros Hs. pose proof Hs as (Hon & Hoff & Hpend). unfold tick.
  destruct (interval s) eqn:Hi; [|done]. clear Hs.
  destruct (Hon eq_refl) as [Hab Hcalls].
  destruct (foldl_abort_status (aborts s) s) as (Hout & Hc1 & Hlen & Hp1).
  injection Hout as _ _ _ _ _ _ _ _ Ei Ea _ _ _.
  set (s1 := foldl abort_status s (aborts s)) in *.
  unfold PInv. simpl. rewrite length_app, Hlen. simpl.
  set (n := length (status_requests s)) in *.
  split; [|split; [by rewrite Ei, Hi|]].
  - intros _. rewrite Ea, Hab, Hc1, length_app, Hab, length_seq.
    replace (n + 1) with (S n) by lia. rewrite seq_S. split; [done|]. simpl. nia.
  - intros req Hreq. rewrite Ei, Hi.
    apply lookup_snoc_Some in Hreq as [[Hlt Hreq]|[-> _]]; [|lia].
    destruct (Hp1 req Hreq) as [_ Hnin]. destruct Hnin.
    rewrite Hab. apply elem_of_seq. lia.
Qed.

Lemma PInv_poll_cleanup s : PInv s → PInv (poll_cleanup s).
Proof.
  intros (Hon & Hoff & Hpend). unfold poll_cleanup, PInv. simpl.
  split; [done|]. split; [done|]. intros req Hreq.
  destruct (foldl_abort_status (aborts s) s) as (_ & _ & Hlen & Hp1).
  destruct (Hp1 req Hreq) as [Hreq' Hnin]. destruct (Hpend req Hreq') as [Hn Hi].
  destruct (Hon Hi) as [Hab _]. destruct Hnin. rewrite Hab. apply elem_of_seq. lia.
Qed.

Lemma PInv_step s e : PInv s → PInv (step s e).
Proof.
  intros Hs. destruct e as [e c| | | | | |req res|req|req res|req|]; simpl.
  - by eapply PInv_frame.
  - eapply PInv_frame; [..|done]; unfold effect_complete_input;
      by repeat case_match.
  - eapply PInv_frame; [..|done];
      unfold effect_analyze, analysis_cleanup_run; by repeat case_match.
  - eapply PInv_frame; [..|done]; unfold effect_generate_input;
      by repeat case_match.
  - eapply PInv_frame; [..|done]; unfold effect_run_analysis;
      by repeat case_match.
  - by apply PInv_tick.
  - unfold status_resolved. repeat case_match; try done;
      (eapply PInv_frame; [..|by apply (PInv_settle s req)]); done.
  - unfold status_rejected. repeat case_match; try done;
      (eapply PInv_frame; [..|by apply (PInv_settle s req)]); done.
  - eapply PInv_frame; [..|done]; unfold analyze_resolved; by repeat case_match.
  - eapply PInv_frame; [..|done]; unfold analyze_rejected; by repeat case_match.
  - eapply PInv_frame; [..|by apply (PInv_poll_cleanup s)];
      unfold analysis_cleanup_run; by repeat case_match.
Qed.

(** The array [aborts] of the polling effect is never emptied by the
    interval, [slice] removing nothing: while the interval is set it holds
    the abort of every status request made so far, and each tick calls all
    of them again, so that [n] requests have cost [n(n-1)/2] abort calls.
    Only the newest request can still be answered.  The cleanup empties
    the array, and leaves no request to be answered. *)
Theorem poller_keeps_every_abort e c es :
  let s := run (mounted e c) es in
  let n := length (status_requests s) in
  (interval s = true →
   aborts s = seq 0 n ∧ 2 * length (status_abort_calls s) = n * (n - 1)) ∧
  (interval s = false → aborts s = []) ∧
  (∀ req, status_requests s !! req = Some Pending → S req = n ∧ interval s = true).
Proof.
  assert (∀ s, PInv s → PInv (run s es)) as Hrun.
  { induction es as [|ev es IH]; intros s Hs; [done|]. by apply IH, PInv_step. }
  apply (Hrun (mounted e c)). unfold PInv. simpl. by repeat split.
Qed.

(** ** The analysis effect *)

Lemma AInv_frame s s' :
  analyze_requests s' = analyze_requests s →
  analysis_cleanup s' = analysis_cleanup s → AInv s → AInv s'.
Proof. unfold AInv. by intros -> ->. Qed.

(** After the cleanup no request is left to be answered. *)
Lemma AInv_cleanup s :
  AInv s → ∀ req q, analyze_requests (analysis_cleanup_run s) !! req ≠ Some (q, Pending).
Proof.
  intros Hs req q Hreq. unfold analysis_cleanup_run in Hreq.
  destruct (analysis_cleanup s) as [r0|] eqn:Hc.
  - simpl in Hreq. destruct (decide (req = r0)) as [->|Hne].
    + rewrite list_lookup_alter_eq in Hreq.
      by destruct (analyze_requests s !! r0) as [[q' []]|].
    + rewrite list_lookup_alter_ne in Hreq by done.
      specialize (Hs _ _ Hreq). congruence.
  - specialize (Hs _ _ Hreq). congruence.
Qed.

Lemma AInv_settle s req q :
  AInv s → AInv (set_analyze_requests (<[req := (q, Settled)]> (analyze_requests s)) s).
Proof.
  intros Hs req' q' Hreq'. simpl in *.
  destruct (decide (req' = req)) as [->|Hne].
  - apply list_lookup_insert_Some in Hreq' as [(_ & ? & _)|[? _]]; done.
  - rewrite list_lookup_insert_ne in Hreq' by done. exact (Hs _ _ Hreq').
Qed.

Lemma AInv_step s e : AInv s → AInv (step s e).
Proof.
  intros Hs. destruct e as [e c| | | | | |req res|req|req res|req|]; simpl.
  - by eapply AInv_frame.
  - eapply AInv_frame; [..|done]; unfold effect_complete_input;
      by repeat case_match.
  - pose proof (AInv_cleanup s Hs) as Hnone. unfold effect_analyze.
    set (s1 := analysis_cleanup_run s) in *.
    repeat case_match; intros req q Hreq; simpl in *;
      try (by destruct (Hnone req q)).
    apply lookup_snoc_Some in Hreq as [[_ Hreq]|[-> _]]; [|done].
    by destruct (Hnone req q).
  - eapply AInv_frame; [..|done]; unfold effect_generate_input;
      by repeat case_match.
  - eapply AInv_frame; [..|done]; unfold effect_run_analysis;
      by repeat case_match.
  - unfold tick. destruct (interval s); [|done].
    destruct (foldl_abort_status (aborts s) s) as (Hout & _).
    injection Hout as _ _ _ _ _ _ _ _ _ _ Ec Er _.
    by eapply AInv_frame.
  - eapply AInv_frame; [..|done]; unfold status_resolved; by repeat case_match.
  - eapply AInv_frame; [..|done]; unfold status_rejected; by repeat case_match.
  - unfold analyze_resolved. repeat case_match; try done;
      (eapply AInv_frame; [..|by eapply (AInv_settle s req)]); done.
  - unfold analyze_rejected. repeat case_match; try done;
      (eapply AInv_frame; [..|by eapply (AInv_settle s req)]); done.
  - assert (AInv (poll_cleanup s)) as Hs1.
    { unfold poll_cleanup.
      destruct (foldl_abort_status (aborts s) s) as (Hout & _).
      injection Hout as _ _ _ _ _ _ _ _ _ _ Ec Er _.
      by eapply AInv_frame. }
    intros req q Hreq. simpl in Hreq. by destruct (AInv_cleanup _ Hs1 req q).
Qed.

(** At most one analysis request is waiting for its answer at any time,
    and it is the one the registered cleanup aborts: each run of the
    analysis effect first aborts the request of the run before. *)
Theorem one_analysis_pending e c es :
  let s := run (mounted e c) es in
  ∀ req q, analyze_requests s !! req = Some (q, Pending) →
           analysis_cleanup s = Some req ∧
           ∀ req' q', analyze_requests s !! req' = Some (q', Pending) → req' = req.
Proof.
  assert (∀ s, AInv s → AInv (run s es)) as Hrun.
  { induction es as [|ev es IH]; intros s Hs; [done|]. by apply IH, AInv_step. }
  assert (AInv (mounted e c)) as H0 by (by intros req q).
  intros s req q Hreq. pose proof (Hrun _ H0 req q Hreq) as Hc.
  split; [done|]. intros req' q' Hreq'.
  pose proof (Hrun _ H0 req' q' Hreq') as Hc'. congruence.
Qed.

(** Only the handler of an answer sets [inFlight] back to false. *)
Lemma inFlight_step s e :
  inFlight s = true → (∀ req res, e ≠ AnalyzeResolved req res) →
  inFlight (step s e) = true.
Proof.
  intros Hs He. destruct e as [e c| | | | | |req res|req|req res|req|]; simpl; try done.
  - unfold effect_complete_input; by repeat case_match.
  - unfold effect_analyze, analysis_cleanup_run; by repeat case_match.
  - unfold effect_generate_input; by repeat case_match.
  - unfold effect_run_analysis; by repeat case_match.
  - unfold tick. destruct (interval s); [|done].
    destruct (foldl_abort_status (aborts s) s) as (Hout & _).
    injection Hout as _ _ _ _ _ Ef _ _ _ _ _ _ _. simpl. congruence.
  - unfold status_resolved; by repeat case_match.
  - unfold status_rejected; by repeat case_match.
  - by destruct (He req res).
  - unfold analyze_rejected; by repeat case_match.
  - unfold poll_cleanup, analysis_cleanup_run. simpl.
    destruct (foldl_abort_status (aborts s) s) as (Hout & _).
    injection Hout as _ _ _ _ _ Ef _ _ _ _ _ _ _.
    case_match; simpl; congruence.
Qed.

(** Once an analysis request has been made, the indicator shows [Working]
    until a request is answered: a request that fails, or that is aborted
    by the cleanup with no further request made, leaves [inFlight] set,
    whatever else happens. *)
Theorem failure_leaves_in_flight s es :
  inFlight s = true →
  Forall (λ e, ∀ req res, e ≠ AnalyzeResolved req res) es →
  inFlight (run s es) = true ∧ indicator (run s es) = IndicatorState.Working.
Proof.
  intros Hs Hes.
  assert (inFlight (run s es) = true) as Hf.
  { revert s Hs. induction Hes as [|e es He Hes IH]; intros s Hs; [done|].
    apply IH. by apply inFlight_step. }
  split; [done|]. unfold indicator, indicatorState. by rewrite Hf.
Qed.

(** ** Without an input in the query *)

Lemma inert_step s e :
  truthy inputted_input = None → inert s → analysis_cleanup s = None →
  inert (step s e) ∧ analysis_cleanup (step s e) = None.
Proof.
  intros Hq (Hi & Ho & Hr & Hres & Hf) Hc. unfold inert.
  destruct e as [e c| | | | | |req res|req|req res|req|]; simpl.
  - done.
  - unfold effect_complete_input. by rewrite Hi, Hq.
  - unfold effect_analyze, analysis_cleanup_run. by rewrite Hc, Hi.
  - unfold effect_generate_input. by rewrite Hq.
  - unfold effect_run_analysis. by rewrite Hi.
  - unfold tick. destruct (interval s); [|done].
    destruct (foldl_abort_status (aborts s) s) as (Hout & _).
    injection Hout as _ _ Ei Eo _ Ef Er _ _ _ Ec Ea _. simpl.
    by rewrite Ei, Eo, Ef, Er, Ec, Ea.
  - unfold status_resolved; by repeat case_match.
  - unfold status_rejected; by repeat case_match.
  - unfold analyze_resolved. by rewrite Hr.
  - unfold analyze_rejected. by rewrite Hr.
  - unfold poll_cleanup, analysis_cleanup_run. simpl.
    destruct (foldl_abort_status (aborts s) s) as (Hout & _).
    injection Hout as _ _ Ei Eo _ Ef Er _ _ _ Ec Ea _.
    rewrite Ec, Hc. simpl. by rewrite Ei, Eo, Ef, Er, Ea.
Qed.

(** The input is set by two effects only, and each of them asks for the
    query parameter [input] first.  Without that parameter, or with an
    empty one, the input stays [null] whatever happens: nothing is run
    locally, no analysis is ever requested, no response is ever at hand,
    and the indicator shows [Working] or [Error], never a verdict. *)
Theorem without_query_input_nothing_is_analysed e c es :
  truthy inputted_input = None →
  let s := run (mounted e c) es in
  input s = None ∧ output s = None ∧ analyze_requests s = [] ∧
  response s = None ∧ inFlight s = false ∧
  (indicator s = IndicatorState.Working ∨ indicator s = IndicatorState.Error).
Proof.
  intros Hq s.
  assert (∀ s0, inert s0 → analysis_cleanup s0 = None → inert (run s0 es)) as Hrun.
  { induction es as [|ev es IH]; intros s0 H0 Hc0; [done|].
    destruct (inert_step s0 ev Hq H0 Hc0). by apply IH. }
  destruct (Hrun (mounted e c)) as (Hi & Ho & Hr & Hres & Hf); [done..|].
  fold s in Hi, Ho, Hr, Hres, Hf. do 5 (split; [done|]).
  unfold indicator, indicatorState. rewrite Hf, Hres. simpl.
  destruct (compiled (compilationStatus s)); auto.
Qed.

End UiFacts.

(** ** Scenarios of the front end *)

(** Stand-ins for the functions of the wasm package. *)
Definition wasm_complete_input_from_json (a : Ui.Analysis) (j : string) : option Ui.Input :=
  Some {| Ui.analysis := a; Ui.json := j; Ui.markdown := "" |}.

Definition wasm_generate_input_for (src : string) (a : Ui.Analysis) : option Ui.Input :=
  Some {| Ui.analysis := a; Ui.json := "{}"; Ui.markdown := "" |}.

Definition wasm_run_analysis (src : string) (i : Ui.Input) : option Ui.Output :=
  Some {| Ui.o_markdown := "reference" |}.

Definition status_compiled : Ui.CompilationStatus :=
  {| Ui.compiled_at := 1; Ui.state := Ui.CompilerState.Compiled |}.

(** The page was opened with [?input={}]: the input is completed, the
    compilation is found to be done, and the analysis is requested. *)
Definition requested : Ui.Env :=
  Ui.run wasm_complete_input_from_json wasm_generate_input_for wasm_run_analysis
    (Some "{}") (Ui.mounted Ui.Sign "skip")
    [Ui.CompleteInput; Ui.Tick; Ui.StatusResolved 0 status_compiled; Ui.Analyze].

Lemma poller_keeps_every_abort_witness :
  let s := Ui.run wasm_complete_input_from_json wasm_generate_input_for
             wasm_run_analysis None (Ui.mounted Ui.Sign "skip")
             [Ui.Tick; Ui.Tick; Ui.Tick] in
  Ui.interval s = true ∧ Ui.aborts s = [0; 1; 2] ∧
  Ui.status_abort_calls s = [0; 0; 1] ∧
  Ui.status_requests s = [Ui.Aborted; Ui.Aborted; Ui.Pending].
Proof.
  intros s.
  destruct (poller_keeps_every_abort wasm_complete_input_from_json
              wasm_generate_input_for wasm_run_analysis None Ui.Sign "skip"
              [Ui.Tick; Ui.Tick; Ui.Tick]) as (H1 & _).
  destruct (H1 eq_refl) as [Ha _].
  split; [reflexivity|]. split; [exact Ha|]. split; reflexivity.
Defined.

Lemma one_analysis_pending_witness :
  let q := {| Ui.rq_analysis := Ui.Sign; Ui.rq_src := "skip"; Ui.rq_input := "{}" |} in
  Ui.analyze_requests requested !! 0 = Some (q, Ui.Pending) ∧
  Ui.analysis_cleanup requested = Some 0.
Proof.
  intros q. split; [reflexivity|].
  destruct (one_analysis_pending wasm_complete_input_from_json
              wasm_generate_input_for wasm_run_analysis (Some "{}") Ui.Sign "skip"
              [Ui.CompleteInput; Ui.Tick; Ui.StatusResolved 0 status_compiled; Ui.Analyze]
              0 q eq_refl) as [H1 _].
  exact H1.
Defined.

Lemma failure_leaves_in_flight_witness :
  let es := [Ui.AnalyzeRejected 0; Ui.Tick; Ui.Props Ui.Sign "skip; skip"] in
  let s' := Ui.run wasm_complete_input_from_json wasm_generate_input_for
              wasm_run_analysis (Some "{}") requested es in
  Ui.inFlight requested = true ∧
  Forall (λ e, ∀ req res, e ≠ Ui.AnalyzeResolved req res) es ∧
  Ui.inFlight s' = true ∧ Ui.indicator s' = Ui.IndicatorState.Working.
Proof.
  intros es s'.
  assert (Forall (λ e, ∀ req res, e ≠ Ui.AnalyzeResolved req res) es) as Hes
    by (repeat constructor; discriminate).
  split; [reflexivity|]. split; [exact Hes|].
  apply (failure_leaves_in_flight wasm_complete_input_from_json
           wasm_generate_input_for wasm_run_analysis (Some "{}") requested es
           eq_refl Hes).
Defined.

Lemma without_query_input_nothing_is_analysed_witness :
  let s := Ui.run wasm_complete_input_from_json wasm_generate_input_for
             wasm_run_analysis None (Ui.mounted Ui.Sign "skip")
             [Ui.CompleteInput; Ui.Tick; Ui.StatusResolved 0 status_compiled;
              Ui.Analyze; Ui.GenerateInput; Ui.RunAnalysis] in
  Ui.truthy None = None ∧
  Ui.compilationStatus s = Some status_compiled ∧
  Ui.input s = None ∧ Ui.analyze_requests s = [] ∧
  Ui.indicator s = Ui.IndicatorState.Error.
Proof.
  intros s. split; [reflexivity|]. split; [reflexivity|].
  destruct (without_query_input_nothing_is_analysed wasm_complete_input_from_json
              wasm_generate_input_for wasm_run_analysis None Ui.Sign "skip"
              [Ui.CompleteInput; Ui.Tick; Ui.StatusResolved 0 status_compiled;
               Ui.Analyze; Ui.GenerateInput; Ui.RunAnalysis] eq_refl)
    as (H1 & _ & H3 & _ & _ & H6).
  split; [exact H1|]. split; [exact H3|].
  destruct H6 as [H6|H6]; [|exact H6].
  vm_compute in H6. discriminate H6.
Defined.
